(** * Verification of the HTML/CSS to Webflow clipboard converter

    A shallow embedding of [src/engine/converter.ts] (class
    [WebflowConverter] and the stylesheet helpers around it) together with
    the properties of the specification that are about it.

    Conventions of the embedding.

    - JavaScript strings are [string]s (sequences of 8-bit characters).
      [String.prototype.trim], [\s] and [toLowerCase] are modelled on the
      ASCII range: the white space characters are TAB, LF, VT, FF, CR and
      SPACE, and only [A-Z] has a lower-case form.
    - Regular expressions are kept as regular expressions: [regex] is a
      small abstract syntax, [rmatch] a backtracking matcher with the
      greedy / lazy and leftmost-first semantics of ECMAScript, and every
      regular expression literal of the source is transcribed as a term
      of that syntax.
    - [uuidv4()] is a supply of fresh identifiers: the n-th identifier drawn
      in a conversion is [Uuid n].  The only other string the source stores
      where an identifier is expected is the empty string, [EmptyId].
    - The markup is given as the tree the browser's [DOMParser] builds; the
      answers of [Element.matches] are part of that tree. *)

From Stdlib Require Import String Ascii List Bool Arith Lia Permutation.
Import ListNotations.
Open Scope list_scope.
Open Scope string_scope.
Open Scope nat_scope.

(* ================================================================== *)
(** * JavaScript string primitives *)
(* ================================================================== *)

Module JS.

(** White space as seen by [trim] and [\s] (ASCII range). *)
Definition isSpace (c : ascii) : bool :=
  let n := nat_of_ascii c in
  ((9 <=? n) && (n <=? 13)) || (n =? 32).

Definition isUpper (c : ascii) : bool :=
  let n := nat_of_ascii c in (65 <=? n) && (n <=? 90).

Definition isLower (c : ascii) : bool :=
  let n := nat_of_ascii c in (97 <=? n) && (n <=? 122).

Definition isDigit (c : ascii) : bool :=
  let n := nat_of_ascii c in (48 <=? n) && (n <=? 57).

(** [\w] *)
Definition isWord (c : ascii) : bool :=
  isUpper c || isLower c || isDigit c || Ascii.eqb c "_".

Definition lowerChar (c : ascii) : ascii :=
  if isUpper c then ascii_of_nat (nat_of_ascii c + 32) else c.

(** [s.toLowerCase()] *)
Fixpoint toLowerCase (s : string) : string :=
  match s with
  | EmptyString => EmptyString
  | String c s' => String (lowerChar c) (toLowerCase s')
  end.

(** [s.trimStart()] *)
Fixpoint trimStart (s : string) : string :=
  match s with
  | EmptyString => EmptyString
  | String c s' => if isSpace c then trimStart s' else s
  end.

(** [s.trimEnd()] *)
Fixpoint trimEnd (s : string) : string :=
  match s with
  | EmptyString => EmptyString
  | String c s' =>
      match trimEnd s' with
      | EmptyString => if isSpace c then EmptyString else String c EmptyString
      | r => String c r
      end
  end.

(** [s.trim()] *)
Definition trim (s : string) : string := trimEnd (trimStart s).

(** [s.startsWith(p)] *)
Fixpoint startsWith (s p : string) {struct p} : bool :=
  match p, s with
  | EmptyString, _ => true
  | String a p', String b s' => Ascii.eqb a b && startsWith s' p'
  | String _ _, EmptyString => false
  end.

(** [s.includes(p)] *)
Fixpoint includes (s p : string) : bool :=
  startsWith s p
  || match s with
     | EmptyString => false
     | String _ s' => includes s' p
     end.

(** [s.indexOf(c)] for a one-character needle; [None] stands for [-1]. *)
Fixpoint indexOf (s : string) (c : ascii) : option nat :=
  match s with
  | EmptyString => None
  | String a s' =>
      if Ascii.eqb a c then Some 0
      else option_map S (indexOf s' c)
  end.

(** [s.substring(i)] *)
Fixpoint substringFrom (i : nat) (s : string) : string :=
  match i, s with
  | 0, _ => s
  | S i', String _ s' => substringFrom i' s'
  | S _, EmptyString => EmptyString
  end.

(** [s.substring(0, n)] *)
Fixpoint substringTo (n : nat) (s : string) : string :=
  match n, s with
  | 0, _ => EmptyString
  | S n', String c s' => String c (substringTo n' s')
  | S _, EmptyString => EmptyString
  end.

(** [s.substring(i, j)] for [i <= j] *)
Definition slice (i j : nat) (s : string) : string :=
  substringTo (j - i) (substringFrom i s).

(** [s.split(c)] for a one-character separator. *)
Fixpoint splitChar (c : ascii) (s : string) : list string :=
  match s with
  | EmptyString => [EmptyString]
  | String a s' =>
      if Ascii.eqb a c then EmptyString :: splitChar c s'
      else match splitChar c s' with
           | [] => [String a EmptyString]
           | h :: t => String a h :: t
           end
  end.

(** [parts.join(sep)] *)
Fixpoint join (sep : string) (parts : list string) : string :=
  match parts with
  | [] => EmptyString
  | [p] => p
  | p :: rest => p ++ sep ++ join sep rest
  end.

(** Truthiness of a string: [if (s)], [s || d]. *)
Definition truthy (s : string) : bool :=
  match s with EmptyString => false | _ => true end.

Definition orElse (s d : string) : string := if truthy s then s else d.

End JS.

(* ================================================================== *)
(** * Regular expressions *)
(* ================================================================== *)

Module Regex.

(** The fragment of the ECMAScript syntax the converter uses. *)
Inductive regex : Type :=
| Chr (p : ascii -> bool)          (* a literal, a class, a negated class *)
| Eps
| Seq (r1 r2 : regex)
| Alt (r1 r2 : regex)              (* r1|r2, r1 tried first *)
| Star (greedy : bool) (r : regex) (* r* and r*? *)
| Group (n : nat) (r : regex)      (* the n-th capturing group *)
| Bol                              (* ^ (no m flag) *)
| Eol.                             (* $ (no m flag) *)

(** Where the matcher stands: the index reached, what is left of the
    subject, and the spans captured so far. *)
Record cursor : Type := Cursor {
  pos : nat;
  rest : string;
  caps : list (nat * (nat * nat))
}.

(** Backtracking matcher in continuation-passing style: [k] is what has
    to match after [r]; [None] makes the matcher try its next choice.  An
    iteration of a star that consumes nothing is refused, as in
    ECMAScript, so that a star iterates at most once per character left. *)
Fixpoint rmatch {R : Type} (r : regex) (c : cursor)
         (k : cursor -> option R) {struct r} : option R :=
  match r with
  | Chr p =>
      match rest c with
      | String a s' =>
          if p a then k (Cursor (S (pos c)) s' (caps c)) else None
      | EmptyString => None
      end
  | Eps => k c
  | Seq r1 r2 => rmatch r1 c (fun c1 => rmatch r2 c1 k)
  | Alt r1 r2 =>
      match rmatch r1 c k with
      | Some x => Some x
      | None => rmatch r2 c k
      end
  | Star greedy r' =>
      (fix loop (n : nat) (c : cursor) {struct n} : option R :=
         match n with
         | 0 => k c
         | S n' =>
             if greedy then
               match rmatch r' c
                       (fun c' =>
                          if pos c' =? pos c then None else loop n' c') with
               | Some x => Some x
               | None => k c
               end
             else
               match k c with
               | Some x => Some x
               | None =>
                   rmatch r' c
                     (fun c' =>
                        if pos c' =? pos c then None else loop n' c')
               end
         end) (String.length (rest c)) c
  | Group n r' =>
      rmatch r' c
        (fun c' => k (Cursor (pos c') (rest c')
                             ((n, (pos c, pos c')) :: caps c')))
  | Bol => if pos c =? 0 then k c else None
  | Eol => match rest c with EmptyString => k c | _ => None end
  end.

(** A successful match: the span matched and the captured spans. *)
Record rmatchResult : Type := MatchResult {
  m_start : nat;
  m_end : nat;
  m_caps : list (nat * (nat * nat))
}.

(** The match of [r] that starts exactly at the cursor, if any. *)
Definition matchAt (r : regex) (i : nat) (s : string) : option rmatchResult :=
  rmatch r (Cursor i s [])
    (fun c => Some (MatchResult i (pos c) (caps c))).

(** The leftmost match at or after index [i]; [s] is the subject from
    index [i] on. *)
Fixpoint search (r : regex) (i : nat) (s : string) : option rmatchResult :=
  match matchAt r i s with
  | Some m => Some m
  | None =>
      match s with
      | EmptyString => None
      | String _ s' => search r (S i) s'
      end
  end.

(** [re.exec(s)] with [re.lastIndex = i]. *)
Definition exec (r : regex) (s : string) (i : nat) : option rmatchResult :=
  if String.length s <? i then None
  else search r i (JS.substringFrom i s).

(** [re.test(s)] for a regular expression without the g flag. *)
Definition test (r : regex) (s : string) : bool :=
  match exec r s 0 with Some _ => true | None => false end.

(** [match[0]] *)
Definition matched (s : string) (m : rmatchResult) : string :=
  JS.slice (m_start m) (m_end m) s.

(** [match[n]] for a group that took part in the match. *)
Definition group (s : string) (m : rmatchResult) (n : nat) : string :=
  match find (fun e => fst e =? n) (m_caps m) with
  | Some (_, (i, j)) => JS.slice i j s
  | None => EmptyString
  end.

(** All the matches a [while ((match = re.exec(s)) !== null)] loop sees
    with a g-flagged [re].  No regular expression of the converter
    matches the empty string, so [lastIndex] advances at every match; the
    step past an empty match only keeps the definition total. *)
Fixpoint execAllFrom (fuel : nat) (r : regex) (s : string) (i : nat)
  : list rmatchResult :=
  match fuel with
  | 0 => []
  | S fuel' =>
      match exec r s i with
      | None => []
      | Some m =>
          m :: execAllFrom fuel' r s
                 (if m_end m =? m_start m then S (m_end m) else m_end m)
      end
  end.

Definition execAll (r : regex) (s : string) : list rmatchResult :=
  execAllFrom (S (String.length s)) r s 0.

(** [s.replace(re, by)] with a g-flagged [re]: every match, left to right,
    is replaced. *)
Fixpoint replaceSpans (s : string) (from : nat) (by_ : string)
         (ms : list rmatchResult) : string :=
  match ms with
  | [] => JS.substringFrom from s
  | m :: ms' =>
      JS.slice from (m_start m) s ++ by_ ++ replaceSpans s (m_end m) by_ ms'
  end.

Definition replaceAll (r : regex) (by_ : string) (s : string) : string :=
  replaceSpans s 0 by_ (execAll r s).

(** [s.replace(re, by)] without the g flag: the first match only. *)
Definition replaceFirst (r : regex) (by_ : string) (s : string) : string :=
  match exec r s 0 with
  | None => s
  | Some m =>
      JS.substringTo (m_start m) s ++ by_ ++ JS.substringFrom (m_end m) s
  end.

(** [s.split(re)], after the SplitMatcher loop of the language
    definition: [p] is the end of the last separator, [q] the index
    tried, [sq] the subject from [q] on. *)
Fixpoint splitFrom (r : regex) (s : string) (p q : nat) (sq : string)
  : list string :=
  match sq with
  | EmptyString => [JS.substringFrom p s]
  | String _ sq' =>
      match matchAt r q sq with
      | None => splitFrom r s p (S q) sq'
      | Some m =>
          if m_end m =? p then splitFrom r s p (S q) sq'
          else
            JS.slice p q s ::
            (fix skip (n : nat) (q' : nat) (t : string) {struct t}
               : list string :=
               match n with
               | 0 => splitFrom r s (m_end m) q' t
               | S n' =>
                   match t with
                   | EmptyString => [EmptyString]
                   | String _ t' => skip n' (S q') t'
                   end
               end) (m_end m - q - 1) (S q) sq'
      end
  end.

Definition split (r : regex) (s : string) : list string :=
  match s with
  | EmptyString =>
      match matchAt r 0 s with Some _ => [] | None => [s] end
  | _ => splitFrom r s 0 0 s
  end.

(** ** Building blocks *)

Definition char (a : ascii) : regex := Chr (Ascii.eqb a).

(** A literal run of characters. *)
Fixpoint lit (s : string) : regex :=
  match s with
  | EmptyString => Eps
  | String a EmptyString => char a
  | String a s' => Seq (char a) (lit s')
  end.

(** [[abc]] and [[^abc]], the members given as a string. *)
Fixpoint member (a : ascii) (set : string) : bool :=
  match set with
  | EmptyString => false
  | String b set' => Ascii.eqb a b || member a set'
  end.

Definition oneOf (set : string) : regex := Chr (fun a => member a set).
Definition noneOf (set : string) : regex := Chr (fun a => negb (member a set)).

Definition star (r : regex) : regex := Star true r.
Definition lazyStar (r : regex) : regex := Star false r.
Definition plus (r : regex) : regex := Seq r (Star true r).

(** [\s], [[\s\S]], [\w], [[\w-]] *)
Definition space : regex := Chr JS.isSpace.
Definition anyChar : regex := Chr (fun _ => true).
Definition wordOrDash : regex :=
  Chr (fun a => JS.isWord a || Ascii.eqb a "-").

Fixpoint seqs (rs : list regex) : regex :=
  match rs with
  | [] => Eps
  | [r] => r
  | r :: rs' => Seq r (seqs rs')
  end.

Fixpoint alts (rs : list regex) : regex :=
  match rs with
  | [] => Chr (fun _ => false)
  | [r] => r
  | r :: rs' => Alt r (alts rs')
  end.

End Regex.

(* ================================================================== *)
(** * Insertion-ordered maps *)
(* ================================================================== *)

(** A JavaScript [Map]: [forEach] visits the entries in
    the order in which their keys were first set, and setting a key that
    is present keeps its place. *)
Module JSMap.

Section WithKey.
Context {K V : Type} (eqb : K -> K -> bool).

Fixpoint get (m : list (K * V)) (k : K) : option V :=
  match m with
  | [] => None
  | (k', v) :: m' => if eqb k' k then Some v else get m' k
  end.

Definition has (m : list (K * V)) (k : K) : bool :=
  match get m k with Some _ => true | None => false end.

Fixpoint set (m : list (K * V)) (k : K) (v : V) : list (K * V) :=
  match m with
  | [] => [(k, v)]
  | (k', v') :: m' =>
      if eqb k' k then (k', v) :: m' else (k', v') :: set m' k v
  end.

End WithKey.

End JSMap.

(* ================================================================== *)
(** * The stylesheet helpers *)
(* ================================================================== *)

Import JS Regex.

Definition LF : ascii := "010"%char.
Definition nl : string := String LF EmptyString.

(** ** [wrapCssVariables] *)

Definition wrapCssVariables (value : string) : string :=
  let trimmed := trim value in
  if includes trimmed "var(--"
     || includes trimmed "calc("
     || includes trimmed "clamp("
     || includes trimmed "min("
     || includes trimmed "max("
  then "@raw<|" ++ trimmed ++ "|>"
  else trimmed.

(** ** [expandShorthand] *)

(** [values[i]] inside a template literal. *)
Definition at_ (values : list string) (i : nat) : string :=
  nth i values "undefined".

(** Source: "/^[a-z]+$/i" *)
Definition colorKeywordRegex : regex :=
  seqs [Bol; plus (Chr (fun a => isLower a || isUpper a)); Eol].

Definition expandShorthand (prop value : string) : string :=
  let values := split (plus space) (trim value) in
  if String.eqb prop "margin" || String.eqb prop "padding" then
    if List.length values =? 1 then
      prop ++ "-top: " ++ at_ values 0 ++ "; " ++
      prop ++ "-right: " ++ at_ values 0 ++ "; " ++
      prop ++ "-bottom: " ++ at_ values 0 ++ "; " ++
      prop ++ "-left: " ++ at_ values 0 ++ ";"
    else if List.length values =? 2 then
      prop ++ "-top: " ++ at_ values 0 ++ "; " ++
      prop ++ "-right: " ++ at_ values 1 ++ "; " ++
      prop ++ "-bottom: " ++ at_ values 0 ++ "; " ++
      prop ++ "-left: " ++ at_ values 1 ++ ";"
    else if List.length values =? 3 then
      prop ++ "-top: " ++ at_ values 0 ++ "; " ++
      prop ++ "-right: " ++ at_ values 1 ++ "; " ++
      prop ++ "-bottom: " ++ at_ values 2 ++ "; " ++
      prop ++ "-left: " ++ at_ values 1 ++ ";"
    else if List.length values =? 4 then
      prop ++ "-top: " ++ at_ values 0 ++ "; " ++
      prop ++ "-right: " ++ at_ values 1 ++ "; " ++
      prop ++ "-bottom: " ++ at_ values 2 ++ "; " ++
      prop ++ "-left: " ++ at_ values 3 ++ ";"
    else ""
  else if String.eqb prop "border-radius" then
    if List.length values =? 1 then
      "border-top-left-radius: " ++ at_ values 0 ++
      "; border-top-right-radius: " ++ at_ values 0 ++
      "; border-bottom-left-radius: " ++ at_ values 0 ++
      "; border-bottom-right-radius: " ++ at_ values 0 ++ ";"
    else if List.length values =? 2 then
      "border-top-left-radius: " ++ at_ values 0 ++
      "; border-top-right-radius: " ++ at_ values 1 ++
      "; border-bottom-right-radius: " ++ at_ values 0 ++
      "; border-bottom-left-radius: " ++ at_ values 1 ++ ";"
    else if List.length values =? 4 then
      "border-top-left-radius: " ++ at_ values 0 ++
      "; border-top-right-radius: " ++ at_ values 1 ++
      "; border-bottom-right-radius: " ++ at_ values 2 ++
      "; border-bottom-left-radius: " ++ at_ values 3 ++ ";"
    else ""
  else if String.eqb prop "gap" then
    "grid-column-gap: " ++ at_ values 0 ++
    "; grid-row-gap: " ++
    (match values with
     | _ :: v1 :: _ => orElse v1 (at_ values 0)
     | _ => at_ values 0
     end) ++ ";"
  else if String.eqb prop "background" then
    if startsWith value "#" || startsWith value "rgb"
       || test colorKeywordRegex (trim value)
    then "background-color: " ++ value ++ ";"
    else prop ++ ": " ++ value ++ ";"
  else prop ++ ": " ++ value ++ ";".

(** ** [parseCssToStyleLess] *)

(** Source: "/\/\*[\s\S]*?\*\//g" *)
Definition commentRegex : regex :=
  seqs [lit "/*"; lazyStar anyChar; lit "*/"].

(** Source: "/@media[^{]+\{[\s\S]*?\}\s*\}/g" *)
Definition mediaBlockRegex : regex :=
  seqs [lit "@media"; plus (noneOf "{"); char "{";
        lazyStar anyChar; char "}"; star space; char "}"].

(** Source: "/([^{}\n@]+)\s*\{([^{}]+)\}/g" *)
Definition ruleRegex : regex :=
  seqs [Group 1 (plus (noneOf (String LF "{}@")));
        star space; char "{";
        Group 2 (plus (noneOf "{}")); char "}"].

(** The callback of [properties.split(';').forEach]: what one piece [p]
    adds to the declaration string [styleLess]. *)
Definition declaration (styleLess p : string) : string :=
  let trimmed := trim p in
  if negb (truthy trimmed) then styleLess
  else
    match indexOf trimmed ":" with
    | None => styleLess
    | Some colonIndex =>
        let propName := trim (substringTo colonIndex trimmed) in
        let propValue := trim (substringFrom (colonIndex + 1) trimmed) in
        let propValue := wrapCssVariables propValue in
        if startsWith propValue "@raw<|"
        then styleLess ++ " " ++ propName ++ ": " ++ propValue ++ ";"
        else styleLess ++ " " ++ expandShorthand propName propValue
    end.

(** The declaration string of one rule body. *)
Definition declarations (properties : string) : string :=
  fold_left declaration (splitChar ";" properties) "".

(** The body of the [while] loop over the rules. *)
Definition parseRule (cleanCss : string)
           (styleMap : list (string * string)) (m : rmatchResult)
  : list (string * string) :=
  let selector := trim (group cleanCss m 1) in
  let properties := trim (group cleanCss m 2) in
  if startsWith selector "@" then styleMap
  else
    let styleLess := declarations properties in
    if truthy (trim styleLess)
    then JSMap.set String.eqb styleMap selector (trim styleLess)
    else styleMap.

Definition parseCssToStyleLess (css : string) : list (string * string) :=
  let cleanCss := replaceAll commentRegex "" css in
  let cleanCss := replaceAll mediaBlockRegex "" cleanCss in
  fold_left (parseRule cleanCss) (execAll ruleRegex cleanCss) [].

(** ** [extractAdvancedCss] *)

(** Source: "/:root\s*\{[^}]+\}/g" *)
Definition rootBlockRegex : regex :=
  seqs [lit ":root"; star space; char "{"; plus (noneOf "}"); char "}"].

(** Source: "/@media[^{]+\{([\s\S]*?\})\s*\}/g" *)
Definition mediaRegex : regex :=
  seqs [lit "@media"; plus (noneOf "{"); char "{";
        Group 1 (Seq (lazyStar anyChar) (char "}")); star space; char "}"].

(** Source, with a blank put before the parenthesis that closes group 1:
    "/([^\{\}@]*\[[^\]]+\][^\{]* )\{([^}]+)\}/g" *)
Definition attrSelectorRegex : regex :=
  seqs [Group 1 (seqs [star (noneOf "{}@"); char "[";
                       plus (noneOf "]"); char "]"; star (noneOf "{")]);
        char "{"; Group 2 (plus (noneOf "}")); char "}"].

(** Source, with a blank put before the parenthesis that closes group 1:
    "/([^\{\}@]*:(?:is|where|has|not)\([^)]+\)[^\{]* )\{([^}]+)\}/g" *)
Definition complexPseudoRegex : regex :=
  seqs [Group 1 (seqs [star (noneOf "{}@"); char ":";
                       alts [lit "is"; lit "where"; lit "has"; lit "not"];
                       char "("; plus (noneOf ")"); char ")";
                       star (noneOf "{")]);
        char "{"; Group 2 (plus (noneOf "}")); char "}"].

(** Source, with a blank put before the parenthesis that closes group 1:
    "/(?:^|\n)\s*((?:html|body|\*|:root)[^{]* )\{([^}]+)\}/g" *)
Definition elementRegex : regex :=
  seqs [Alt Bol (char LF); star space;
        Group 1 (Seq (alts [lit "html"; lit "body"; char "*"; lit ":root"])
                     (star (noneOf "{")));
        char "{"; Group 2 (plus (noneOf "}")); char "}"].

(** Source: "/@keyframes\s+[\w-]+\s*\{[\s\S]*?\}\s*\}/g" *)
Definition keyframesRegex : regex :=
  seqs [lit "@keyframes"; plus space; plus wordOrDash; star space;
        char "{"; lazyStar anyChar; char "}"; star space; char "}"].

(** Source: "/@font-face\s*\{[^}]+\}/g" *)
Definition fontFaceRegex : regex :=
  seqs [lit "@font-face"; star space; char "{";
        plus (noneOf "}"); char "}"].

(** Source: "/@import\s+[^;]+;/g" *)
Definition importRegex : regex :=
  seqs [lit "@import"; plus space; plus (noneOf ";"); char ";"].

(** [`${selector} {\n${properties}\n}`] *)
Definition ruleText (selector properties : string) : string :=
  selector ++ " {" ++ nl ++ properties ++ nl ++ "}".

(** The loops that push [match[0]]. *)
Definition pushMatches (r : regex) (s : string) (rules : list string)
  : list string :=
  (rules ++ map (matched s) (execAll r s))%list.

Definition pushAttrRule (s : string) (rules : list string) (m : rmatchResult)
  : list string :=
  let selector := trim (group s m 1) in
  let properties := group s m 2 in
  if truthy selector then (rules ++ [ruleText selector properties])%list
  else rules.

Definition pushPseudoRule (s : string) (rules : list string)
           (m : rmatchResult) : list string :=
  let selector := trim (group s m 1) in
  let properties := group s m 2 in
  let rule := ruleText selector properties in
  if negb (existsb (String.eqb rule) rules) && negb (includes selector "[")
  then (rules ++ [rule])%list
  else rules.

Definition pushElementRule (s : string) (rules : list string)
           (m : rmatchResult) : list string :=
  let selector := trim (group s m 1) in
  let properties := group s m 2 in
  let rule := ruleText selector properties in
  if negb (existsb (fun r => includes r selector) rules)
  then (rules ++ [rule])%list
  else rules.

Definition extractAdvancedCss (css : string) : string :=
  let originalCss := css in
  let advancedRules := pushMatches rootBlockRegex originalCss [] in
  let advancedRules := pushMatches mediaRegex originalCss advancedRules in
  let cssWithoutMedia := replaceAll mediaBlockRegex "" originalCss in
  let advancedRules :=
    fold_left (pushAttrRule cssWithoutMedia)
              (execAll attrSelectorRegex cssWithoutMedia) advancedRules in
  let advancedRules :=
    fold_left (pushPseudoRule cssWithoutMedia)
              (execAll complexPseudoRegex cssWithoutMedia) advancedRules in
  let advancedRules :=
    fold_left (pushElementRule cssWithoutMedia)
              (execAll elementRegex cssWithoutMedia) advancedRules in
  let advancedRules := pushMatches keyframesRegex originalCss advancedRules in
  let advancedRules := pushMatches fontFaceRegex originalCss advancedRules in
  let advancedRules := pushMatches importRegex originalCss advancedRules in
  join (nl ++ nl) advancedRules.

(** ** [generateClassNameFromSelector] *)

(** Source:
    "/^[h1-6]$|^p$|^div$|^span$|^a$|^button$|^input$|^section$|^header$|^footer$|^main$|^aside$|^nav$/";
    the first alternative is the class of the letter [h] and the digits
    [1] to [6]. *)
Definition commonTagRegex : regex :=
  let whole (r : regex) := seqs [Bol; r; Eol] in
  alts [whole (Chr (fun a =>
                 Ascii.eqb a "h"
                 || ((49 <=? nat_of_ascii a) && (nat_of_ascii a <=? 54))));
        whole (lit "p"); whole (lit "div"); whole (lit "span");
        whole (lit "a"); whole (lit "button"); whole (lit "input");
        whole (lit "section"); whole (lit "header"); whole (lit "footer");
        whole (lit "main"); whole (lit "aside"); whole (lit "nav")].

(** Source: "/[^\w\s-]/g" *)
Definition specialCharRegex : regex :=
  Chr (fun a => negb (isWord a || isSpace a || Ascii.eqb a "-")).

Definition generateClassNameFromSelector (selector : string) : string :=
  if test commonTagRegex selector then "custom-styled-" ++ selector
  else
    let s := toLowerCase selector in
    let s := replaceAll specialCharRegex "" s in
    let s := trim s in
    let s := replaceAll (plus space) "-" s in
    let s := replaceAll (plus (char "-")) "-" s in
    replaceFirst Bol "scoped-style-" s.

(* ================================================================== *)
(** * The parsed markup *)
(* ================================================================== *)

(** A child of an element: an element, a text node, or a node of another
    kind (a comment), which the converter passes over. *)
Inductive childNode (E : Type) : Type :=
| ElementNode (e : E)
| TextNode (textContent : string)
| OtherNode.

Arguments ElementNode {E} e.
Arguments TextNode {E} textContent.
Arguments OtherNode {E}.

(** An element as the converter sees it: [tagName], [attributes] (name
    and value), [childNodes], and the two answers it asks of the browser,
    [el.matches(selector)] ([None] when the call throws, which the
    converter catches) and [el.outerHTML], both as they are while the
    tree is walked, that is once the style elements are gone. *)
#[warnings="-register-all"]
Inductive element : Type :=
| Element (tagName : string)
          (attributes : list (string * string))
          (matches : string -> option bool)
          (outerHTML : string)
          (childNodes : list (childNode element)).

Definition tagName (el : element) : string :=
  match el with Element t _ _ _ _ => t end.
Definition attributes (el : element) : list (string * string) :=
  match el with Element _ a _ _ _ => a end.
Definition matches (el : element) : string -> option bool :=
  match el with Element _ _ m _ _ => m end.
Definition outerHTML (el : element) : string :=
  match el with Element _ _ _ o _ => o end.
Definition childNodes (el : element) : list (childNode element) :=
  match el with Element _ _ _ _ c => c end.

(** [el.children] *)
Fixpoint elementsOf (cs : list (childNode element)) : list element :=
  match cs with
  | [] => []
  | ElementNode e :: cs' => e :: elementsOf cs'
  | _ :: cs' => elementsOf cs'
  end.

Definition children (el : element) : list element :=
  elementsOf (childNodes el).

(** [el.getAttribute(name)] *)
Definition getAttribute (el : element) (name : string) : option string :=
  JSMap.get String.eqb (attributes el) name.

(** [el.getAttribute(name) || d] *)
Definition getAttributeOr (el : element) (name d : string) : string :=
  match getAttribute el name with
  | Some v => orElse v d
  | None => d
  end.

(** The tokens of a class attribute: the runs between white space, each
    kept once, in order of first appearance. *)
Fixpoint dedupe (seen l : list string) : list string :=
  match l with
  | [] => []
  | x :: l' =>
      if existsb (String.eqb x) seen then dedupe seen l'
      else x :: dedupe (x :: seen) l'
  end.

(** [el.classList] *)
Definition classList (el : element) : list string :=
  match getAttribute el "class" with
  | None => []
  | Some v =>
      dedupe [] (filter truthy (Regex.split (plus space) v))
  end.

(** [node.textContent] of an element: the text of its descendants. *)
Fixpoint textContent (el : element) : string :=
  match el with
  | Element _ _ _ _ cs =>
      (fix go (cs : list (childNode element)) : string :=
         match cs with
         | [] => ""
         | ElementNode e :: cs' => textContent e ++ go cs'
         | TextNode t :: cs' => t ++ go cs'
         | OtherNode :: cs' => go cs'
         end) cs
  end.

Definition isStyleElement (el : element) : bool :=
  String.eqb (toLowerCase (tagName el)) "style".

(** The style elements among the descendants of [el], in document order:
    what [querySelectorAll('style')] finds below [el]. *)
Fixpoint styleElementsIn (el : element) : list element :=
  match el with
  | Element _ _ _ _ cs =>
      (fix go (cs : list (childNode element)) : list element :=
         match cs with
         | [] => []
         | ElementNode e :: cs' =>
             ((if isStyleElement e then [e] else [])
                ++ styleElementsIn e ++ go cs')%list
         | _ :: cs' => go cs'
         end) cs
  end.

(** [el] once [remove()] has been called on every style element below
    it. *)
Fixpoint withoutStyleElements (el : element) : element :=
  match el with
  | Element t a m o cs =>
      Element t a m o
        ((fix go (cs : list (childNode element))
            : list (childNode element) :=
            match cs with
            | [] => []
            | ElementNode e :: cs' =>
                if isStyleElement e then go cs'
                else ElementNode (withoutStyleElements e) :: go cs'
            | c :: cs' => c :: go cs'
            end) cs)
  end.

(** The document [DOMParser.parseFromString(html, 'text/html')] returns:
    an [html] element with a [head] and a [body]. *)
Record document : Type := Document {
  head : element;
  body : element
}.

(** [doc.querySelectorAll('style')] *)
Definition querySelectorAllStyle (doc : document) : list element :=
  (styleElementsIn (head doc) ++ styleElementsIn (body doc))%list.

(** The document after [styleTag.remove()] on each of them. *)
Definition removeStyleElements (doc : document) : document :=
  Document (withoutStyleElements (head doc)) (withoutStyleElements (body doc)).

(* ================================================================== *)
(** * The output schema ([types.ts]) *)
(* ================================================================== *)

(** An identifier field: a UUID, or the empty string. *)
Inductive ident : Type :=
| EmptyId
| Uuid (n : nat).

Definition ident_eqb (a b : ident) : bool :=
  match a, b with
  | EmptyId, EmptyId => true
  | Uuid n, Uuid m => n =? m
  | _, _ => false
  end.

(** [if (id)] *)
Definition truthyId (a : ident) : bool :=
  match a with EmptyId => false | Uuid _ => true end.

Definition attribute : Type := string * string.

(** What [TAG_MAP[tagName]] can be: one of the type names of the table,
    or, for a tag called [constructor], the function the object
    inherits under that name. *)
Inductive nodeType : Type :=
| TypeName (name : string)
| InheritedConstructor.

Definition isType (t : nodeType) (name : string) : bool :=
  match t with
  | TypeName n => String.eqb n name
  | InheritedConstructor => false
  end.

(** The part of [data] that depends on the type of the element. *)
Inductive typeData : Type :=
| PlainData
| SectionData                                   (* grid: { type: 'section' } *)
| LinkData (mode href target : string)          (* link, button, block, eventIds *)
| ImageData (assetId : ident) (src alt loading width height : string)
| ListData                                      (* list: { type: 'list', unstyled: false } *)
| ListItemData.                                 (* list: { type: 'item' } *)

(** The [data] of a node. *)
Inductive nodeData : Type :=
| ElementData (tag : string) (attrId : string) (xattr : list attribute)
              (extra : typeData)
| DomData (tag : string) (attributes xattr : list attribute)
| EmbedData (html : string) (script : bool).

Record WebflowNode : Type := Node {
  n_id : ident;
  n_type : option nodeType;
  n_tag : option string;
  n_classes : option (list ident);
  n_children : option (list ident);
  n_data : option nodeData;
  n_text : option bool;
  n_v : option string
}.

Record WebflowStyle : Type := Style {
  s_id : ident;
  s_fake : bool;
  s_type : string;
  s_name : string;
  s_namespace : string;
  s_comb : string;
  s_styleLess : string;
  s_variants : list (string * string);
  s_children : list ident;
  s_createdBy : string;
  s_origin : option string;
  s_selector : option string
}.

Record WebflowPayload : Type := Payload {
  nodes : list WebflowNode;
  styles : list WebflowStyle
  (* assets, ix1 and ix2 are empty *)
}.

Record WebflowClipboardData : Type := ClipboardData {
  type : string;
  payload : WebflowPayload
  (* every counter of meta is 0 *)
}.

(* ================================================================== *)
(** * The tables of the converter *)
(* ================================================================== *)

Definition TAG_MAP_entries : list (string * string) :=
  [("div", "Block"); ("section", "Section"); ("header", "Block");
   ("footer", "Block"); ("main", "Block"); ("article", "Block");
   ("aside", "Block"); ("nav", "Block");
   ("h1", "Heading"); ("h2", "Heading"); ("h3", "Heading");
   ("h4", "Heading"); ("h5", "Heading"); ("h6", "Heading");
   ("p", "Paragraph"); ("a", "Link"); ("span", "Block"); ("img", "Image");
   ("ul", "List"); ("ol", "List"); ("li", "ListItem");
   ("strong", "Strong"); ("b", "Strong");
   ("em", "Emphasized"); ("i", "Emphasized");
   ("blockquote", "Blockquote"); ("figure", "Figure");
   ("figcaption", "Figcaption");
   ("button", "Block"); ("form", "Block"); ("input", "Block");
   ("label", "Block"); ("textarea", "Block"); ("select", "Block")].

(** [TAG_MAP[tagName]]: [TAG_MAP] is an object literal, so that a name
    it does not list is looked up among the properties every object
    inherits; [constructor] is the one of them a lower-cased tag name
    can be. *)
Definition TAG_MAP (tagName : string) : option nodeType :=
  match JSMap.get String.eqb TAG_MAP_entries tagName with
  | Some t => Some (TypeName t)
  | None =>
      if String.eqb tagName "constructor" then Some InheritedConstructor
      else None
  end.

Definition IGNORED_TAGS : list string :=
  ["html"; "head"; "body"; "meta"; "link"; "title"; "base"; "noscript";
   "template"; "slot"; "doctype"; "!doctype"; "colgroup"; "col";
   "caption"; "thead"; "tbody"; "tfoot"; "tr"; "th"; "td"; "br"; "hr";
   "wbr"; "area"; "map"; "track"; "source"; "param"; "object"; "embed";
   "portal"; "picture"].

(** [set.has(x)] *)
Definition setHas (set : list string) (x : string) : bool :=
  existsb (String.eqb x) set.

Definition STANDARD_ATTRS : list string :=
  ["class"; "id"; "style"; "src"; "alt"; "href"; "target"; "width";
   "height"; "loading"; "type"; "name"; "value"; "placeholder";
   "disabled"; "readonly"; "checked"; "selected"; "for"; "action";
   "method"; "enctype"; "rel"; "media"].

(* ================================================================== *)
(** * The converter *)
(* ================================================================== *)

(** The fields of a [WebflowConverter], and the count of the identifiers
    drawn so far.  [styleMap] holds, for a style identifier, the very
    object that sits in [styles]: a position in [styles], which only ever
    grows at its end.  [processedMerges] holds the keys
    [`${targetStyleId}:${selector}`]; an identifier is 36 characters
    without a colon, so that such a key is the pair of its two parts, and
    pairs are what is kept here. *)
Record Converter : Type := mkConverter {
  c_nodes : list WebflowNode;
  c_styles : list WebflowStyle;
  c_styleIdMap : list (string * ident);
  c_usedClasses : list string;
  c_complexRules : list (string * string);
  c_selectorToClassMap : list (string * string);
  c_styleMap : list (ident * nat);
  c_processedMerges : list (ident * string);
  c_uuids : nat
}.

Definition newConverter : Converter :=
  mkConverter [] [] [] [] [] [] [] [] 0.

(** [uuidv4()] *)
Definition uuidv4 (this : Converter) : ident * Converter :=
  (Uuid (c_uuids this),
   mkConverter (c_nodes this) (c_styles this) (c_styleIdMap this)
     (c_usedClasses this) (c_complexRules this) (c_selectorToClassMap this)
     (c_styleMap this) (c_processedMerges this) (S (c_uuids this))).

(** [this.nodes.push(node)] *)
Definition pushNode (node : WebflowNode) (this : Converter) : Converter :=
  mkConverter (c_nodes this ++ [node]) (c_styles this) (c_styleIdMap this)
    (c_usedClasses this) (c_complexRules this) (c_selectorToClassMap this)
    (c_styleMap this) (c_processedMerges this) (c_uuids this).

(** [this.usedClasses.add(className)] *)
Definition addUsedClass (className : string) (this : Converter) : Converter :=
  mkConverter (c_nodes this) (c_styles this) (c_styleIdMap this)
    (if setHas (c_usedClasses this) className then c_usedClasses this
     else c_usedClasses this ++ [className])
    (c_complexRules this) (c_selectorToClassMap this)
    (c_styleMap this) (c_processedMerges this) (c_uuids this).

(** ** [collectUsedClasses] *)

(** The classes of [element] itself, unless its tag is ignored. *)
Definition collectOwnClasses (el : element) (this : Converter) : Converter :=
  if negb (setHas IGNORED_TAGS (toLowerCase (tagName el)))
  then fold_left (fun this className => addUsedClass className this)
                 (classList el) this
  else this.

(** Whether the loop over [element.children] enters a child. *)
Definition entersChild (child : element) : bool :=
  let childTagName := toLowerCase (tagName child) in
  negb (String.eqb childTagName "script")
  && negb (String.eqb childTagName "svg")
  && negb (String.eqb childTagName "style").

Fixpoint collectUsedClasses (el : element) (this : Converter) : Converter :=
  match el with
  | Element _ _ _ _ cs =>
      (fix go (cs : list (childNode element)) (this : Converter)
         : Converter :=
         match cs with
         | [] => this
         | ElementNode child :: cs' =>
             if entersChild child
             then go cs' (collectUsedClasses child this)
             else go cs' this
         | _ :: cs' => go cs' this
         end) cs (collectOwnClasses el this)
  end.

(** The loop over [element.children], as a function of its own. *)
Fixpoint collectFromChildren (cs : list (childNode element))
         (this : Converter) : Converter :=
  match cs with
  | [] => this
  | ElementNode child :: cs' =>
      if entersChild child
      then collectFromChildren cs' (collectUsedClasses child this)
      else collectFromChildren cs' this
  | _ :: cs' => collectFromChildren cs' this
  end.

(** ** The nodes the converter builds *)

(** [createHtmlEmbed] *)
Definition createHtmlEmbed (content : string) (isScript : bool)
           (this : Converter) : WebflowNode * Converter :=
  let '(id, this) := uuidv4 this in
  (Node id (Some (TypeName "HtmlEmbed")) (Some "div") (Some []) (Some [])
        (Some (EmbedData content isScript)) None (Some content),
   this).

(** The text node [{ _id, text: true, v }] *)
Definition textNode (id : ident) (v : string) : WebflowNode :=
  Node id None None None None None (Some true) (Some v).

(** The generic container every wrapper and the empty root are. *)
Definition blockNode (id : ident) (childIds : list ident) : WebflowNode :=
  Node id (Some (TypeName "Block")) (Some "div") (Some []) (Some childIds)
       (Some (ElementData "div" "" [] PlainData)) None None.

(** The attributes that also go to [xattr]. *)
Definition isCustomAttr (name : string) : bool :=
  let attrName := toLowerCase name in
  startsWith attrName "data-" || startsWith attrName "aria-"
  || negb (setHas STANDARD_ATTRS attrName).

Definition xattrOf (el : element) : list attribute :=
  filter (fun a => isCustomAttr (fst a)) (attributes el).

(** The [attributes] of a DOM node: all of them but [class]. *)
Definition domAttributesOf (el : element) : list attribute :=
  filter (fun a => negb (String.eqb (toLowerCase (fst a)) "class"))
         (attributes el).

(** ** Resolution of the styles of an element *)

(** The identifiers of the literal classes: the loop over [el.classList]. *)
Definition classStyleIds (this : Converter) (el : element) : list ident :=
  flat_map (fun className =>
              match JSMap.get String.eqb (c_styleIdMap this) className with
              | Some styleId => if truthyId styleId then [styleId] else []
              | None => []
              end)
           (classList el).

(** [styleObj.styleLess += ` ${styleLess}`] on the object at position [i]
    of [styles]. *)
Fixpoint appendStyleLess (i : nat) (styleLess : string)
         (l : list WebflowStyle) : list WebflowStyle :=
  match l, i with
  | [], _ => []
  | s :: l', 0 =>
      Style (s_id s) (s_fake s) (s_type s) (s_name s) (s_namespace s)
            (s_comb s) (s_styleLess s ++ " " ++ styleLess) (s_variants s)
            (s_children s) (s_createdBy s) (s_origin s) (s_selector s)
      :: l'
  | s :: l', S i' => s :: appendStyleLess i' styleLess l'
  end.

Definition mergeKey_eqb (a b : ident * string) : bool :=
  ident_eqb (fst a) (fst b) && String.eqb (snd a) (snd b).

(** The merge strategy: the declarations of [selector] go to the first
    style the element has, once per key. *)
Definition mergeInto (targetStyleId : ident) (selector styleLess : string)
           (this : Converter) : Converter :=
  let mergeKey := (targetStyleId, selector) in
  if existsb (mergeKey_eqb mergeKey) (c_processedMerges this) then this
  else
    match JSMap.get ident_eqb (c_styleMap this) targetStyleId with
    | Some i =>
        mkConverter (c_nodes this)
          (appendStyleLess i styleLess (c_styles this))
          (c_styleIdMap this) (c_usedClasses this) (c_complexRules this)
          (c_selectorToClassMap this) (c_styleMap this)
          (c_processedMerges this ++ [mergeKey]) (c_uuids this)
    | None => this
    end.

(** The new-class strategy: the style generated for [selector] is added
    to the styles of the element. *)
Definition addGenerated (this : Converter) (selector : string)
           (classIds : list ident) : list ident :=
  match JSMap.get String.eqb (c_selectorToClassMap this) selector with
  | Some generatedName =>
      if truthy generatedName then
        match JSMap.get String.eqb (c_styleIdMap this) generatedName with
        | Some styleId =>
            if truthyId styleId
               && negb (existsb (ident_eqb styleId) classIds)
            then classIds ++ [styleId]
            else classIds
        | None => classIds
        end
      else classIds
  | None => classIds
  end.

(** The callback of [this.complexRules.forEach]. *)
Definition applyComplexRule (el : element)
           (acc : list ident * Converter) (rule : string * string)
  : list ident * Converter :=
  let '(classIds, this) := acc in
  let '(selector, styleLess) := rule in
  match matches el selector with
  | Some true =>
      match classIds with
      | targetStyleId :: _ =>
          (classIds, mergeInto targetStyleId selector styleLess this)
      | [] => (addGenerated this selector classIds, this)
      end
  | _ => acc
  end.

(** The style identifiers of an element, and the converter once the
    merges the element causes are made. *)
Definition resolveClassIds (el : element) (this : Converter)
  : list ident * Converter :=
  fold_left (applyComplexRule el) (c_complexRules this)
            (classStyleIds this el, this).

(** ** The [data] of a known element *)

Definition linkModeOf (href : string) : string :=
  if startsWith href "#" then "section"
  else if startsWith href "mailto:" then "email"
  else if startsWith href "tel:" then "phone"
  else "external".

(** The [data] of a node of type [type] for [el]; an image draws the
    identifier of its asset. *)
Definition dataOf (type : nodeType) (el : element) (this : Converter)
  : nodeData * Converter :=
  let tagName := toLowerCase (tagName el) in
  let xattr := xattrOf el in
  let elementId := getAttributeOr el "id" "" in
  if isType type "Image" then
    let '(assetId, this) := uuidv4 this in
    (ElementData tagName "" xattr
       (ImageData assetId
          (getAttributeOr el "src" "") (getAttributeOr el "alt" "")
          (getAttributeOr el "loading" "lazy")
          (getAttributeOr el "width" "auto")
          (getAttributeOr el "height" "auto")),
     this)
  else
    (ElementData tagName elementId xattr
       (if isType type "Section" then SectionData
        else if isType type "Link" then
          let href := getAttributeOr el "href" "#" in
          LinkData (linkModeOf href) href (getAttributeOr el "target" "_self")
        else if isType type "List" then ListData
        else if isType type "ListItem" then ListItemData
        else PlainData),
     this).

(** Whether a section has a [div] of class [container] among its
    children. *)
Definition hasBlockWrapper (el : element) : bool :=
  existsb (fun child =>
             String.eqb (toLowerCase (tagName child)) "div"
             && setHas (classList child) "container")
          (children el).

(** ** [processElement] *)

(** The body of [processElement(el)], which returns the identifier of
    the node made for [el], given its two loops over [el.childNodes]:
    [hoist], the loop of an ignored element, and [walk], the loop that
    fills the [children] of a node (written out four times in the
    source: in [createDomNode], twice for a section and once for any
    other element). *)
Definition processElementWith
           (hoist walk : Converter -> list ident * Converter)
           (el : element) (this : Converter) : ident * Converter :=
  let tagName := toLowerCase (tagName el) in
  if setHas IGNORED_TAGS tagName then
    let '(childIds, this) := hoist this in
    (hd EmptyId childIds, this)
  else if String.eqb tagName "script" then
    let '(embedNode, this) := createHtmlEmbed (outerHTML el) true this in
    (n_id embedNode, pushNode embedNode this)
  else if String.eqb tagName "svg" then
    let '(embedNode, this) := createHtmlEmbed (outerHTML el) false this in
    (n_id embedNode, pushNode embedNode this)
  else
    let '(classIds, this) := resolveClassIds el this in
    match TAG_MAP tagName with
    | None =>
        (* createDomNode *)
        let '(id, this) := uuidv4 this in
        let '(childIds, this) := walk this in
        let domNode :=
          Node id (Some (TypeName "DOM")) (Some "div") (Some classIds)
               (Some childIds)
               (Some (DomData tagName (domAttributesOf el) (xattrOf el)))
               None None in
        (id, pushNode domNode this)
    | Some type =>
        let '(id, this) := uuidv4 this in
        let '(data, this) := dataOf type el this in
        if isType type "Section" then
          if negb (hasBlockWrapper el)
             && negb (List.length (children el) =? 0)
          then
            let '(wrapperId, this) := uuidv4 this in
            let '(childIds, this) := walk this in
            let this := pushNode (blockNode wrapperId childIds) this in
            let node :=
              Node id (Some type) (Some tagName) (Some classIds)
                   (Some [wrapperId]) (Some data) None None in
            (id, pushNode node this)
          else
            let '(childIds, this) := walk this in
            let node :=
              Node id (Some type) (Some tagName) (Some classIds)
                   (Some childIds) (Some data) None None in
            (id, pushNode node this)
        else
          let '(childIds, this) := walk this in
          let node :=
            Node id (Some type) (Some tagName) (Some classIds)
                 (Some childIds) (Some data) None None in
          (id, pushNode node this)
    end.

Fixpoint processElement (el : element) (this : Converter)
  : ident * Converter :=
  match el with
  | Element _ _ _ _ cs =>
      processElementWith
        ((fix hoist (cs : list (childNode element)) (this : Converter)
            : list ident * Converter :=
            match cs with
            | [] => ([], this)
            | ElementNode child :: cs' =>
                let '(childId, this) := processElement child this in
                let '(childIds, this) := hoist cs' this in
                (if truthyId childId then childId :: childIds else childIds,
                 this)
            | _ :: cs' => hoist cs' this
            end) cs)
        ((fix walk (cs : list (childNode element)) (this : Converter)
            : list ident * Converter :=
            match cs with
            | [] => ([], this)
            | ElementNode child :: cs' =>
                let '(childId, this) := processElement child this in
                let '(childIds, this) := walk cs' this in
                (childId :: childIds, this)
            | TextNode text :: cs' =>
                if truthy (trim text) then
                  let '(textId, this) := uuidv4 this in
                  let this := pushNode (textNode textId (trim text)) this in
                  let '(childIds, this) := walk cs' this in
                  (textId :: childIds, this)
                else walk cs' this
            | OtherNode :: cs' => walk cs' this
            end) cs)
        el this
  end.

(** The two loops, as functions of their own. *)
Fixpoint hoistChildren (cs : list (childNode element)) (this : Converter)
  : list ident * Converter :=
  match cs with
  | [] => ([], this)
  | ElementNode child :: cs' =>
      let '(childId, this) := processElement child this in
      let '(childIds, this) := hoistChildren cs' this in
      (if truthyId childId then childId :: childIds else childIds, this)
  | _ :: cs' => hoistChildren cs' this
  end.

Fixpoint walkChildren (cs : list (childNode element)) (this : Converter)
  : list ident * Converter :=
  match cs with
  | [] => ([], this)
  | ElementNode child :: cs' =>
      let '(childId, this) := processElement child this in
      let '(childIds, this) := walkChildren cs' this in
      (childId :: childIds, this)
  | TextNode text :: cs' =>
      if truthy (trim text) then
        let '(textId, this) := uuidv4 this in
        let this := pushNode (textNode textId (trim text)) this in
        let '(childIds, this) := walkChildren cs' this in
        (textId :: childIds, this)
      else walkChildren cs' this
  | OtherNode :: cs' => walkChildren cs' this
  end.

(** ** [reorderNodesWithRootFirst] *)

(** [nodeMap]: the nodes by identifier, a later node taking the place of
    an earlier one of the same identifier. *)
Definition nodeMapOf (nodes : list WebflowNode)
  : list (ident * WebflowNode) :=
  fold_left (fun m node => JSMap.set ident_eqb m (n_id node) node) nodes [].

(** [addNodeAndChildren(id)], on the pair of [visited] and [result].
    [depth] bounds the depth of the recursion; a node is entered once, so
    the depth never exceeds the number of nodes (see [addNode_fuel]). *)
Fixpoint addNodeAndChildren (depth : nat)
         (nodeMap : list (ident * WebflowNode)) (id : ident)
         (acc : list ident * list WebflowNode)
  : list ident * list WebflowNode :=
  match depth with
  | 0 => acc
  | S depth' =>
      let '(visited, result) := acc in
      if existsb (ident_eqb id) visited then acc
      else
        let visited := (visited ++ [id])%list in
        match JSMap.get ident_eqb nodeMap id with
        | None => (visited, result)
        | Some node =>
            let result := (result ++ [node])%list in
            match n_children node with
            | Some childIds =>
                fold_left
                  (fun acc childId =>
                     addNodeAndChildren depth' nodeMap childId acc)
                  childIds (visited, result)
            | None => (visited, result)
            end
        end
  end.

Definition reorderNodesWithRootFirst (this : Converter) (rootId : ident)
  : list WebflowNode :=
  let nodeMap := nodeMapOf (c_nodes this) in
  let '(visited, result) :=
    addNodeAndChildren (S (List.length (c_nodes this))) nodeMap rootId
                       ([], []) in
  (result ++
   filter (fun node => negb (existsb (ident_eqb (n_id node)) visited))
          (c_nodes this))%list.

(** ** [convert] *)

(** The callback of [inlineStyles.forEach]: an inline rule is set, or
    appended to the rule the selector already has. *)
Definition mergeInlineRule (parsedStyles : list (string * string))
           (rule : string * string) : list (string * string) :=
  let '(className, styleLess) := rule in
  match JSMap.get String.eqb parsedStyles className with
  | None => JSMap.set String.eqb parsedStyles className styleLess
  | Some external =>
      JSMap.set String.eqb parsedStyles className
                (external ++ " " ++ styleLess)
  end.

(** [parsedStyles] once the style elements of the markup are merged in. *)
Definition effectiveStyles (doc : document) (css : string)
  : list (string * string) :=
  fold_left
    (fun parsedStyles styleTag =>
       fold_left mergeInlineRule
                 (parseCssToStyleLess (textContent styleTag)) parsedStyles)
    (querySelectorAllStyle doc)
    (parseCssToStyleLess css).

Definition isSimpleClass (selector : string) : bool :=
  startsWith selector "." && negb (includes selector " ")
  && negb (includes selector ">") && negb (includes selector ":")
  && negb (includes selector "[").

(** The style object both branches build. *)
Definition newStyle (styleId : ident) (name styleLess : string)
  : WebflowStyle :=
  Style styleId false "class" name "" "" styleLess [] []
        "61f14380242f626709f24c30" None None.

(** [this.styleIdMap.set(name, styleId); this.styles.push(newStyle);
    this.styleMap.set(styleId, newStyle)] *)
Definition addStyle (name styleLess : string) (this : Converter)
  : Converter :=
  let '(styleId, this) := uuidv4 this in
  mkConverter (c_nodes this)
    (c_styles this ++ [newStyle styleId name styleLess])
    (JSMap.set String.eqb (c_styleIdMap this) name styleId)
    (c_usedClasses this) (c_complexRules this) (c_selectorToClassMap this)
    (JSMap.set ident_eqb (c_styleMap this) styleId
               (List.length (c_styles this)))
    (c_processedMerges this) (c_uuids this).

(** [this.complexRules.set(selector, styleLess);
    this.selectorToClassMap.set(selector, generatedName)] *)
Definition addComplexRule (selector styleLess generatedName : string)
           (this : Converter) : Converter :=
  mkConverter (c_nodes this) (c_styles this) (c_styleIdMap this)
    (c_usedClasses this)
    (JSMap.set String.eqb (c_complexRules this) selector styleLess)
    (JSMap.set String.eqb (c_selectorToClassMap this) selector generatedName)
    (c_styleMap this) (c_processedMerges this) (c_uuids this).

(** [`${selector} { ${styleLess} }`] *)
Definition unusedRuleText (selector styleLess : string) : string :=
  selector ++ " { " ++ styleLess ++ " }".

(** The callback of [parsedStyles.forEach], on the converter and
    [unusedCssRules]. *)
Definition processParsedStyle (acc : Converter * list string)
           (rule : string * string) : Converter * list string :=
  let '(this, unusedCssRules) := acc in
  let '(selector, styleLess) := rule in
  if isSimpleClass selector then
    let className := substringFrom 1 selector in
    if setHas (c_usedClasses this) className
    then (addStyle className styleLess this, unusedCssRules)
    else (this, (unusedCssRules ++ [unusedRuleText selector styleLess])%list)
  else
    let generatedName := generateClassNameFromSelector selector in
    let this := addComplexRule selector styleLess generatedName this in
    (addStyle generatedName styleLess this, unusedCssRules).

(** The loop over [doc.body.children]. *)
Fixpoint processTopLevel (els : list element) (this : Converter)
  : list ident * Converter :=
  match els with
  | [] => ([], this)
  | child :: els' =>
      let '(childId, this) := processElement child this in
      let '(childIds, this) := processTopLevel els' this in
      (if truthyId childId then childId :: childIds else childIds, this)
  end.

(** [advancedCssParts] *)
Definition advancedCssPartsOf (advancedCss : string)
           (unusedCssRules : list string) : list string :=
  ((if truthy advancedCss then [advancedCss] else [])
   ++ (match unusedCssRules with
       | [] => []
       | _ => [(nl ++ "/* Unused Classes */")%string;
               join nl unusedCssRules]
       end))%list.

(** [`<style>\n${advancedCssParts.join('\n')}\n</style>`] *)
Definition advancedCssContentOf (advancedCssParts : list string) : string :=
  "<style>" ++ nl ++ join nl advancedCssParts ++ nl ++ "</style>".

(** The loop [parsedStyles.forEach], run on the converter that has
    collected the classes used in the markup: the converter with its
    styles, and [unusedCssRules]. *)
Definition materializeStyles (doc : document)
           (parsedStyles : list (string * string))
  : Converter * list string :=
  fold_left processParsedStyle parsedStyles
            (collectUsedClasses (body doc) newConverter, []).

(** Everything [convert] has at hand when it comes to choose the root. *)
Record Walked : Type := mkWalked {
  w_this : Converter;
  w_topLevelChildren : list ident;
  w_elementIds : list ident;       (* what [processElement] gave *)
  w_embed : option WebflowNode     (* the node of the relocated CSS *)
}.

(** [convert] up to the choice of the root: the stylesheet is read, the
    markup walked, the relocated CSS embedded. *)
Definition walkDocument (doc : document) (css : string) : Walked :=
  let parsedStyles := effectiveStyles doc css in
  let doc := removeStyleElements doc in
  let '(this, unusedCssRules) := materializeStyles doc parsedStyles in
  let combinedCss :=
    css ++ nl ++ join nl (map textContent (querySelectorAllStyle doc)) in
  let advancedCss := extractAdvancedCss combinedCss in
  let '(elementIds, this) := processTopLevel (children (body doc)) this in
  let advancedCssParts := advancedCssPartsOf advancedCss unusedCssRules in
  match advancedCssParts with
  | [] => mkWalked this elementIds elementIds None
  | _ =>
      let '(embedNode, this) :=
        createHtmlEmbed (advancedCssContentOf advancedCssParts) false this in
      mkWalked (pushNode embedNode this)
               (elementIds ++ [n_id embedNode]) elementIds (Some embedNode)
  end.

(** The choice of the root: the converter with the root among its nodes,
    and the identifier of the root. *)
Definition chooseRoot (this : Converter) (topLevelChildren : list ident)
  : Converter * ident :=
  match topLevelChildren with
  | [] =>
      let '(emptyId, this) := uuidv4 this in
      (pushNode (blockNode emptyId []) this, emptyId)
  | [only] => (this, only)
  | _ =>
      let '(wrapperId, this) := uuidv4 this in
      (pushNode (blockNode wrapperId topLevelChildren) this, wrapperId)
  end.

(** The converter when [convert] returns, and the identifier of the
    root. *)
Definition convertThis (doc : document) (css : string) : Converter * ident :=
  let w := walkDocument doc css in
  chooseRoot (w_this w) (w_topLevelChildren w).

(** [convert(html, css)], for the document [doc] that [html] parses to. *)
Definition convert (doc : document) (css : string) : WebflowClipboardData :=
  let '(this, rootNodeId) := convertThis doc css in
  ClipboardData "@webflow/XscpData"
    (Payload (reorderNodesWithRootFirst this rootNodeId) (c_styles this)).

(* ================================================================== *)
(** * Vocabulary of the specification *)
(* ================================================================== *)

(** A value that holds one of the opaque-function markers. *)
Definition hasOpaqueMarker (value : string) : bool :=
  includes value "var(--" || includes value "calc("
  || includes value "clamp(" || includes value "min("
  || includes value "max(".

(** The first, respectively the last, character of a non-empty string is
    not white space. *)
Fixpoint endsSolid (m : string) : bool :=
  match m with
  | EmptyString => false
  | String a EmptyString => negb (isSpace a)
  | String _ m' => endsSolid m'
  end.

Definition startsSolid (m : string) : bool :=
  match m with
  | EmptyString => false
  | String a _ => negb (isSpace a)
  end.


(** The child identifiers and the style identifiers a node lists. *)
Definition childIdsOf (n : WebflowNode) : list ident :=
  match n_children n with Some l => l | None => [] end.

Definition classIdsOf (n : WebflowNode) : list ident :=
  match n_classes n with Some l => l | None => [] end.

(** The node list of the document [convert] returns, and its first
    node. *)
Definition outputNodes (doc : document) (css : string) : list WebflowNode :=
  nodes (payload (convert doc css)).

Definition outputStyles (doc : document) (css : string)
  : list WebflowStyle :=
  styles (payload (convert doc css)).

Definition outputRoot (doc : document) (css : string) : option WebflowNode :=
  hd_error (outputNodes doc css).

(** [id] is the identifier of a node of [l]. *)
Definition resolvesIn (l : list WebflowNode) (id : ident) : Prop :=
  exists n, In n l /\ n_id n = id.

(** [id] is reached from [from] along child references in [l]. *)
Inductive reachable (l : list WebflowNode) (from : ident) : ident -> Prop :=
| reach_here : reachable l from from
| reach_child : forall n id child,
    reachable l from id -> In n l -> n_id n = id ->
    In child (childIdsOf n) -> reachable l from child.

(** The elements of a tree: an element and the elements below it, in
    document order. *)
Fixpoint allElements (el : element) : list element :=
  match el with
  | Element _ _ _ _ cs =>
      el :: (fix go (cs : list (childNode element)) : list element :=
               match cs with
               | [] => []
               | ElementNode e :: cs' => (allElements e ++ go cs')%list
               | _ :: cs' => go cs'
               end) cs
  end.

(** ** Markup used in the examples *)

(** Elements of the examples: no selector matches them, and
    [outerHTML], which is read on [script] and [svg] elements only, is
    left empty. *)
Definition plain (tag : string) (attrs : list (string * string))
           (cs : list (childNode element)) : childNode element :=
  ElementNode (Element tag attrs (fun _ => Some false) "" cs).

Definition documentOf (headNodes bodyNodes : list (childNode element))
  : document :=
  Document (Element "HEAD" [] (fun _ => Some false) "" headNodes)
           (Element "BODY" [] (fun _ => Some false) "" bodyNodes).

(** The empty markup. *)
Definition emptyMarkup : document := documentOf [] [].

(** [<div><br></div>] *)
Definition divWithBreak : document :=
  documentOf [] [plain "DIV" [] [plain "BR" [] []]].

(** [<table><tr><td><p>Text</p></td></tr></table>], with the [tbody] the
    parser adds. *)
Definition tableWithParagraph : document :=
  documentOf []
    [plain "TABLE" []
       [plain "TBODY" []
          [plain "TR" []
             [plain "TD" [] [plain "P" [] [TextNode "Text"]]]]]].

(** [<table><tr><td><p>A</p><p>B</p></td></tr></table>] *)
Definition cellWithTwoParagraphs : document :=
  documentOf []
    [plain "TABLE" []
       [plain "TBODY" []
          [plain "TR" []
             [plain "TD" []
                [plain "P" [] [TextNode "A"];
                 plain "P" [] [TextNode "B"]]]]]].

(** [<style>@media (max-width: 600px) { .a { color: red; } }</style>
     <div class="a"></div>]: the parser puts the leading style element in
    the head. *)
Definition inlineMediaCss : string :=
  "@media (max-width: 600px) { .a { color: red; } }".

Definition markupWithInlineMedia : document :=
  documentOf [plain "STYLE" [] [TextNode inlineMediaCss]]
             [plain "DIV" [("class", "a")] []].

(** [<div class="custom-styled-p"></div>] *)
Definition divNamedLikeGenerated : document :=
  documentOf [] [plain "DIV" [("class", "custom-styled-p")] []].

(** ** The single root, as the claim has it and as the code has it *)

(** The three cases over a list [ids] of top-level identifiers. *)
Definition singleRootOver (ids : list ident) (root : option WebflowNode)
  : Prop :=
  match ids with
  | [] => exists id, root = Some (blockNode id [])
  | [only] => exists n, root = Some n /\ n_id n = only
  | _ => exists id, root = Some (blockNode id ids)
  end.

(** A property of the elements among some child nodes. *)
Definition onElement (P : element -> Prop) (c : childNode element) : Prop :=
  match c with
  | ElementNode e => P e
  | _ => True
  end.

(** [b] has the nodes of [a] and, after them, possibly more. *)
Definition extendsNodes (a b : Converter) : Prop :=
  exists added, c_nodes b = (c_nodes a ++ added)%list.

(** [b] has the tables of [a]: the maps the walk only reads, and styles
    of the same identifiers and names. *)
Definition sameTables (a b : Converter) : Prop :=
  c_styleIdMap b = c_styleIdMap a
  /\ c_usedClasses b = c_usedClasses a
  /\ c_complexRules b = c_complexRules a
  /\ c_selectorToClassMap b = c_selectorToClassMap a
  /\ c_styleMap b = c_styleMap a
  /\ map s_id (c_styles b) = map s_id (c_styles a)
  /\ map s_name (c_styles b) = map s_name (c_styles a).

(** The tag the element of a node had in the markup. *)
Definition originalTag (n : WebflowNode) : option string :=
  match n_data n with
  | Some (ElementData tag _ _ _) => Some tag
  | Some (DomData tag _ _) => Some tag
  | _ => None
  end.

(** The nodes the walk over [root] builds with the tables of [tables]:
    text nodes, embeds, wrappers, and for an element that is not ignored
    a node with the styles resolved for that element. *)
Inductive builtNode (tables : Converter) (root : element) (n : WebflowNode)
  : Prop :=
| built_text : forall id v, n = textNode id v -> builtNode tables root n
| built_embed : forall id content isScript,
    n = Node id (Some (TypeName "HtmlEmbed")) (Some "div") (Some [])
             (Some []) (Some (EmbedData content isScript)) None
             (Some content) ->
    builtNode tables root n
| built_block : forall id childIds,
    n = blockNode id childIds -> builtNode tables root n
| built_for : forall el this,
    In el (allElements root) ->
    sameTables tables this ->
    setHas IGNORED_TAGS (toLowerCase (tagName el)) = false ->
    n_classes n = Some (fst (resolveClassIds el this)) ->
    originalTag n = Some (toLowerCase (tagName el)) ->
    n_tag n = Some "div" \/ n_tag n = Some (toLowerCase (tagName el)) ->
    builtNode tables root n.

(** From [a] to [b] the tables stay those of [tables], and the nodes
    added all satisfy [P]. *)
Definition grows (tables : Converter) (P : WebflowNode -> Prop)
           (a b : Converter) : Prop :=
  sameTables tables b
  /\ exists added, c_nodes b = (c_nodes a ++ added)%list /\ Forall P added.

(** [processElement] on each element of a list, in order. *)
Fixpoint visitElements (els : list element) (this : Converter)
  : list ident * Converter :=
  match els with
  | [] => ([], this)
  | el :: els' =>
      let '(id, this) := processElement el this in
      let '(ids, this) := visitElements els' this in
      (id :: ids, this)
  end.

(** The converter when the walk starts: the classes used are collected
    and the styles made. *)
Definition styledConverter (doc : document) (css : string) : Converter :=
  fst (materializeStyles (removeStyleElements doc) (effectiveStyles doc css)).

(** [unusedCssRules] *)
Definition unusedRules (doc : document) (css : string) : list string :=
  snd (materializeStyles (removeStyleElements doc) (effectiveStyles doc css)).

(** The body of the markup as it is walked. *)
Definition walkedBody (doc : document) : element :=
  body (removeStyleElements doc).

(** ** Style merging *)

(** The declaration string [complexRules] has for a selector. *)
Definition ruleTextOf (rules : list (string * string)) (selector : string)
  : string :=
  match JSMap.get String.eqb rules selector with
  | Some styleLess => styleLess
  | None => ""
  end.

(** What the merges of [merges] append to the style [id]: for each key
    whose target is [id], in order, a blank and the declaration string of
    the selector of the key. *)
Fixpoint mergedSuffix (rules : list (string * string))
         (merges : list (ident * string)) (id : ident) : string :=
  match merges with
  | [] => ""
  | (target, selector) :: merges' =>
      (if ident_eqb target id then " " ++ ruleTextOf rules selector else "")
        ++ mergedSuffix rules merges' id
  end.

(** The style [s] is the style [s0] with the merges of [merges] made. *)
Definition mergedWith (rules : list (string * string))
           (merges : list (ident * string)) (s s0 : WebflowStyle) : Prop :=
  s_id s = s_id s0 /\ s_name s = s_name s0
  /\ s_styleLess s = s_styleLess s0 ++ mergedSuffix rules merges (s_id s).

Definition mergedFrom (this : Converter) : WebflowStyle -> WebflowStyle -> Prop :=
  mergedWith (c_complexRules this) (c_processedMerges this).

(** The converter once the styles are made. *)
Definition stylesMade (this : Converter) : Prop :=
  (forall s, In s (c_styles this) ->
             exists k, s_id s = Uuid k /\ k < c_uuids this)
  /\ NoDup (map s_id (c_styles this))
  /\ (forall t i, JSMap.get ident_eqb (c_styleMap this) t = Some i ->
                  exists s, nth_error (c_styles this) i = Some s
                            /\ s_id s = t)
  /\ NoDup (map fst (c_complexRules this))
  /\ c_processedMerges this = []
  /\ (forall name id,
         JSMap.get String.eqb (c_styleIdMap this) name = Some id ->
         exists s, In s (c_styles this) /\ s_id s = id /\ s_name s = name)
  /\ (forall selector name,
         JSMap.get String.eqb (c_selectorToClassMap this) selector = Some name
         -> name = generateClassNameFromSelector selector).

(** The converter along the walk, [styles0] being the styles made from
    the stylesheet. *)
Definition mergesSound (styles0 : list WebflowStyle) (this : Converter)
  : Prop :=
  NoDup (c_processedMerges this)
  /\ NoDup (map fst (c_complexRules this))
  /\ NoDup (map s_id styles0)
  /\ (forall t i, JSMap.get ident_eqb (c_styleMap this) t = Some i ->
                  exists s0, nth_error styles0 i = Some s0 /\ s_id s0 = t)
  /\ Forall2 (mergedFrom this) (c_styles this) styles0.

(** [<div><p class="x"></p><p class="x"></p></div>], where both
    paragraphs match the selector [div p] and nothing else does. *)
Definition paragraphOfDiv : childNode element :=
  ElementNode (Element "P" [("class", "x")]
                       (fun selector => Some (String.eqb selector "div p"))
                       "" []).

Definition twoMatchingParagraphs : document :=
  documentOf [] [plain "DIV" [] [paragraphOfDiv; paragraphOfDiv]].

(** ** Relocated CSS *)

(** [advancedCssParts] for a document and a stylesheet. *)
Definition relocatedCss (doc : document) (css : string) : list string :=
  advancedCssPartsOf
    (extractAdvancedCss
       (css ++ nl ++
        join nl (map textContent
                     (querySelectorAllStyle (removeStyleElements doc)))))
    (unusedRules doc css).

(** Where the name of a style comes from: a simple class selector whose
    class is used, or another selector, which gives the generated name. *)
Definition styleNameFrom (used : list string)
           (parsedStyles : list (string * string)) (name : string) : Prop :=
  exists selector styleLess,
    In (selector, styleLess) parsedStyles
    /\ ((isSimpleClass selector = true
         /\ name = substringFrom 1 selector
         /\ setHas used name = true)
        \/ (isSimpleClass selector = false
            /\ name = generateClassNameFromSelector selector)).

(** [b] is [a] but for the classes used. *)
Definition onlyUsedClassesDiffer (a b : Converter) : Prop :=
  c_nodes b = c_nodes a /\ c_styles b = c_styles a
  /\ c_styleIdMap b = c_styleIdMap a
  /\ c_complexRules b = c_complexRules a
  /\ c_selectorToClassMap b = c_selectorToClassMap a
  /\ c_styleMap b = c_styleMap a
  /\ c_processedMerges b = c_processedMerges a
  /\ c_uuids b = c_uuids a.

(** Where a style identifier of an element comes from: a class of the
    element, or a rule of [complexRules] that the element matches. *)
Definition styleSource (tables : Converter) (el : element) (id : ident)
  : Prop :=
  (exists className,
      In className (classList el)
      /\ JSMap.get String.eqb (c_styleIdMap tables) className = Some id)
  \/ (exists selector styleLess generatedName,
         In (selector, styleLess) (c_complexRules tables)
         /\ matches el selector = Some true
         /\ JSMap.get String.eqb (c_selectorToClassMap tables) selector
            = Some generatedName
         /\ JSMap.get String.eqb (c_styleIdMap tables) generatedName
            = Some id).

(** The number of identifiers of [nodeMap] that are not in [visited]. *)
Definition unvisited (nodeMap : list (ident * WebflowNode))
           (visited : list ident) : nat :=
  List.length
    (filter (fun k => negb (existsb (ident_eqb k) visited))
            (map fst nodeMap)).

(* ================================================================== *)
(** * Vocabulary of the further properties *)
(* ================================================================== *)

(** ** The nodes a stretch of the walk adds *)

(** A node made while the count of identifiers went from [lo] to [hi]:
    its identifier was drawn in that stretch; a child it lists is the
    empty string or a node of [pool] whose identifier was drawn later; a
    text node holds a trimmed text that is not empty. *)
Definition madeNode (lo hi : nat) (pool : list WebflowNode)
           (n : WebflowNode) : Prop :=
  exists j,
    n_id n = Uuid j /\ lo <= j < hi
    /\ (forall c, In c (childIdsOf n) ->
                  c = EmptyId
                  \/ exists k, c = Uuid k /\ j < k /\ resolvesIn pool c)
    /\ (n_text n = Some true ->
        exists v, n_v n = Some v /\ truthy v = true /\ trim v = v).

(** From [a] to [b] the nodes of [added] were pushed, in that order. *)
Definition adds (a b : Converter) (added : list WebflowNode) : Prop :=
  c_nodes b = (c_nodes a ++ added)%list
  /\ c_uuids a <= c_uuids b
  /\ Forall (madeNode (c_uuids a) (c_uuids b) added) added
  /\ NoDup (map n_id added).

(** An identifier handed to a parent: empty, or of a node of [pool]. *)
Definition handedFrom (pool : list WebflowNode) (id : ident) : Prop :=
  id = EmptyId \/ resolvesIn pool id.

(** ** Descent along child references *)

(** [c] is a child, a grandchild, ... of the node [a] in [l]. *)
Inductive descends (l : list WebflowNode) : ident -> ident -> Prop :=
| descends_child : forall n c,
    In n l -> In c (childIdsOf n) -> descends l (n_id n) c
| descends_more : forall a n c,
    descends l a (n_id n) -> In n l -> In c (childIdsOf n) ->
    descends l a c.

(** Every child reference of [l] that is not empty goes up in [rank]. *)
Definition ranked (rank : ident -> nat) (l : list WebflowNode) : Prop :=
  forall n, In n l ->
    n_id n <> EmptyId
    /\ forall c, In c (childIdsOf n) -> c <> EmptyId ->
                 rank (n_id n) < rank c.

(** The rank of an identifier when [top] is the identifier the root
    wrapper was given: the wrapper is below every other node, the others
    are in the order in which their identifiers were drawn. *)
Definition rankUnder (top : nat) (id : ident) : nat :=
  match id with
  | EmptyId => 0
  | Uuid k => if k =? top then 0 else S k
  end.

(** ** The styles made from the stylesheet *)

(** The classes [collectUsedClasses] finds in the markup. *)
Definition usedClassesOf (doc : document) : list string :=
  c_usedClasses (collectUsedClasses (walkedBody doc) newConverter).

(** The name of the style a rule of the stylesheet gives, if it gives
    one. *)
Definition styleNameOf (used : list string) (rule : string * string)
  : list string :=
  if isSimpleClass (fst rule) then
    if setHas used (substringFrom 1 (fst rule))
    then [substringFrom 1 (fst rule)]
    else []
  else [generateClassNameFromSelector (fst rule)].

(** The line of [unusedCssRules] a rule of the stylesheet gives, if it
    gives one. *)
Definition unusedLineOf (used : list string) (rule : string * string)
  : list string :=
  if isSimpleClass (fst rule)
     && negb (setHas used (substringFrom 1 (fst rule)))
  then [unusedRuleText (fst rule) (snd rule)]
  else [].

(** ** The normalized stylesheet *)

(** A rule as the normalizer keeps it: the selector is trimmed and is not
    an at-rule, the declaration string is not empty. *)
Definition cleanRule (rule : string * string) : Prop :=
  trim (fst rule) = fst rule
  /\ startsWith (fst rule) "@" = false
  /\ truthy (snd rule) = true.

(** ** Values of a shorthand *)

(** A string without white space. *)
Fixpoint solidChars (s : string) : bool :=
  match s with
  | EmptyString => true
  | String c s' => negb (isSpace c) && solidChars s'
  end.

(** One value of a declaration: not empty, without white space. *)
Definition isValue (s : string) : bool := truthy s && solidChars s.

(** The four long-hand declarations of a box-model shorthand. *)
Definition fourSides (prop top right bottom left : string) : string :=
  prop ++ "-top: " ++ top ++ "; " ++
  prop ++ "-right: " ++ right ++ "; " ++
  prop ++ "-bottom: " ++ bottom ++ "; " ++
  prop ++ "-left: " ++ left ++ ";".

(** ** Selectors named after a tag *)

(** The selectors that the test of [generateClassNameFromSelector]
    accepts: one character out of [h] and [1] to [6], or one of twelve
    tag names. *)
Definition commonTags : list string :=
  ["p"; "div"; "span"; "a"; "button"; "input"; "section"; "header";
   "footer"; "main"; "aside"; "nav"].

Definition isHeadingChar (a : ascii) : bool :=
  Ascii.eqb a "h" || ((49 <=? nat_of_ascii a) && (nat_of_ascii a <=? 54)).

Definition isCommonTag (sel : string) : bool :=
  match sel with
  | String a EmptyString =>
      isHeadingChar a || existsb (String.eqb sel) commonTags
  | _ => existsb (String.eqb sel) commonTags
  end.

(** A regular expression between [^] and [$]. *)
Definition wholeOf (r : regex) : regex := seqs [Bol; r; Eol].

(** The regular expression matches at index 0. *)
Definition matchesAtStart (r : regex) (s : string) : bool :=
  match matchAt r 0 s with Some _ => true | None => false end.

(** The subject after the prefix [w], if it starts with [w]. *)
Fixpoint dropPrefix (w s : string) : option string :=
  match w with
  | EmptyString => Some s
  | String a w' =>
      match s with
      | String b s' => if Ascii.eqb a b then dropPrefix w' s' else None
      | EmptyString => None
      end
  end.

(** A regular expression that matches at the start of the subject only. *)
Definition anchored (r : regex) : Prop :=
  forall i s, matchAt r (S i) s = None.

(** ** The elements whose classes count as used *)

(** [visits el d]: [collectUsedClasses], called on [el], is called on
    [d]; it passes over the [script], [svg] and [style] children of an
    element and what is below them. *)
Inductive visits : element -> element -> Prop :=
| visits_self el : visits el el
| visits_child el c d :
    In (ElementNode c) (childNodes el) ->
    entersChild c = true ->
    visits c d ->
    visits el d.

(** The classes of [d] count: its tag is not ignored. *)
Definition countsClassesOf (d : element) (x : string) : Prop :=
  setHas IGNORED_TAGS (toLowerCase (tagName d)) = false
  /\ In x (classList d).

(** ** Elements that yield no node *)

(** An ignored element all of whose element children yield nothing. *)
Fixpoint yieldsNothing (el : element) : bool :=
  match el with
  | Element t _ _ _ cs =>
      setHas IGNORED_TAGS (toLowerCase t)
      && (fix none (cs : list (childNode element)) : bool :=
            match cs with
            | [] => true
            | ElementNode c :: cs' => yieldsNothing c && none cs'
            | _ :: cs' => none cs'
            end) cs
  end.

Fixpoint noneYields (cs : list (childNode element)) : bool :=
  match cs with
  | [] => true
  | ElementNode c :: cs' => yieldsNothing c && noneYields cs'
  | _ :: cs' => noneYields cs'
  end.

(** ** Hoisting *)

(** The identifiers that are not empty among those the element children
    of [el] return, in document order, when [el] is processed in the
    state [this]. *)
Definition keptChildIds (el : element) (this : Converter) : list ident :=
  filter truthyId (fst (visitElements (children el) this)).

(* ================================================================== *)
(** * Strings *)
(* ================================================================== *)

Section StringFacts.

Lemma append_assoc (a b c : string) : (a ++ b) ++ c = a ++ b ++ c.
Proof. induction a; simpl; congruence. Qed.

Lemma append_empty_r (a : string) : a ++ "" = a.
Proof. induction a; simpl; congruence. Qed.

Lemma trimStart_idem s : trimStart (trimStart s) = trimStart s.
Proof.
  induction s as [|c s IH]; simpl; auto.
  destruct (isSpace c) eqn:Ec; auto. simpl. now rewrite Ec.
Qed.

Lemma trimEnd_idem s : trimEnd (trimEnd s) = trimEnd s.
Proof.
  induction s as [|c s IH]; simpl; auto.
  destruct (trimEnd s) eqn:E.
  - destruct (isSpace c) eqn:Ec; simpl; auto. now rewrite Ec.
  - simpl in *. now rewrite IH.
Qed.

Lemma trimStart_trimEnd s : trimStart (trimEnd s) = trimEnd (trimStart s).
Proof.
  induction s as [|c s IH]; simpl; auto.
  destruct (isSpace c) eqn:Ec.
  - destruct (trimEnd s) eqn:E.
    + simpl. now rewrite <- IH.
    + rewrite <- IH. simpl. now rewrite Ec.
  - destruct (trimEnd s) eqn:E; simpl; rewrite Ec; simpl; rewrite ?E; auto.
Qed.

Lemma trim_idem s : trim (trim s) = trim s.
Proof.
  unfold trim.
  now rewrite trimStart_trimEnd, trimStart_idem, trimEnd_idem.
Qed.

Lemma trim_trimStart s : trim (trimStart s) = trim s.
Proof. unfold trim. now rewrite trimStart_idem. Qed.

Lemma trim_trimEnd s : trim (trimEnd s) = trim s.
Proof. unfold trim. now rewrite trimStart_trimEnd, trimEnd_idem. Qed.

(** A separator that is not white space stops both trims. *)
Lemma trimStart_sep name c rest :
  isSpace c = false ->
  trimStart (name ++ String c rest) = trimStart name ++ String c rest.
Proof.
  intros Hc. induction name as [|a name IH]; simpl.
  - now rewrite Hc.
  - destruct (isSpace a); auto.
Qed.

Lemma trimEnd_nonempty_sep name c rest :
  isSpace c = false -> trimEnd (name ++ String c rest) <> "".
Proof.
  intros Hc. induction name as [|a name IH]; simpl.
  - destruct (trimEnd rest); [now rewrite Hc|discriminate].
  - destruct (trimEnd (name ++ String c rest)); [contradiction|discriminate].
Qed.

Lemma trimEnd_cons_nonempty a s :
  trimEnd s <> "" -> trimEnd (String a s) = String a (trimEnd s).
Proof. simpl. destruct (trimEnd s); [contradiction|reflexivity]. Qed.

Lemma trimEnd_sep name c rest :
  isSpace c = false ->
  trimEnd (name ++ String c rest) = name ++ String c (trimEnd rest).
Proof.
  intros Hc. induction name as [|a name IH].
  - simpl. destruct (trimEnd rest); [now rewrite Hc|reflexivity].
  - change (String a name ++ String c rest)
      with (String a (name ++ String c rest)).
    rewrite trimEnd_cons_nonempty by now apply trimEnd_nonempty_sep.
    now rewrite IH.
Qed.

Lemma indexOf_trimStart s c : indexOf s c = None -> indexOf (trimStart s) c = None.
Proof.
  induction s as [|a s IH]; simpl; auto.
  destruct (Ascii.eqb a c) eqn:E; [discriminate|].
  destruct (indexOf s c) eqn:Ei; [discriminate|]. intros _.
  destruct (isSpace a); auto. simpl. now rewrite E, Ei.
Qed.

Lemma indexOf_sep name c rest :
  indexOf name c = None ->
  indexOf (name ++ String c rest) c = Some (String.length name).
Proof.
  induction name as [|a name IH]; simpl.
  - now rewrite Ascii.eqb_refl.
  - destruct (Ascii.eqb a c); [discriminate|].
    destruct (indexOf name c); [discriminate|]. intros _.
    now rewrite IH.
Qed.

Lemma substringTo_append a b : substringTo (String.length a) (a ++ b) = a.
Proof. induction a; simpl; [now destruct b|congruence]. Qed.

Lemma substringFrom_append a b : substringFrom (String.length a) (a ++ b) = b.
Proof. induction a; simpl; auto. Qed.

Lemma substringFrom_sep a c b :
  substringFrom (String.length a + 1) (a ++ String c b) = b.
Proof. induction a; simpl; auto. Qed.

(** ** [includes] and the trims *)

Lemma includes_trimStart s m :
  startsSolid m = true -> includes (trimStart s) m = includes s m.
Proof.
  destruct m as [|a m]; [discriminate|]. simpl. intros Ha.
  induction s as [|c s IH]; auto.
  simpl trimStart. destruct (isSpace c) eqn:Ec; auto.
  rewrite IH. simpl.
  destruct (Ascii.eqb a c) eqn:E; auto.
  apply Ascii.eqb_eq in E. subst. now rewrite Ec in Ha.
Qed.

Lemma startsWith_trimEnd s m :
  endsSolid m = true -> startsWith (trimEnd s) m = startsWith s m.
Proof.
  revert m. induction s as [|c s IH]; intros m Hm; auto.
  destruct m as [|a m]; [discriminate|].
  simpl trimEnd. destruct (trimEnd s) eqn:E.
  - destruct (isSpace c) eqn:Ec.
    + simpl. destruct (Ascii.eqb a c) eqn:Eac; auto.
      apply Ascii.eqb_eq in Eac. subst.
      destruct m as [|b m]; [simpl in Hm; now rewrite Ec in Hm|].
      simpl. specialize (IH (String b m) Hm). simpl in IH.
      destruct s; auto.
    + simpl. destruct (Ascii.eqb a c); auto.
      destruct m as [|b m]; [now destruct s|].
      specialize (IH (String b m) Hm). simpl in IH. now destruct s.
  - simpl. destruct (Ascii.eqb a c); auto.
    destruct m as [|b m]; [now destruct s|].
    rewrite <- (IH (String b m) Hm). reflexivity.
Qed.

Lemma includes_empty_false m : m <> "" -> includes "" m = false.
Proof. destruct m; [contradiction|reflexivity]. Qed.

Lemma includes_cons c s m :
  includes (String c s) m = startsWith (String c s) m || includes s m.
Proof. reflexivity. Qed.

Lemma includes_trimEnd s m :
  endsSolid m = true -> includes (trimEnd s) m = includes s m.
Proof.
  intros Hm.
  assert (Hne : includes "" m = false) by (now destruct m).
  induction s as [|c s IH]; auto.
  pose proof (startsWith_trimEnd (String c s) m Hm) as Hs.
  rewrite (includes_cons c s), <- Hs, <- IH.
  simpl trimEnd. destruct (trimEnd s) eqn:E.
  - destruct (isSpace c) eqn:Ec.
    + rewrite Hne. now destruct m.
    + reflexivity.
  - reflexivity.
Qed.

Lemma includes_trim s m :
  startsSolid m = true -> endsSolid m = true ->
  includes (trim s) m = includes s m.
Proof.
  intros H1 H2. unfold trim.
  now rewrite includes_trimEnd, includes_trimStart.
Qed.

Lemma hasOpaqueMarker_trim v : hasOpaqueMarker (trim v) = hasOpaqueMarker v.
Proof.
  unfold hasOpaqueMarker.
  now rewrite !includes_trim by reflexivity.
Qed.

Lemma startsWith_append p s : startsWith (p ++ s) p = true.
Proof.
  induction p as [|a p IH]; simpl; auto.
  now rewrite Ascii.eqb_refl.
Qed.

End StringFacts.

(* ================================================================== *)
(** * The stylesheet normalizer *)
(* ================================================================== *)

(** What [declaration] reads in a piece [name ++ ":" ++ value]. *)
Lemma declaration_pieces styleLess name value :
  indexOf name ":" = None ->
  declaration styleLess (name ++ ":" ++ value) =
    let propValue := wrapCssVariables (trim value) in
    if startsWith propValue "@raw<|"
    then styleLess ++ " " ++ trim name ++ ": " ++ propValue ++ ";"
    else styleLess ++ " " ++ expandShorthand (trim name) propValue.
Proof.
  intros Hname. unfold declaration.
  assert (Hsp : isSpace ":" = false) by reflexivity.
  assert (Htrim : trim (name ++ ":" ++ value)
                  = trimStart name ++ String ":" (trimEnd value)).
  { unfold trim. change (":" ++ value) with (String ":" value).
    now rewrite trimStart_sep, trimEnd_sep. }
  rewrite Htrim.
  assert (Htruthy : truthy (trimStart name ++ String ":" (trimEnd value))
                    = true) by (now destruct (trimStart name)).
  rewrite Htruthy. cbn [negb].
  rewrite indexOf_sep by now apply indexOf_trimStart.
  rewrite substringTo_append, substringFrom_sep.
  now rewrite trim_trimStart, trim_trimEnd.
Qed.

(** C6. A declaration whose value holds one of the markers [var(--],
    [calc(], [clamp(], [min(], [max(] adds its name and its whole trimmed
    value inside the raw-value marker to the declaration string, and is
    not expanded; so [width: calc(100% - 20px)] is normalized to
    [width: @raw<|calc(100% - 20px)|>;], and a [padding] with such a value
    keeps its shorthand form. *)
Theorem opaque_value_is_wrapped :
  (forall styleLess name value : string,
      indexOf name ":" = None ->
      hasOpaqueMarker value = true ->
      wrapCssVariables value = "@raw<|" ++ trim value ++ "|>"
      /\ declaration styleLess (name ++ ":" ++ value)
         = styleLess ++ " " ++ trim name
             ++ ": @raw<|" ++ trim value ++ "|>;")
  /\ parseCssToStyleLess ".box { width: calc(100% - 20px); }"
     = [(".box", "width: @raw<|calc(100% - 20px)|>;")]
  /\ parseCssToStyleLess ".box { padding: calc(1px + 2px) 4px; margin: 0 var(--gap); }"
     = [(".box", "padding: @raw<|calc(1px + 2px) 4px|>; margin: @raw<|0 var(--gap)|>;")].
Proof.
  split; [|split; vm_compute; reflexivity].
  intros styleLess name value Hname Hmark.
  assert (Hwrap : forall v, hasOpaqueMarker v = true ->
                            wrapCssVariables v = "@raw<|" ++ trim v ++ "|>").
  { intros v Hv. unfold wrapCssVariables.
    rewrite <- hasOpaqueMarker_trim in Hv. unfold hasOpaqueMarker in Hv.
    now rewrite Hv. }
  split; [now apply Hwrap|].
  rewrite declaration_pieces by assumption. cbv zeta.
  rewrite Hwrap by now rewrite hasOpaqueMarker_trim.
  rewrite trim_idem.
  change (startsWith ("@raw<|" ++ trim value ++ "|>") "@raw<|") with true.
  cbv iota. rewrite !append_assoc. reflexivity.
Qed.

Lemma opaque_value_is_wrapped_witness :
  declaration "color: red;" (" width" ++ ":" ++ " calc(100% - 20px) ")
  = "color: red; width: @raw<|calc(100% - 20px)|>;".
Proof.
  exact (proj2 (proj1 opaque_value_is_wrapped "color: red;" " width"
                  " calc(100% - 20px) " eq_refl eq_refl)).
Defined.

(** C5. [padding: 10px 20px] expands to the four sides, top and bottom
    taking the first value and right and left the second;
    [border-radius: 4px 8px] expands to the four corners, top-left and
    bottom-right taking the first value and top-right and bottom-left the
    second. *)
Theorem shorthand_expansion :
  expandShorthand "padding" "10px 20px"
  = "padding-top: 10px; padding-right: 20px; padding-bottom: 10px; padding-left: 20px;"
  /\ expandShorthand "border-radius" "4px 8px"
     = "border-top-left-radius: 4px; border-top-right-radius: 8px; border-bottom-right-radius: 4px; border-bottom-left-radius: 8px;"
  /\ parseCssToStyleLess ".card { padding: 10px 20px; }"
     = [(".card", "padding-top: 10px; padding-right: 20px; padding-bottom: 10px; padding-left: 20px;")]
  /\ parseCssToStyleLess ".card { border-radius: 4px 8px; }"
     = [(".card", "border-top-left-radius: 4px; border-top-right-radius: 8px; border-bottom-right-radius: 4px; border-bottom-left-radius: 8px;")].
Proof. repeat split; vm_compute; reflexivity. Qed.

(* ================================================================== *)
(** * Conversions of the example markup *)
(* ================================================================== *)

(** C2. An ignored element without kept children hands the empty
    string to its parent, which stores it: for [<div><br></div>] the node
    of the [div] lists the empty string as a child, and no node of the
    output has that identifier. *)
Theorem dangling_child_reference :
  exists n,
    In n (outputNodes divWithBreak "")
    /\ n_tag n = Some "div"
    /\ childIdsOf n = [EmptyId]
    /\ ~ resolvesIn (outputNodes divWithBreak "") EmptyId.
Proof.
  remember (outputNodes divWithBreak "") as out eqn:Hout.
  vm_compute in Hout.
  match type of Hout with
  | _ = [?n] => exists n
  end.
  subst out.
  split; [left; reflexivity|].
  split; [reflexivity|]. split; [reflexivity|].
  intros [m [[<-|[]] Hid]]. discriminate.
Qed.

(** C4. Two selectors that differ in their combinator are given the
    same name: the styles of [.a .b] and [.a > .b] are both called
    [scoped-style-a-b]. *)
Theorem duplicate_style_names :
  map s_name
      (outputStyles emptyMarkup
         ".a .b { color: red; } .a > .b { color: blue; }")
  = ["scoped-style-a-b"; "scoped-style-a-b"]
  /\ ~ NoDup (map s_name
                (outputStyles emptyMarkup
                   ".a .b { color: red; } .a > .b { color: blue; }")).
Proof.
  assert (H : map s_name
                (outputStyles emptyMarkup
                   ".a .b { color: red; } .a > .b { color: blue; }")
              = ["scoped-style-a-b"; "scoped-style-a-b"])
    by (vm_compute; reflexivity).
  split; [exact H|]. rewrite H. intros Hnd.
  inversion Hnd as [|x l Hnotin _]. apply Hnotin. left. reflexivity.
Qed.

(** Once the style elements are removed, none is left to be found. *)
Lemma styleElementsIn_without (el : element) :
  styleElementsIn (withoutStyleElements el) = [].
Proof.
  revert el.
  fix IH 1. intros [t a m o cs]. simpl.
  induction cs as [|c cs IHcs]; [reflexivity|].
  destruct c as [e| |]; auto.
  destruct (isStyleElement e) eqn:He; auto.
  assert (Hw : isStyleElement (withoutStyleElements e) = false)
    by (destruct e; exact He).
  rewrite Hw, IH. exact IHcs.
Qed.

Lemma no_style_after_removal (doc : document) :
  querySelectorAllStyle (removeStyleElements doc) = [].
Proof.
  unfold querySelectorAllStyle, removeStyleElements. simpl.
  now rewrite !styleElementsIn_without.
Qed.

(** C9. The advanced CSS is extracted from the text the style elements
    have once they are removed from the document, that is from the
    external stylesheet alone: the [@media] block of an inline style
    element, which the extractor would keep, is in no node of the
    output. *)
Theorem inline_advanced_css_is_lost :
  map textContent (querySelectorAllStyle markupWithInlineMedia)
  = [inlineMediaCss]
  /\ extractAdvancedCss inlineMediaCss = inlineMediaCss
  /\ outputStyles markupWithInlineMedia "" = []
  /\ (forall n v,
         In n (outputNodes markupWithInlineMedia "") ->
         n_v n = Some v -> includes v "@media" = false)
  /\ forall doc,
       map textContent (querySelectorAllStyle (removeStyleElements doc)) = [].
Proof.
  split; [vm_compute; reflexivity|].
  split; [vm_compute; reflexivity|].
  split; [vm_compute; reflexivity|].
  split.
  - intros n v Hn Hv. vm_compute in Hn.
    destruct Hn as [<-|[]]. discriminate.
  - intros doc. now rewrite no_style_after_removal.
Qed.

(* ================================================================== *)
(** * The walk over the markup *)
(* ================================================================== *)

(** Induction on the markup: a property holds of every element when it
    holds of an element as soon as it holds of its element children. *)
Lemma element_induction (P : element -> Prop) :
  (forall t a m o cs,
      Forall (onElement P) cs -> P (Element t a m o cs)) ->
  forall el, P el.
Proof.
  intros H. fix IH 1. intros [t a m o cs]. apply H.
  induction cs as [|c cs IHcs]; constructor; auto.
  destruct c; simpl; auto.
Qed.

Lemma processElement_eq el this :
  processElement el this =
    processElementWith (hoistChildren (childNodes el))
                       (walkChildren (childNodes el)) el this.
Proof. destruct el. reflexivity. Qed.

Lemma mergeInto_complexRules t sel sl this :
  c_complexRules (mergeInto t sel sl this) = c_complexRules this.
Proof.
  unfold mergeInto.
  destruct (existsb _ _); auto.
  destruct (JSMap.get _ _ _); auto.
Qed.

(** ** Invariants of the converter along the walk

    A property of the converter that drawing an identifier, pushing a
    node and merging a rule of [complexRules] keep is kept by
    [processElement]. *)
Section Preservation.

Variable I : Converter -> Prop.
Hypothesis I_uuid : forall this, I this -> I (snd (uuidv4 this)).
Hypothesis I_push : forall this n, I this -> I (pushNode n this).
Hypothesis I_merge : forall this t sel sl,
    I this -> In (sel, sl) (c_complexRules this) ->
    I (mergeInto t sel sl this).

Lemma createHtmlEmbed_preserves content isScript this :
  I this -> I (snd (createHtmlEmbed content isScript this)).
Proof. intros H. unfold createHtmlEmbed. simpl. now apply I_uuid in H. Qed.

Lemma applyRules_preserves el rules :
  forall classIds this,
    incl rules (c_complexRules this) -> I this ->
    I (snd (fold_left (applyComplexRule el) rules (classIds, this)))
    /\ c_complexRules
         (snd (fold_left (applyComplexRule el) rules (classIds, this)))
       = c_complexRules this.
Proof.
  induction rules as [|[sel sl] rules IH]; intros classIds this Hin HI;
    [split; auto|].
  cbn [fold_left].
  assert (Hhead : In (sel, sl) (c_complexRules this))
    by (apply Hin; now left).
  assert (Htail : incl rules (c_complexRules this))
    by (intros r Hr; apply Hin; now right).
  assert (Hstep : I (snd (applyComplexRule el (classIds, this) (sel, sl)))
                  /\ c_complexRules
                       (snd (applyComplexRule el (classIds, this) (sel, sl)))
                     = c_complexRules this).
  { unfold applyComplexRule.
    destruct (matches el sel) as [[|]|]; auto.
    destruct classIds as [|target rest]; auto. simpl.
    split; [now apply I_merge|apply mergeInto_complexRules]. }
  destruct (applyComplexRule el (classIds, this) (sel, sl))
    as [classIds' this'].
  simpl in Hstep. destruct Hstep as [HI' Heq].
  destruct (IH classIds' this') as [H1 H2]; auto.
  - now rewrite Heq.
  - split; [exact H1|]. now rewrite H2.
Qed.

Lemma resolveClassIds_preserves el this :
  I this -> I (snd (resolveClassIds el this)).
Proof.
  intros H. unfold resolveClassIds.
  now apply applyRules_preserves; [apply incl_refl|].
Qed.

Lemma dataOf_preserves type el this :
  I this -> I (snd (dataOf type el this)).
Proof.
  intros H. unfold dataOf.
  destruct (isType type "Image"); simpl; auto.
  now apply I_uuid in H.
Qed.

Lemma walkChildren_preserves cs :
  Forall (onElement (fun el => forall this,
                         I this -> I (snd (processElement el this)))) cs ->
  forall this, I this -> I (snd (walkChildren cs this)).
Proof.
  induction 1 as [|c cs Hc _ IH]; intros this HI; [exact HI|].
  destruct c as [e|text|]; cbn [walkChildren].
  - specialize (Hc this HI).
    destruct (processElement e this) as [childId this1].
    specialize (IH this1 Hc).
    destruct (walkChildren cs this1) as [childIds this2]. exact IH.
  - destruct (truthy (trim text)); [|now apply IH].
    pose proof (I_uuid this HI) as H1.
    destruct (uuidv4 this) as [textId this1]. cbn [snd] in H1.
    pose proof (I_push this1 (textNode textId (trim text)) H1) as H2.
    specialize (IH _ H2).
    destruct (walkChildren cs _) as [childIds this3]. exact IH.
  - now apply IH.
Qed.

Lemma hoistChildren_preserves cs :
  Forall (onElement (fun el => forall this,
                         I this -> I (snd (processElement el this)))) cs ->
  forall this, I this -> I (snd (hoistChildren cs this)).
Proof.
  induction 1 as [|c cs Hc _ IH]; intros this HI; [exact HI|].
  destruct c as [e|text|]; simpl; try (now apply IH).
  specialize (Hc this HI).
  destruct (processElement e this) as [childId this1].
  specialize (IH this1 Hc).
  destruct (hoistChildren cs this1) as [childIds this2]. exact IH.
Qed.

Lemma processElementWith_preserves hoist walk el this :
  (forall this, I this -> I (snd (hoist this))) ->
  (forall this, I this -> I (snd (walk this))) ->
  I this -> I (snd (processElementWith hoist walk el this)).
Proof.
  intros Hh Hw HI. unfold processElementWith.
  destruct (setHas IGNORED_TAGS _).
  { specialize (Hh this HI). destruct (hoist this). exact Hh. }
  destruct (String.eqb _ "script").
  { simpl. apply I_push. now apply I_uuid. }
  destruct (String.eqb _ "svg").
  { simpl. apply I_push. now apply I_uuid. }
  pose proof (resolveClassIds_preserves el this HI) as H1.
  destruct (resolveClassIds el this) as [classIds this1]. simpl in H1.
  destruct (TAG_MAP _) as [type|].
  - pose proof (I_uuid this1 H1) as H2.
    destruct (uuidv4 this1) as [id this2]. simpl in H2.
    pose proof (dataOf_preserves type el this2 H2) as H3.
    destruct (dataOf type el this2) as [data this3]. simpl in H3.
    destruct (isType type "Section");
      [destruct (negb (hasBlockWrapper el) && _)|].
    + pose proof (I_uuid this3 H3) as H4.
      destruct (uuidv4 this3) as [wrapperId this4]. simpl in H4.
      specialize (Hw this4 H4). destruct (walk this4) as [childIds this5].
      simpl. now apply I_push, I_push.
    + specialize (Hw this3 H3). destruct (walk this3) as [childIds this4].
      simpl. now apply I_push.
    + specialize (Hw this3 H3). destruct (walk this3) as [childIds this4].
      simpl. now apply I_push.
  - pose proof (I_uuid this1 H1) as H2.
    destruct (uuidv4 this1) as [id this2]. simpl in H2.
    specialize (Hw this2 H2). destruct (walk this2) as [childIds this3].
    simpl. now apply I_push.
Qed.

Lemma processElement_preserves el :
  forall this, I this -> I (snd (processElement el this)).
Proof.
  induction el as [t a m o cs IH] using element_induction.
  intros this HI. rewrite processElement_eq.
  apply processElementWith_preserves; auto; simpl.
  - now apply hoistChildren_preserves.
  - now apply walkChildren_preserves.
Qed.

Lemma processTopLevel_preserves els :
  forall this, I this -> I (snd (processTopLevel els this)).
Proof.
  induction els as [|el els IH]; intros this HI; [exact HI|]. simpl.
  pose proof (processElement_preserves el this HI) as H1.
  destruct (processElement el this) as [childId this1].
  specialize (IH this1 H1).
  destruct (processTopLevel els this1) as [childIds this2]. exact IH.
Qed.

End Preservation.

(** ** The nodes only grow, the tables stay *)

Lemma extendsNodes_refl this : extendsNodes this this.
Proof. exists []. now rewrite app_nil_r. Qed.

Lemma extendsNodes_trans a b c :
  extendsNodes a b -> extendsNodes b c -> extendsNodes a c.
Proof.
  intros [x Hx] [y Hy]. exists (x ++ y)%list.
  now rewrite Hy, Hx, app_assoc.
Qed.

Lemma extendsNodes_push a n : extendsNodes a (pushNode n a).
Proof. now exists [n]. Qed.

Lemma resolvesIn_extends a b id :
  extendsNodes a b -> resolvesIn (c_nodes a) id -> resolvesIn (c_nodes b) id.
Proof.
  intros [x Hx] [n [Hn Hid]]. exists n. split; auto.
  rewrite Hx. apply in_or_app. now left.
Qed.

Lemma mergeInto_nodes t sel sl this :
  c_nodes (mergeInto t sel sl this) = c_nodes this.
Proof.
  unfold mergeInto.
  destruct (existsb _ _); auto.
  destruct (JSMap.get _ _ _); auto.
Qed.

Lemma processElement_extends el this :
  extendsNodes this (snd (processElement el this)).
Proof.
  apply (processElement_preserves (extendsNodes this)).
  - intros s H. exact H.
  - intros s n H. eapply extendsNodes_trans; [exact H|].
    apply extendsNodes_push.
  - intros s t sel sl [x Hx] _. exists x. now rewrite mergeInto_nodes.
  - apply extendsNodes_refl.
Qed.

Lemma processTopLevel_extends els this :
  extendsNodes this (snd (processTopLevel els this)).
Proof.
  apply (processTopLevel_preserves (extendsNodes this)).
  - intros s H. exact H.
  - intros s n H. eapply extendsNodes_trans; [exact H|].
    apply extendsNodes_push.
  - intros s t sel sl [x Hx] _. exists x. now rewrite mergeInto_nodes.
  - apply extendsNodes_refl.
Qed.

Lemma hoistChildren_extends cs : forall this,
  extendsNodes this (snd (hoistChildren cs this)).
Proof.
  induction cs as [|c cs IH]; intros this; [apply extendsNodes_refl|].
  destruct c as [e| |]; cbn [hoistChildren]; auto.
  pose proof (processElement_extends e this) as H1.
  destruct (processElement e this) as [childId this1]. cbn [snd] in H1.
  specialize (IH this1).
  destruct (hoistChildren cs this1) as [childIds this2]. cbn [snd] in *.
  eapply extendsNodes_trans; eauto.
Qed.

Lemma appendStyleLess_ids i sl l :
  map s_id (appendStyleLess i sl l) = map s_id l.
Proof.
  revert i. induction l as [|s l IH]; intros [|i]; simpl; auto.
  now rewrite IH.
Qed.

Lemma appendStyleLess_names i sl l :
  map s_name (appendStyleLess i sl l) = map s_name l.
Proof.
  revert i. induction l as [|s l IH]; intros [|i]; simpl; auto.
  now rewrite IH.
Qed.

Lemma sameTables_refl this : sameTables this this.
Proof. repeat split. Qed.

Lemma sameTables_merge a t sel sl this :
  sameTables a this -> sameTables a (mergeInto t sel sl this).
Proof.
  intros H. unfold mergeInto.
  destruct (existsb _ _); auto.
  destruct (JSMap.get _ _ _); auto.
  destruct H as (H1 & H2 & H3 & H4 & H5 & H6 & H7).
  repeat split; simpl; auto.
  - now rewrite appendStyleLess_ids.
  - now rewrite appendStyleLess_names.
Qed.

Lemma processElement_tables el this :
  sameTables this (snd (processElement el this)).
Proof.
  apply (processElement_preserves (sameTables this)).
  - intros s H. exact H.
  - intros s n H. exact H.
  - intros s t sel sl H _. now apply sameTables_merge.
  - apply sameTables_refl.
Qed.

Lemma processTopLevel_tables els this :
  sameTables this (snd (processTopLevel els this)).
Proof.
  apply (processTopLevel_preserves (sameTables this)).
  - intros s H. exact H.
  - intros s n H. exact H.
  - intros s t sel sl H _. now apply sameTables_merge.
  - apply sameTables_refl.
Qed.

(** ** The identifier [processElement] returns *)

Lemma hoistChildren_resolves cs :
  Forall (onElement
            (fun el => forall this,
                 truthyId (fst (processElement el this)) = true ->
                 resolvesIn (c_nodes (snd (processElement el this)))
                            (fst (processElement el this)))) cs ->
  forall this,
    Forall (fun id => truthyId id = true
                      /\ resolvesIn (c_nodes (snd (hoistChildren cs this))) id)
           (fst (hoistChildren cs this)).
Proof.
  induction 1 as [|c cs Hc _ IH]; intros this; [constructor|].
  destruct c as [e| |]; cbn [hoistChildren]; auto.
  specialize (Hc this).
  destruct (processElement e this) as [childId this1]. cbn [fst snd] in Hc.
  specialize (IH this1).
  pose proof (hoistChildren_extends cs this1) as Hext.
  destruct (hoistChildren cs this1) as [childIds this2]. cbn [fst snd] in *.
  destruct (truthyId childId) eqn:Ht; auto.
  constructor; auto. split; auto.
  eapply resolvesIn_extends; eauto.
Qed.

Lemma resolvesIn_push n this :
  resolvesIn (c_nodes (pushNode n this)) (n_id n).
Proof. exists n. split; auto. simpl. apply in_or_app. right. now left. Qed.

Lemma processElementWith_resolves hoist walk el this :
  Forall (fun id => truthyId id = true
                    /\ resolvesIn (c_nodes (snd (hoist this))) id)
         (fst (hoist this)) ->
  truthyId (fst (processElementWith hoist walk el this)) = true ->
  resolvesIn (c_nodes (snd (processElementWith hoist walk el this)))
             (fst (processElementWith hoist walk el this)).
Proof.
  intros Hh. unfold processElementWith.
  destruct (setHas IGNORED_TAGS _).
  { destruct (hoist this) as [childIds this1]. cbn [fst snd] in *.
    destruct Hh as [|id ids [_ Hid] _]; [discriminate|]. intros _. exact Hid. }
  destruct (String.eqb _ "script").
  { intros _. cbn [createHtmlEmbed uuidv4 fst snd].
    apply (resolvesIn_push (Node _ _ _ _ _ _ _ _)). }
  destruct (String.eqb _ "svg").
  { intros _. cbn [createHtmlEmbed uuidv4 fst snd].
    apply (resolvesIn_push (Node _ _ _ _ _ _ _ _)). }
  destruct (resolveClassIds el this) as [classIds this1].
  destruct (TAG_MAP _) as [type|].
  - destruct (uuidv4 this1) as [id this2].
    destruct (dataOf type el this2) as [data this3].
    destruct (isType type "Section");
      [destruct (negb (hasBlockWrapper el) && _)|].
    + destruct (uuidv4 this3) as [wrapperId this4].
      destruct (walk this4) as [childIds this5].
      intros _. apply (resolvesIn_push (Node _ _ _ _ _ _ _ _)).
    + destruct (walk this3) as [childIds this4].
      intros _. apply (resolvesIn_push (Node _ _ _ _ _ _ _ _)).
    + destruct (walk this3) as [childIds this4].
      intros _. apply (resolvesIn_push (Node _ _ _ _ _ _ _ _)).
  - destruct (uuidv4 this1) as [id this2].
    destruct (walk this2) as [childIds this3].
    intros _. apply (resolvesIn_push (Node _ _ _ _ _ _ _ _)).
Qed.

Lemma processElement_resolves el :
  forall this,
    truthyId (fst (processElement el this)) = true ->
    resolvesIn (c_nodes (snd (processElement el this)))
               (fst (processElement el this)).
Proof.
  induction el as [t a m o cs IH] using element_induction.
  intros this. rewrite processElement_eq.
  apply processElementWith_resolves. cbn [childNodes].
  now apply hoistChildren_resolves.
Qed.

Lemma processTopLevel_resolves els : forall this,
  Forall (fun id => truthyId id = true
                    /\ resolvesIn (c_nodes (snd (processTopLevel els this))) id)
         (fst (processTopLevel els this)).
Proof.
  induction els as [|el els IH]; intros this; [constructor|].
  cbn [processTopLevel].
  pose proof (processElement_resolves el this) as H1.
  destruct (processElement el this) as [childId this1]. cbn [fst snd] in H1.
  specialize (IH this1).
  pose proof (processTopLevel_extends els this1) as Hext.
  destruct (processTopLevel els this1) as [childIds this2].
  cbn [fst snd] in *.
  destruct (truthyId childId) eqn:Ht; auto.
  constructor; auto. split; auto.
  eapply resolvesIn_extends; eauto.
Qed.

(* ================================================================== *)
(** * The graph finalizer *)
(* ================================================================== *)

Lemma ident_eqb_eq a b : ident_eqb a b = true <-> a = b.
Proof.
  destruct a as [|n], b as [|m]; simpl; split; intros H;
    try discriminate; auto.
  - apply Nat.eqb_eq in H. now subst.
  - inversion H. apply Nat.eqb_refl.
Qed.

Lemma ident_eqb_refl a : ident_eqb a a = true.
Proof. now apply ident_eqb_eq. Qed.

Lemma ident_eqb_neq a b : ident_eqb a b = false <-> a <> b.
Proof.
  split.
  - intros H Heq. apply ident_eqb_eq in Heq. congruence.
  - intros H. destruct (ident_eqb a b) eqn:E; auto.
    apply ident_eqb_eq in E. contradiction.
Qed.

(** ** Maps *)

Section MapFacts.

Context {K V : Type} (eqb : K -> K -> bool).
Hypothesis eqb_eq : forall a b, eqb a b = true <-> a = b.

Lemma get_set_same (m : list (K * V)) k v :
  JSMap.get eqb (JSMap.set eqb m k v) k = Some v.
Proof.
  assert (Hr : eqb k k = true) by now apply eqb_eq.
  induction m as [|[k' v'] m IH]; simpl; [now rewrite Hr|].
  destruct (eqb k' k) eqn:E; simpl; rewrite E; auto.
Qed.

Lemma get_set_other (m : list (K * V)) k v k' :
  k <> k' -> JSMap.get eqb (JSMap.set eqb m k v) k' = JSMap.get eqb m k'.
Proof.
  intros Hne.
  assert (Hf : eqb k k' = false).
  { destruct (eqb k k') eqn:E; auto. apply eqb_eq in E. contradiction. }
  induction m as [|[k0 v0] m IH]; simpl; [now rewrite Hf|].
  destruct (eqb k0 k) eqn:E; simpl.
  - apply eqb_eq in E. subst. now rewrite Hf.
  - now rewrite IH.
Qed.

Lemma get_In (m : list (K * V)) k v :
  JSMap.get eqb m k = Some v -> In (k, v) m.
Proof.
  induction m as [|[k' v'] m IH]; simpl; [discriminate|].
  destruct (eqb k' k) eqn:E; auto.
  intros H. inversion H. subst. apply eqb_eq in E. subst. now left.
Qed.

(** The keys of a map built with [set] are pairwise distinct. *)
Lemma set_keys_NoDup (m : list (K * V)) k v :
  NoDup (map fst m) -> NoDup (map fst (JSMap.set eqb m k v)).
Proof.
  assert (Hin : forall (m : list (K * V)) x,
             In x (map fst (JSMap.set eqb m k v)) ->
             x = k \/ In x (map fst m)).
  { clear m. induction m as [|[k' v'] m IH]; simpl; intros x.
    - intros [<-|[]]. now left.
    - destruct (eqb k' k); simpl.
      + intros [<-|H]; auto.
      + intros [<-|H]; auto. destruct (IH x H); auto. }
  induction m as [|[k' v'] m IH]; simpl; intros Hnd.
  - constructor; [intros []|constructor].
  - inversion Hnd as [|? ? Hnotin Hnd']. subst.
    destruct (eqb k' k) eqn:E; simpl.
    + constructor; assumption.
    + constructor; [|now apply IH].
      intros Hx. destruct (Hin m k' Hx) as [->|Hx']; [|contradiction].
      assert (eqb k k = true) by now apply eqb_eq. congruence.
Qed.

Lemma In_get (m : list (K * V)) k v :
  NoDup (map fst m) -> In (k, v) m -> JSMap.get eqb m k = Some v.
Proof.
  induction m as [|[k' v'] m IH]; simpl; [intros _ []|].
  intros Hnd [Heq|Hin].
  - inversion Heq. subst.
    assert (Hr : eqb k k = true) by now apply eqb_eq. now rewrite Hr.
  - inversion Hnd as [|? ? Hnotin Hnd']. subst.
    destruct (eqb k' k) eqn:E; [|now apply IH].
    apply eqb_eq in E. subst. exfalso. apply Hnotin.
    now apply (in_map fst) in Hin.
Qed.

End MapFacts.

(** ** The map of the nodes *)

Lemma nodeMapOf_app l n :
  nodeMapOf (l ++ [n]) = JSMap.set ident_eqb (nodeMapOf l) (n_id n) n.
Proof. unfold nodeMapOf. now rewrite fold_left_app. Qed.

Lemma nodeMapOf_last l n :
  JSMap.get ident_eqb (nodeMapOf (l ++ [n])) (n_id n) = Some n.
Proof. rewrite nodeMapOf_app. apply get_set_same, ident_eqb_eq. Qed.

Lemma nodeMapOf_get_In l id n :
  JSMap.get ident_eqb (nodeMapOf l) id = Some n -> In n l /\ n_id n = id.
Proof.
  induction l as [|x l IH] using rev_ind; [discriminate|].
  rewrite nodeMapOf_app.
  destruct (ident_eqb (n_id x) id) eqn:E.
  - apply ident_eqb_eq in E. subst.
    rewrite (get_set_same ident_eqb ident_eqb_eq). intros H. inversion H.
    subst. split; auto. apply in_or_app. right. now left.
  - apply ident_eqb_neq in E.
    rewrite (get_set_other ident_eqb ident_eqb_eq) by exact E.
    intros H. destruct (IH H). split; auto. apply in_or_app. now left.
Qed.

Lemma nodeMapOf_resolves l id :
  resolvesIn l id ->
  exists n, JSMap.get ident_eqb (nodeMapOf l) id = Some n /\ n_id n = id.
Proof.
  induction l as [|x l IH] using rev_ind; intros [n [Hn Hid]]; [destruct Hn|].
  rewrite nodeMapOf_app.
  destruct (ident_eqb (n_id x) id) eqn:E.
  - apply ident_eqb_eq in E. subst. exists x.
    now rewrite E, (get_set_same ident_eqb ident_eqb_eq).
  - apply ident_eqb_neq in E.
    rewrite (get_set_other ident_eqb ident_eqb_eq) by exact E.
    apply IH. exists n. split; auto.
    apply in_app_or in Hn. destruct Hn as [Hn|[Hn|[]]]; auto.
    subst. contradiction.
Qed.

(** ** The traversal *)

(** [addNodeAndChildren] only adds at the end of [result] and of
    [visited]. *)
Lemma addNode_grows depth nodeMap : forall id acc,
  (exists more, fst (addNodeAndChildren depth nodeMap id acc)
                = (fst acc ++ more)%list)
  /\ (exists more, snd (addNodeAndChildren depth nodeMap id acc)
                   = (snd acc ++ more)%list).
Proof.
  induction depth as [|depth IH]; intros id [visited result].
  - split; exists []; now rewrite app_nil_r.
  - cbn [addNodeAndChildren].
    destruct (existsb _ visited);
      [split; exists []; now rewrite app_nil_r|].
    destruct (JSMap.get _ nodeMap id) as [node|];
      [|split; [now exists [id]|exists []; now rewrite app_nil_r]].
    assert (Hfold : forall childIds acc,
               (exists more,
                   fst (fold_left
                          (fun acc childId =>
                             addNodeAndChildren depth nodeMap childId acc)
                          childIds acc) = (fst acc ++ more)%list)
               /\ (exists more,
                      snd (fold_left
                             (fun acc childId =>
                                addNodeAndChildren depth nodeMap childId acc)
                             childIds acc) = (snd acc ++ more)%list)).
    { induction childIds as [|c cs IHcs]; intros acc.
      - split; exists []; now rewrite app_nil_r.
      - cbn [fold_left].
        destruct (IH c acc) as [[v1 Hv1] [r1 Hr1]].
        destruct (IHcs (addNodeAndChildren depth nodeMap c acc))
          as [[v2 Hv2] [r2 Hr2]].
        split.
        + exists (v1 ++ v2)%list. now rewrite Hv2, Hv1, app_assoc.
        + exists (r1 ++ r2)%list. now rewrite Hr2, Hr1, app_assoc. }
    destruct (n_children node) as [childIds|].
    + destruct (Hfold childIds ((visited ++ [id])%list,
                                (result ++ [node])%list))
        as [[v Hv] [r Hr]].
      cbn [fst snd] in *. split.
      * exists ([id] ++ v)%list. now rewrite Hv, app_assoc.
      * exists ([node] ++ r)%list. now rewrite Hr, app_assoc.
    + split; [now exists [id]|now exists [node]].
Qed.

(** The node the map has for the root comes first. *)
Lemma reorder_head this rootId n :
  JSMap.get ident_eqb (nodeMapOf (c_nodes this)) rootId = Some n ->
  hd_error (reorderNodesWithRootFirst this rootId) = Some n.
Proof.
  intros Hget. unfold reorderNodesWithRootFirst.
  pose proof (addNode_grows (S (List.length (c_nodes this)))
                (nodeMapOf (c_nodes this)) rootId ([], [])) as [_ [r Hr]].
  revert Hr. cbn [addNodeAndChildren existsb]. rewrite Hget.
  cbn [app fst snd].
  assert (Hfold : forall childIds,
             exists more,
               snd (fold_left
                      (fun acc childId =>
                         addNodeAndChildren (List.length (c_nodes this))
                           (nodeMapOf (c_nodes this)) childId acc)
                      childIds ([rootId], [n])) = n :: more).
  { intros childIds.
    assert (H : forall cs acc hd tl, snd acc = hd :: tl ->
               exists more,
                 snd (fold_left
                        (fun acc childId =>
                           addNodeAndChildren (List.length (c_nodes this))
                             (nodeMapOf (c_nodes this)) childId acc)
                        cs acc) = hd :: more).
    { induction cs as [|c cs IHcs]; intros acc h t Hacc;
        [now exists t|].
      cbn [fold_left].
      destruct (addNode_grows (List.length (c_nodes this))
                  (nodeMapOf (c_nodes this)) c acc) as [_ [r' Hr']].
      apply (IHcs _ h (t ++ r')%list). now rewrite Hr', Hacc. }
    apply (H childIds ([rootId], [n]) n []). reflexivity. }
  destruct (n_children n) as [childIds|].
  - destruct (Hfold childIds) as [more Hmore].
    destruct (fold_left _ childIds _) as [visited result].
    cbn [snd] in Hmore. subst. intros _. reflexivity.
  - intros _. reflexivity.
Qed.

(** ** The single root *)

Lemma walkDocument_topLevel doc css :
  w_topLevelChildren (walkDocument doc css)
  = (w_elementIds (walkDocument doc css)
     ++ match w_embed (walkDocument doc css) with
        | Some embedNode => [n_id embedNode]
        | None => []
        end)%list
  /\ Forall (resolvesIn (c_nodes (w_this (walkDocument doc css))))
            (w_topLevelChildren (walkDocument doc css)).
Proof.
  unfold walkDocument.
  destruct (materializeStyles _ _) as [this1 unusedCssRules].
  pose proof (processTopLevel_resolves
                (children (body (removeStyleElements doc))) this1) as Hres.
  destruct (processTopLevel _ this1) as [elementIds this2].
  cbn [fst snd] in Hres.
  assert (Hres' : Forall (resolvesIn (c_nodes this2)) elementIds).
  { eapply Forall_impl; [|exact Hres]. now intros id [_ H]. }
  destruct (advancedCssPartsOf _ _) as [|part parts].
  - cbn [w_topLevelChildren w_elementIds w_embed w_this].
    split; [now rewrite app_nil_r|exact Hres'].
  - cbn [createHtmlEmbed uuidv4 w_topLevelChildren w_elementIds w_embed
         w_this n_id].
    split; [reflexivity|].
    apply Forall_app. split.
    + eapply Forall_impl; [|exact Hres'].
      intros id Hid.
      eapply resolvesIn_extends; [apply extendsNodes_push|exact Hid].
    + constructor; [|constructor].
      apply (resolvesIn_push (Node _ _ _ _ _ _ _ _)).
Qed.

Lemma chooseRoot_head this ids :
  Forall (resolvesIn (c_nodes this)) ids ->
  singleRootOver ids
    (hd_error (reorderNodesWithRootFirst (fst (chooseRoot this ids))
                                         (snd (chooseRoot this ids)))).
Proof.
  intros Hres. unfold chooseRoot.
  destruct ids as [|only [|second rest]].
  - cbn [uuidv4 fst snd singleRootOver]. eexists.
    apply reorder_head. cbn [c_nodes pushNode].
    apply (nodeMapOf_last _ (blockNode _ _)).
  - cbn [fst snd singleRootOver].
    inversion Hres as [|? ? Honly _]. subst.
    destruct (nodeMapOf_resolves _ _ Honly) as [n [Hget Hid]].
    exists n. split; [now apply reorder_head|exact Hid].
  - cbn [uuidv4 fst snd singleRootOver]. eexists.
    apply reorder_head. cbn [c_nodes pushNode].
    apply (nodeMapOf_last _ (blockNode _ _)).
Qed.

Lemma outputRoot_eq doc css :
  outputRoot doc css
  = hd_error (reorderNodesWithRootFirst (fst (convertThis doc css))
                                        (snd (convertThis doc css))).
Proof.
  unfold outputRoot, outputNodes, convert.
  now destruct (convertThis doc css).
Qed.

(** C1, as the code has it.  The top-level siblings are the identifiers
    kept for the top-level elements, in source order, followed by the
    node of the relocated CSS when there is one.  Without any sibling the
    first node of the output is an empty [Block] / [div]; with one, it is
    the node of that identifier; with more, it is a [Block] / [div]
    wrapper whose children are exactly the siblings in order. *)
Theorem single_root (doc : document) (css : string) :
  w_topLevelChildren (walkDocument doc css)
  = (w_elementIds (walkDocument doc css)
     ++ match w_embed (walkDocument doc css) with
        | Some embedNode => [n_id embedNode]
        | None => []
        end)%list
  /\ singleRootOver (w_topLevelChildren (walkDocument doc css))
                    (outputRoot doc css).
Proof.
  destruct (walkDocument_topLevel doc css) as [Heq Hres].
  split; [exact Heq|].
  rewrite outputRoot_eq. unfold convertThis.
  now apply chooseRoot_head.
Qed.

(** C1, as the claim has it, fails: for the empty markup with the
    stylesheet [.foo { color: red; }] no top-level element is kept, and
    the first node of the output is the embed of the relocated CSS, not an
    empty [Block]. *)
Lemma single_root_counterexample :
  ~ singleRootOver
      (w_elementIds (walkDocument emptyMarkup ".foo { color: red; }"))
      (outputRoot emptyMarkup ".foo { color: red; }").
Proof.
  assert (Hids : w_elementIds (walkDocument emptyMarkup ".foo { color: red; }")
                 = []) by (vm_compute; reflexivity).
  rewrite Hids. intros [id Hroot].
  vm_compute in Hroot. discriminate.
Qed.

(* ================================================================== *)
(** * The nodes the walk builds *)
(* ================================================================== *)

Section Growth.

Variable tables : Converter.

Lemma grows_refl P this : sameTables tables this -> grows tables P this this.
Proof. intros H. split; auto. exists []. now rewrite app_nil_r. Qed.

Lemma grows_trans P a b c :
  grows tables P a b -> grows tables P b c -> grows tables P a c.
Proof.
  intros [_ [x [Hx Px]]] [Hc [y [Hy Py]]]. split; auto.
  exists (x ++ y)%list. split; [now rewrite Hy, Hx, app_assoc|].
  apply Forall_app. now split.
Qed.

Lemma grows_weaken (P Q : WebflowNode -> Prop) a b :
  (forall n, P n -> Q n) -> grows tables P a b -> grows tables Q a b.
Proof.
  intros HPQ [Hb [x [Hx Px]]]. split; auto. exists x. split; auto.
  eapply Forall_impl; eauto.
Qed.

Lemma grows_push P n this :
  sameTables tables this -> P n -> grows tables P this (pushNode n this).
Proof. intros H Hn. split; [exact H|]. exists [n]. split; auto. Qed.

Lemma grows_uuid P this :
  sameTables tables this -> grows tables P this (snd (uuidv4 this)).
Proof. intros H. split; [exact H|]. exists []. split; auto. simpl.
       now rewrite app_nil_r. Qed.

Lemma resolveClassIds_nodes el this :
  c_nodes (snd (resolveClassIds el this)) = c_nodes this.
Proof.
  apply (resolveClassIds_preserves (fun s => c_nodes s = c_nodes this)); auto.
  intros s t sel sl H _. now rewrite mergeInto_nodes.
Qed.

Lemma resolveClassIds_tables el this :
  sameTables tables this -> sameTables tables (snd (resolveClassIds el this)).
Proof.
  intros H. apply (resolveClassIds_preserves (sameTables tables)); auto.
  intros s t sel sl Hs _. now apply sameTables_merge.
Qed.

Lemma grows_resolve P el this :
  sameTables tables this ->
  grows tables P this (snd (resolveClassIds el this)).
Proof.
  intros H. split; [now apply resolveClassIds_tables|].
  exists []. split; auto. now rewrite resolveClassIds_nodes, app_nil_r.
Qed.

Lemma grows_dataOf P type el this :
  sameTables tables this -> grows tables P this (snd (dataOf type el this)).
Proof.
  intros H. unfold dataOf. destruct (isType type "Image"); cbn [snd].
  - now apply grows_uuid.
  - now apply grows_refl.
Qed.

Lemma grows_tables P a b : grows tables P a b -> sameTables tables b.
Proof. now intros [H _]. Qed.

End Growth.

Lemma allElements_self el : In el (allElements el).
Proof. destruct el. now left. Qed.

Lemma allElements_child t a m o cs e :
  In (ElementNode e) cs ->
  incl (allElements e) (allElements (Element t a m o cs)).
Proof.
  intros Hin x Hx. cbn [allElements]. right.
  induction cs as [|c cs IH]; [destruct Hin|].
  destruct Hin as [->|Hin].
  - apply in_or_app. now left.
  - destruct c as [e'| |]; auto. apply in_or_app. right. auto.
Qed.

Lemma builtNode_incl tables e root n :
  incl (allElements e) (allElements root) ->
  builtNode tables e n -> builtNode tables root n.
Proof.
  intros Hincl [id v H|id c s H|id cs H|el this Hin Ht Hig Hcl Ho Htag].
  - eapply built_text; eauto.
  - eapply built_embed; eauto.
  - eapply built_block; eauto.
  - eapply built_for; eauto.
Qed.

Section Built.

Variable tables : Converter.

Lemma walkChildren_built root cs :
  (forall e, In (ElementNode e) cs ->
             incl (allElements e) (allElements root)) ->
  Forall (onElement
            (fun el => forall this,
                 sameTables tables this ->
                 grows tables (builtNode tables el) this
                       (snd (processElement el this)))) cs ->
  forall this,
    sameTables tables this ->
    grows tables (builtNode tables root) this (snd (walkChildren cs this)).
Proof.
  intros Hincl H. induction H as [|c cs Hc _ IH]; intros this Ht;
    [now apply grows_refl|].
  assert (Hincl' : forall e, In (ElementNode e) cs ->
                             incl (allElements e) (allElements root))
    by (intros e He; apply Hincl; now right).
  specialize (IH Hincl').
  destruct c as [e|text|]; cbn [walkChildren].
  - specialize (Hc this Ht).
    destruct (processElement e this) as [childId this1]. cbn [snd] in Hc.
    specialize (IH this1 (grows_tables _ _ _ _ Hc)).
    destruct (walkChildren cs this1) as [childIds this2]. cbn [snd] in *.
    eapply grows_trans; [|exact IH].
    eapply grows_weaken; [|exact Hc].
    intros n. apply builtNode_incl. apply Hincl. now left.
  - destruct (truthy (trim text)); [|now apply IH].
    pose proof (grows_uuid tables (builtNode tables root) this Ht) as H1.
    destruct (uuidv4 this) as [textId this1]. cbn [snd] in H1.
    pose proof (grows_push tables (builtNode tables root)
                  (textNode textId (trim text)) this1
                  (grows_tables _ _ _ _ H1)
                  (built_text _ _ _ _ _ eq_refl)) as H2.
    specialize (IH _ (grows_tables _ _ _ _ H2)).
    destruct (walkChildren cs _) as [childIds this3]. cbn [snd] in *.
    eapply grows_trans; [exact H1|]. eapply grows_trans; eauto.
  - now apply IH.
Qed.

Lemma hoistChildren_built root cs :
  (forall e, In (ElementNode e) cs ->
             incl (allElements e) (allElements root)) ->
  Forall (onElement
            (fun el => forall this,
                 sameTables tables this ->
                 grows tables (builtNode tables el) this
                       (snd (processElement el this)))) cs ->
  forall this,
    sameTables tables this ->
    grows tables (builtNode tables root) this (snd (hoistChildren cs this)).
Proof.
  intros Hincl H. induction H as [|c cs Hc _ IH]; intros this Ht;
    [now apply grows_refl|].
  assert (Hincl' : forall e, In (ElementNode e) cs ->
                             incl (allElements e) (allElements root))
    by (intros e He; apply Hincl; now right).
  specialize (IH Hincl').
  destruct c as [e|text|]; cbn [hoistChildren]; try (now apply IH).
  specialize (Hc this Ht).
  destruct (processElement e this) as [childId this1]. cbn [snd] in Hc.
  specialize (IH this1 (grows_tables _ _ _ _ Hc)).
  destruct (hoistChildren cs this1) as [childIds this2]. cbn [snd] in *.
  eapply grows_trans; [|exact IH].
  eapply grows_weaken; [|exact Hc].
  intros n. apply builtNode_incl. apply Hincl. now left.
Qed.

Lemma processElementWith_built hoist walk el this :
  (forall this, sameTables tables this ->
                grows tables (builtNode tables el) this (snd (hoist this))) ->
  (forall this, sameTables tables this ->
                grows tables (builtNode tables el) this (snd (walk this))) ->
  sameTables tables this ->
  grows tables (builtNode tables el) this
        (snd (processElementWith hoist walk el this)).
Proof.
  intros Hh Hw Ht. unfold processElementWith.
  set (B := builtNode tables el).
  destruct (setHas IGNORED_TAGS _) eqn:Hig.
  { specialize (Hh this Ht). destruct (hoist this). exact Hh. }
  destruct (String.eqb _ "script").
  { cbn [createHtmlEmbed uuidv4 snd fst].
    eapply grows_trans; [apply (grows_uuid tables B this Ht)|].
    apply grows_push; [exact Ht|]. eapply built_embed. reflexivity. }
  destruct (String.eqb _ "svg").
  { cbn [createHtmlEmbed uuidv4 snd fst].
    eapply grows_trans; [apply (grows_uuid tables B this Ht)|].
    apply grows_push; [exact Ht|]. eapply built_embed. reflexivity. }
  pose proof (grows_resolve tables B el this Ht) as H1.
  assert (Hcl : forall n,
             n_classes n = Some (fst (resolveClassIds el this)) ->
             originalTag n = Some (toLowerCase (tagName el)) ->
             n_tag n = Some "div"
             \/ n_tag n = Some (toLowerCase (tagName el)) ->
             B n).
  { intros n Hc Ho Htag.
    exact (built_for tables el n el this (allElements_self el) Ht Hig
                     Hc Ho Htag). }
  destruct (resolveClassIds el this) as [classIds this1].
  cbn [fst snd] in *.
  pose proof (grows_tables _ _ _ _ H1) as T1.
  destruct (TAG_MAP _) as [type|].
  - pose proof (grows_uuid tables B this1 T1) as H2.
    destruct (uuidv4 this1) as [id this2]. cbn [snd] in H2.
    pose proof (grows_tables _ _ _ _ H2) as T2.
    pose proof (grows_dataOf tables B type el this2 T2) as H3.
    assert (Hdata : originalTag
                      (Node id (Some type) (Some (toLowerCase (tagName el)))
                            (Some classIds) (Some [])
                            (Some (fst (dataOf type el this2))) None None)
                    = Some (toLowerCase (tagName el))).
    { unfold dataOf. now destruct (isType type "Image"). }
    destruct (dataOf type el this2) as [data this3]. cbn [fst snd] in *.
    pose proof (grows_tables _ _ _ _ H3) as T3.
    destruct (isType type "Section");
      [destruct (negb (hasBlockWrapper el) && _)|].
    + pose proof (grows_uuid tables B this3 T3) as H4.
      destruct (uuidv4 this3) as [wrapperId this4]. cbn [snd] in H4.
      pose proof (Hw this4 (grows_tables _ _ _ _ H4)) as H5.
      destruct (walk this4) as [childIds this5]. cbn [snd] in *.
      pose proof (grows_tables _ _ _ _ H5) as T5.
      repeat (eapply grows_trans; [eassumption|]).
      eapply grows_trans.
      * apply grows_push; [exact T5|]. eapply built_block. reflexivity.
      * apply grows_push; [exact T5|]. apply Hcl; auto.
    + pose proof (Hw this3 T3) as H5.
      destruct (walk this3) as [childIds this5]. cbn [snd] in *.
      pose proof (grows_tables _ _ _ _ H5) as T5.
      repeat (eapply grows_trans; [eassumption|]).
      apply grows_push; [exact T5|]. apply Hcl; auto.
    + pose proof (Hw this3 T3) as H5.
      destruct (walk this3) as [childIds this5]. cbn [snd] in *.
      pose proof (grows_tables _ _ _ _ H5) as T5.
      repeat (eapply grows_trans; [eassumption|]).
      apply grows_push; [exact T5|]. apply Hcl; auto.
  - pose proof (grows_uuid tables B this1 T1) as H2.
    destruct (uuidv4 this1) as [id this2]. cbn [snd] in H2.
    pose proof (Hw this2 (grows_tables _ _ _ _ H2)) as H5.
    destruct (walk this2) as [childIds this5]. cbn [snd] in *.
    pose proof (grows_tables _ _ _ _ H5) as T5.
    repeat (eapply grows_trans; [eassumption|]).
    apply grows_push; [exact T5|]. apply Hcl; auto.
Qed.

Lemma processElement_built el :
  forall this,
    sameTables tables this ->
    grows tables (builtNode tables el) this (snd (processElement el this)).
Proof.
  induction el as [t a m o cs IH] using element_induction.
  intros this Ht. rewrite processElement_eq.
  apply processElementWith_built; auto; cbn [childNodes]; intros s Hs.
  - apply hoistChildren_built; auto.
    intros e He. now apply allElements_child.
  - apply walkChildren_built; auto.
    intros e He. now apply allElements_child.
Qed.

Lemma processTopLevel_built root els :
  (forall e, In e els -> incl (allElements e) (allElements root)) ->
  forall this,
    sameTables tables this ->
    grows tables (builtNode tables root) this
          (snd (processTopLevel els this)).
Proof.
  induction els as [|el els IH]; intros Hincl this Ht;
    [now apply grows_refl|].
  cbn [processTopLevel].
  pose proof (processElement_built el this Ht) as H1.
  destruct (processElement el this) as [childId this1]. cbn [snd] in H1.
  assert (Hincl' : forall e, In e els ->
                             incl (allElements e) (allElements root))
    by (intros e He; apply Hincl; now right).
  specialize (IH Hincl' this1 (grows_tables _ _ _ _ H1)).
  destruct (processTopLevel els this1) as [childIds this2]. cbn [snd] in *.
  eapply grows_trans; [|exact IH].
  eapply grows_weaken; [|exact H1].
  intros n. apply builtNode_incl. apply Hincl. now left.
Qed.

End Built.

(* ================================================================== *)
(** * The nodes of the output *)
(* ================================================================== *)

Lemma addNode_from_map depth nodeMap : forall id acc n,
  In n (snd (addNodeAndChildren depth nodeMap id acc)) ->
  In n (snd acc) \/ exists k, JSMap.get ident_eqb nodeMap k = Some n.
Proof.
  induction depth as [|depth IH]; intros id [visited result] n; [now left|].
  cbn [addNodeAndChildren].
  destruct (existsb _ visited); [now left|].
  destruct (JSMap.get _ nodeMap id) as [node|] eqn:Hget; [|now left].
  assert (Hfold : forall childIds acc,
             In n (snd (fold_left
                          (fun acc childId =>
                             addNodeAndChildren depth nodeMap childId acc)
                          childIds acc)) ->
             In n (snd acc)
             \/ exists k, JSMap.get ident_eqb nodeMap k = Some n).
  { induction childIds as [|c cs IHcs]; intros acc; [now left|].
    cbn [fold_left]. intros H.
    destruct (IHcs _ H) as [H'|H']; [|now right]. now apply IH in H'. }
  assert (Hnode : In n (result ++ [node]) ->
                  In n result
                  \/ exists k, JSMap.get ident_eqb nodeMap k = Some n).
  { intros H. apply in_app_or in H. destruct H as [H|[<-|[]]]; eauto. }
  destruct (n_children node) as [childIds|]; cbn [snd]; auto.
  intros H. apply Hfold in H. cbn [snd] in H.
  destruct H as [H|H]; auto.
Qed.

(** Every node of the output is a node of the converter. *)
Lemma reorder_incl this rootId n :
  In n (reorderNodesWithRootFirst this rootId) -> In n (c_nodes this).
Proof.
  unfold reorderNodesWithRootFirst.
  pose proof (addNode_from_map (S (List.length (c_nodes this)))
                (nodeMapOf (c_nodes this)) rootId ([], []) n) as H.
  destruct (addNodeAndChildren _ _ _ _) as [visited result].
  cbn [snd] in H. intros Hin. apply in_app_or in Hin.
  destruct Hin as [Hin|Hin].
  - destruct (H Hin) as [[]|[k Hk]].
    now apply nodeMapOf_get_In in Hk.
  - now apply filter_In in Hin.
Qed.

Lemma outputNodes_eq doc css :
  outputNodes doc css
  = reorderNodesWithRootFirst (fst (convertThis doc css))
                              (snd (convertThis doc css)).
Proof.
  unfold outputNodes, convert. now destruct (convertThis doc css).
Qed.

Lemma outputStyles_eq doc css :
  outputStyles doc css = c_styles (fst (convertThis doc css)).
Proof.
  unfold outputStyles, convert. now destruct (convertThis doc css).
Qed.

(** [collectUsedClasses] writes [usedClasses] and nothing else. *)
Lemma onlyUsedClassesDiffer_refl this : onlyUsedClassesDiffer this this.
Proof. repeat split. Qed.

Lemma onlyUsedClassesDiffer_trans a b c :
  onlyUsedClassesDiffer a b -> onlyUsedClassesDiffer b c ->
  onlyUsedClassesDiffer a c.
Proof. unfold onlyUsedClassesDiffer. intuition congruence. Qed.

Lemma collectUsedClasses_eq el this :
  collectUsedClasses el this
  = collectFromChildren (childNodes el) (collectOwnClasses el this).
Proof. destruct el. reflexivity. Qed.

Lemma collectOwnClasses_fields el this :
  onlyUsedClassesDiffer this (collectOwnClasses el this).
Proof.
  unfold collectOwnClasses.
  destruct (negb _); [|apply onlyUsedClassesDiffer_refl].
  generalize (classList el). intros l. revert this.
  induction l as [|c l IH]; intros this;
    [apply onlyUsedClassesDiffer_refl|].
  cbn [fold_left].
  eapply onlyUsedClassesDiffer_trans; [|apply IH]. repeat split.
Qed.

Lemma collectUsedClasses_fields el : forall this,
  onlyUsedClassesDiffer this (collectUsedClasses el this).
Proof.
  induction el as [t a m o cs IH] using element_induction. intros this.
  rewrite collectUsedClasses_eq. cbn [childNodes].
  apply (onlyUsedClassesDiffer_trans
           this (collectOwnClasses (Element t a m o cs) this));
    [apply collectOwnClasses_fields|].
  generalize (collectOwnClasses (Element t a m o cs) this).
  induction IH as [|c cs Hc _ IHcs]; intros s;
    [apply onlyUsedClassesDiffer_refl|].
  destruct c as [e| |]; cbn [collectFromChildren]; auto.
  destruct (entersChild e); auto.
  eapply onlyUsedClassesDiffer_trans; [apply Hc|apply IHcs].
Qed.

Lemma collectUsedClasses_nodes el this :
  c_nodes (collectUsedClasses el this) = c_nodes this.
Proof. now destruct (collectUsedClasses_fields el this). Qed.

(** The styles are made without a node being made. *)
Lemma addUsedClass_nodes c this : c_nodes (addUsedClass c this) = c_nodes this.
Proof. reflexivity. Qed.

Lemma processParsedStyle_nodes acc rule :
  c_nodes (fst (processParsedStyle acc rule)) = c_nodes (fst acc).
Proof.
  destruct acc as [this unused], rule as [selector styleLess].
  unfold processParsedStyle.
  destruct (isSimpleClass selector); [destruct (setHas _ _)|]; reflexivity.
Qed.

Lemma materializeStyles_nodes doc parsedStyles :
  c_nodes (fst (materializeStyles doc parsedStyles)) = [].
Proof.
  unfold materializeStyles.
  assert (H : forall l acc,
             c_nodes (fst (fold_left processParsedStyle l acc))
             = c_nodes (fst acc)).
  { induction l as [|r l IH]; intros acc; auto. cbn [fold_left].
    now rewrite IH, processParsedStyle_nodes. }
  rewrite H. cbn [fst]. now rewrite collectUsedClasses_nodes.
Qed.

Lemma children_incl el e :
  In e (children el) -> incl (allElements e) (allElements el).
Proof.
  destruct el as [t a m o cs]. unfold children. cbn [childNodes].
  intros He. apply allElements_child.
  induction cs as [|c cs IH]; [destruct He|].
  destruct c as [e'| |]; cbn [elementsOf] in He; try (right; now apply IH).
  destruct He as [->|He]; [now left|right; now apply IH].
Qed.

(** The walk starts from the styled converter and builds the nodes of the
    converter [convert] ends with. *)
Lemma walkDocument_built doc css :
  sameTables (styledConverter doc css) (w_this (walkDocument doc css))
  /\ Forall (builtNode (styledConverter doc css) (walkedBody doc))
            (c_nodes (w_this (walkDocument doc css))).
Proof.
  unfold walkDocument, styledConverter, walkedBody.
  pose proof (materializeStyles_nodes (removeStyleElements doc)
                                      (effectiveStyles doc css)) as Hnil.
  destruct (materializeStyles _ _) as [this1 unusedCssRules].
  cbn [fst] in *.
  pose proof (processTopLevel_built this1
                (body (removeStyleElements doc))
                (children (body (removeStyleElements doc)))
                (children_incl _) this1 (sameTables_refl this1))
    as [Ht [added [Hadd Hbuilt]]].
  destruct (processTopLevel _ this1) as [elementIds this2].
  cbn [snd] in *. rewrite Hnil in Hadd. cbn [app] in Hadd.
  destruct (advancedCssPartsOf _ _) as [|part parts].
  - cbn [w_this]. split; [exact Ht|]. now rewrite Hadd.
  - cbn [createHtmlEmbed uuidv4 w_this]. split; [exact Ht|].
    cbn [pushNode c_nodes]. rewrite Hadd. apply Forall_app. split; auto.
    constructor; [|constructor]. eapply built_embed. reflexivity.
Qed.

Lemma convertThis_built doc css :
  sameTables (styledConverter doc css) (fst (convertThis doc css))
  /\ Forall (builtNode (styledConverter doc css) (walkedBody doc))
            (c_nodes (fst (convertThis doc css))).
Proof.
  destruct (walkDocument_built doc css) as [Ht Hb].
  unfold convertThis, chooseRoot.
  destruct (w_topLevelChildren (walkDocument doc css))
    as [|only [|second rest]]; cbn [uuidv4 fst]; auto.
  - split; [exact Ht|]. cbn [pushNode c_nodes].
    apply Forall_app. split; auto.
    constructor; [|constructor]. eapply built_block. reflexivity.
  - split; [exact Ht|]. cbn [pushNode c_nodes].
    apply Forall_app. split; auto.
    constructor; [|constructor]. eapply built_block. reflexivity.
Qed.

Lemma outputNodes_built doc css n :
  In n (outputNodes doc css) ->
  builtNode (styledConverter doc css) (walkedBody doc) n.
Proof.
  rewrite outputNodes_eq. intros H. apply reorder_incl in H.
  destruct (convertThis_built doc css) as [_ Hb].
  rewrite Forall_forall in Hb. now apply Hb.
Qed.

(* ================================================================== *)
(** * Ignored elements *)
(* ================================================================== *)

(** The loop of an ignored element visits its element children in order
    and keeps the identifiers that are not empty. *)
Lemma hoistChildren_visit cs : forall this,
  hoistChildren cs this
  = (filter truthyId (fst (visitElements (elementsOf cs) this)),
     snd (visitElements (elementsOf cs) this)).
Proof.
  induction cs as [|c cs IH]; intros this; [reflexivity|].
  destruct c as [e| |]; cbn [hoistChildren elementsOf visitElements]; auto.
  destruct (processElement e this) as [childId this1].
  rewrite IH.
  destruct (visitElements (elementsOf cs) this1) as [ids this2].
  cbn [fst snd filter]. now destruct (truthyId childId).
Qed.

Lemma ignored_element_result el this :
  setHas IGNORED_TAGS (toLowerCase (tagName el)) = true ->
  processElement el this
  = (hd EmptyId (filter truthyId (fst (visitElements (children el) this))),
     snd (visitElements (children el) this)).
Proof.
  intros Hig. rewrite processElement_eq. unfold processElementWith.
  rewrite Hig, hoistChildren_visit. reflexivity.
Qed.

Lemma output_tags doc css n :
  In n (outputNodes doc css) ->
  (forall tag, originalTag n = Some tag -> setHas IGNORED_TAGS tag = false)
  /\ (forall tag, n_tag n = Some tag -> setHas IGNORED_TAGS tag = false).
Proof.
  intros Hn. apply outputNodes_built in Hn.
  destruct Hn as [id v ->|id c s ->|id cs ->|el this _ _ Hig _ Ho Htag].
  - split; intros tag H; discriminate.
  - split; intros tag H; [discriminate|]. now inversion H.
  - split; intros tag H; now inversion H.
  - split; intros tag H.
    + rewrite Ho in H. inversion H. now subst.
    + destruct Htag as [Htag|Htag]; rewrite Htag in H; inversion H; now subst.
Qed.

(* ================================================================== *)
(** * The styles made from the stylesheet *)
(* ================================================================== *)

Lemma NoDup_snoc {A : Type} (l : list A) (x : A) :
  NoDup l -> ~ In x l -> NoDup (l ++ [x]).
Proof.
  induction l as [|a l IH]; intros Hnd Hx; cbn [app].
  - constructor; [intros []|constructor].
  - inversion Hnd as [|? ? Ha Hl]. subst. constructor.
    + intros Hin. apply in_app_or in Hin.
      destruct Hin as [Hin|[<-|[]]]; [contradiction|].
      apply Hx. now left.
    + apply IH; auto. intros Hin. apply Hx. now right.
Qed.

Lemma string_eqb_eq a b : String.eqb a b = true <-> a = b.
Proof. apply String.eqb_eq. Qed.

Lemma stylesMade_fields this this' :
  onlyUsedClassesDiffer this this' -> stylesMade this -> stylesMade this'.
Proof.
  intros (H1 & H2 & H3 & H4 & H5 & H6 & H7 & H8).
  unfold stylesMade. now rewrite H2, H3, H4, H5, H6, H7, H8.
Qed.

Lemma stylesMade_start el : stylesMade (collectUsedClasses el newConverter).
Proof.
  apply (stylesMade_fields newConverter);
    [apply collectUsedClasses_fields|].
  unfold stylesMade. cbn.
  repeat split; try constructor; try discriminate; intros; contradiction.
Qed.

Lemma stylesMade_addStyle name styleLess this :
  stylesMade this -> stylesMade (addStyle name styleLess this).
Proof.
  intros (Hids & Hnd & Hmap & Hrules & Hmerges & Hidmap & Hsel).
  unfold addStyle. cbn [uuidv4]. unfold stylesMade.
  cbn [c_styles c_uuids c_styleMap c_complexRules c_processedMerges
       c_styleIdMap c_selectorToClassMap].
  assert (Hfresh : ~ In (Uuid (c_uuids this)) (map s_id (c_styles this))).
  { intros Hin. apply in_map_iff in Hin. destruct Hin as [s [Hs Hin]].
    destruct (Hids s Hin) as [k [Hk Hlt]]. rewrite Hk in Hs.
    inversion Hs. lia. }
  split; [|split; [|split; [|split; [|split; [|split]]]]]; auto.
  - intros s Hin. apply in_app_or in Hin. destruct Hin as [Hin|[<-|[]]].
    + destruct (Hids s Hin) as [k [Hk Hlt]]. exists k. split; auto.
    + exists (c_uuids this). split; auto.
  - rewrite map_app. cbn [map newStyle s_id]. now apply NoDup_snoc.
  - intros t i.
    destruct (ident_eqb (Uuid (c_uuids this)) t) eqn:E.
    + apply ident_eqb_eq in E. subst t.
      rewrite (get_set_same ident_eqb ident_eqb_eq). intros H.
      inversion H. subst i. eexists.
      rewrite nth_error_app2 by lia. rewrite Nat.sub_diag. cbn.
      split; reflexivity.
    + apply ident_eqb_neq in E.
      rewrite (get_set_other ident_eqb ident_eqb_eq) by exact E.
      intros H. destruct (Hmap t i H) as [s [Hs Hid]]. exists s.
      split; auto. rewrite nth_error_app1; auto.
      apply nth_error_Some. congruence.
  - intros name' id.
    destruct (String.eqb name name') eqn:E.
    + apply String.eqb_eq in E. subst name'.
      rewrite (get_set_same String.eqb string_eqb_eq). intros H.
      inversion H. subst id.
      exists (newStyle (Uuid (c_uuids this)) name styleLess).
      split; [|split; reflexivity].
      apply in_or_app. right. now left.
    + apply String.eqb_neq in E.
      rewrite (get_set_other String.eqb string_eqb_eq) by exact E.
      intros H. destruct (Hidmap name' id H) as [s [Hs Hrest]].
      exists s. split; auto. apply in_or_app. now left.
Qed.

Lemma stylesMade_addComplexRule selector styleLess this :
  stylesMade this ->
  stylesMade (addComplexRule selector styleLess
                (generateClassNameFromSelector selector) this).
Proof.
  intros (Hids & Hnd & Hmap & Hrules & Hmerges & Hidmap & Hsel).
  unfold addComplexRule, stylesMade.
  cbn [c_styles c_uuids c_styleMap c_complexRules c_processedMerges
       c_styleIdMap c_selectorToClassMap].
  split; [|split; [|split; [|split; [|split; [|split]]]]]; auto.
  - now apply set_keys_NoDup; [apply string_eqb_eq|].
  - intros sel' name.
    destruct (String.eqb selector sel') eqn:E.
    + apply String.eqb_eq in E. subst sel'.
      rewrite (get_set_same String.eqb string_eqb_eq). intros H.
      now inversion H.
    + apply String.eqb_neq in E.
      rewrite (get_set_other String.eqb string_eqb_eq) by exact E.
      apply Hsel.
Qed.

Lemma stylesMade_step acc rule :
  stylesMade (fst acc) -> stylesMade (fst (processParsedStyle acc rule)).
Proof.
  destruct acc as [this unused], rule as [selector styleLess].
  cbn [fst]. intros H. unfold processParsedStyle.
  destruct (isSimpleClass selector); [destruct (setHas _ _)|]; cbn [fst].
  - now apply stylesMade_addStyle.
  - exact H.
  - now apply stylesMade_addStyle, stylesMade_addComplexRule.
Qed.

Lemma stylesMade_styled doc css : stylesMade (styledConverter doc css).
Proof.
  unfold styledConverter, materializeStyles.
  generalize (effectiveStyles doc css). intros l.
  assert (H : forall l acc, stylesMade (fst acc) ->
                stylesMade (fst (fold_left processParsedStyle l acc))).
  { clear l. induction l as [|r l IH]; intros acc Hacc; auto.
    cbn [fold_left]. apply IH. now apply stylesMade_step. }
  apply H. cbn [fst]. apply stylesMade_start.
Qed.

(* ================================================================== *)
(** * Style merging *)
(* ================================================================== *)

Lemma mergeKey_eqb_eq a b : mergeKey_eqb a b = true <-> a = b.
Proof.
  destruct a as [t sel], b as [t' sel']. unfold mergeKey_eqb. cbn [fst snd].
  rewrite andb_true_iff, ident_eqb_eq, String.eqb_eq.
  split; [intros [-> ->]; reflexivity|intros H; inversion H; auto].
Qed.

Lemma not_processed key merges :
  existsb (mergeKey_eqb key) merges = false -> ~ In key merges.
Proof.
  intros H Hin.
  assert (Ht : existsb (mergeKey_eqb key) merges = true).
  { apply existsb_exists. exists key. split; auto.
    now apply mergeKey_eqb_eq. }
  congruence.
Qed.

Lemma mergedSuffix_snoc rules merges t sel id :
  mergedSuffix rules (merges ++ [(t, sel)]) id
  = mergedSuffix rules merges id
      ++ (if ident_eqb t id then " " ++ ruleTextOf rules sel else "").
Proof.
  induction merges as [|[t' sel'] merges IH]; cbn [app mergedSuffix].
  - now rewrite append_empty_r.
  - now rewrite IH, append_assoc.
Qed.

Section MergeStep.

Variables (rules : list (string * string)) (merges : list (ident * string)).
Variables (t : ident) (sel sl : string).
Hypothesis rule_text : ruleTextOf rules sel = sl.

Lemma merge_elsewhere l l0 :
  Forall2 (mergedWith rules merges) l l0 ->
  (forall s0, In s0 l0 -> ident_eqb t (s_id s0) = false) ->
  Forall2 (mergedWith rules (merges ++ [(t, sel)])) l l0.
Proof.
  induction 1 as [|s s0 l l0 (Hid & Hname & Hsl) _ IH]; intros Hne;
    constructor.
  - unfold mergedWith. repeat split; auto.
    rewrite mergedSuffix_snoc, Hid, (Hne s0 (or_introl eq_refl)).
    now rewrite append_empty_r, <- Hid.
  - apply IH. intros s1 H1. apply Hne. now right.
Qed.

Lemma merge_at l l0 : forall i,
  Forall2 (mergedWith rules merges) l l0 ->
  (forall j s0, nth_error l0 j = Some s0 ->
                ident_eqb t (s_id s0) = (j =? i)) ->
  Forall2 (mergedWith rules (merges ++ [(t, sel)])) (appendStyleLess i sl l) l0.
Proof.
  intros i H. revert i.
  induction H as [|s s0 l l0 (Hid & Hname & Hsl) Hrest IH]; intros i Hpos;
    [destruct i; constructor|].
  destruct i as [|i]; cbn [appendStyleLess].
  - constructor.
    + unfold mergedWith. cbn [s_id s_name s_styleLess]. repeat split; auto.
      rewrite mergedSuffix_snoc, Hid, (Hpos 0 s0 eq_refl). cbn [Nat.eqb].
      rewrite Hsl, rule_text, Hid. now rewrite !append_assoc.
    + apply merge_elsewhere; auto.
      intros s1 H1. apply In_nth_error in H1. destruct H1 as [j Hj].
      apply (Hpos (S j) s1 Hj).
  - constructor.
    + unfold mergedWith. repeat split; auto.
      rewrite mergedSuffix_snoc, Hid, (Hpos 0 s0 eq_refl). cbn [Nat.eqb].
      now rewrite append_empty_r, <- Hid.
    + apply IH. intros j s1 Hj. apply (Hpos (S j) s1 Hj).
Qed.

End MergeStep.

Lemma Forall2_same {A : Type} (R : A -> A -> Prop) (l : list A) :
  (forall x, In x l -> R x x) -> Forall2 R l l.
Proof.
  induction l as [|x l IH]; intros H; constructor.
  - apply H. now left.
  - apply IH. intros y Hy. apply H. now right.
Qed.

Lemma mergesSound_start this :
  stylesMade this -> mergesSound (c_styles this) this.
Proof.
  intros (Hids & Hnd & Hmap & Hrules & Hmerges & _).
  unfold mergesSound. rewrite Hmerges.
  split; [constructor|]. split; [exact Hrules|]. split; [exact Hnd|].
  split; [exact Hmap|].
  apply Forall2_same. intros s _. unfold mergedFrom, mergedWith.
  rewrite Hmerges. cbn [mergedSuffix]. now rewrite append_empty_r.
Qed.

Lemma mergesSound_merge styles0 this t sel sl :
  mergesSound styles0 this ->
  In (sel, sl) (c_complexRules this) ->
  mergesSound styles0 (mergeInto t sel sl this).
Proof.
  intros (Hm & Hrules & Hnd & Hmap & Hall) Hin.
  unfold mergeInto.
  destruct (existsb _ _) eqn:Hseen;
    [unfold mergesSound; auto|].
  destruct (JSMap.get ident_eqb (c_styleMap this) t) as [i|] eqn:Hget;
    [|unfold mergesSound; auto].
  unfold mergesSound.
  cbn [c_processedMerges c_complexRules c_styleMap c_styles].
  split; [|split; [|split; [|split]]]; auto.
  - apply NoDup_snoc; auto. now apply not_processed.
  - destruct (Hmap t i Hget) as [s0 [Hs0 Hid0]].
    assert (Htext : ruleTextOf (c_complexRules this) sel = sl).
    { unfold ruleTextOf.
      now rewrite (In_get String.eqb string_eqb_eq _ sel sl Hrules Hin). }
    unfold mergedFrom in *.
    cbn [c_processedMerges c_complexRules].
    apply (merge_at (c_complexRules this) (c_processedMerges this)
                    t sel sl Htext); auto.
    intros j s1 Hj.
    destruct (Nat.eqb_spec j i) as [->|Hne].
    + rewrite Hs0 in Hj. inversion Hj. subst.
      apply ident_eqb_refl.
    + apply ident_eqb_neq. intros Heq. apply Hne.
      assert (Hlt : j < List.length (map s_id styles0)).
      { rewrite length_map. apply nth_error_Some. congruence. }
      apply (proj1 (NoDup_nth_error (map s_id styles0)) Hnd j i Hlt).
      rewrite !nth_error_map, Hj, Hs0. cbn. now rewrite Hid0, Heq.
Qed.

Lemma mergesSound_walk styles0 el this :
  mergesSound styles0 this ->
  mergesSound styles0 (snd (processElement el this)).
Proof.
  apply processElement_preserves; auto.
  intros s t sel sl. apply mergesSound_merge.
Qed.

Lemma mergesSound_topLevel styles0 els this :
  mergesSound styles0 this ->
  mergesSound styles0 (snd (processTopLevel els this)).
Proof.
  apply processTopLevel_preserves; auto.
  intros s t sel sl. apply mergesSound_merge.
Qed.

Lemma mergesSound_convertThis doc css :
  mergesSound (c_styles (styledConverter doc css))
              (fst (convertThis doc css)).
Proof.
  pose proof (mergesSound_start _ (stylesMade_styled doc css)) as Hstart.
  unfold convertThis, walkDocument.
  unfold styledConverter in *.
  destruct (materializeStyles _ _) as [this1 unusedCssRules].
  cbn [fst] in Hstart.
  pose proof (mergesSound_topLevel _
                (children (body (removeStyleElements doc))) this1 Hstart)
    as Hwalk.
  destruct (processTopLevel _ this1) as [elementIds this2].
  cbn [snd] in Hwalk.
  assert (Hroot : forall this ids,
             mergesSound (c_styles this1) this ->
             mergesSound (c_styles this1) (fst (chooseRoot this ids))).
  { intros this ids H. unfold chooseRoot.
    destruct ids as [|only [|second rest]]; auto. }
  destruct (advancedCssPartsOf _ _) as [|part parts];
    cbn [w_this w_topLevelChildren]; apply Hroot; auto.
Qed.

(** C8. When [convert] returns, the merge keys recorded are pairwise
    distinct, and every style of the output is the style made from the
    stylesheet with, after its own declaration string, one blank and the
    declaration string of the selector for each key whose target it is:
    the declarations of a selector are appended to a style at most once.
    In [<div><p class="x"></p><p class="x"></p></div>] the selector
    [div p] matches two elements of class [x], and the style [x] gets its
    declarations once. *)
Theorem merge_at_most_once :
  (forall doc css,
      NoDup (c_processedMerges (fst (convertThis doc css)))
      /\ Forall2 (mergedFrom (fst (convertThis doc css)))
                 (outputStyles doc css)
                 (c_styles (styledConverter doc css)))
  /\ map (fun s => (s_name s, s_styleLess s))
         (outputStyles twoMatchingParagraphs
            ".x { color: red; } div p { gap: 4px; }")
     = [("x", "color: red; grid-column-gap: 4px; grid-row-gap: 4px;");
        ("scoped-style-div-p", "grid-column-gap: 4px; grid-row-gap: 4px;")].
Proof.
  split; [|vm_compute; reflexivity].
  intros doc css.
  destruct (mergesSound_convertThis doc css) as (Hnd & _ & _ & _ & Hall).
  split; [exact Hnd|]. now rewrite outputStyles_eq.
Qed.

(* ================================================================== *)
(** * Unused classes *)
(* ================================================================== *)

Lemma setHas_In set x : setHas set x = true <-> In x set.
Proof.
  unfold setHas. rewrite existsb_exists. split.
  - intros [y [Hy Heq]]. apply String.eqb_eq in Heq. now subst.
  - intros H. exists x. split; auto. apply String.eqb_refl.
Qed.

Lemma addUsedClass_used c this x :
  In x (c_usedClasses (addUsedClass c this)) ->
  x = c \/ In x (c_usedClasses this).
Proof.
  unfold addUsedClass. cbn [c_usedClasses].
  destruct (setHas _ _); auto.
  intros H. apply in_app_or in H. destruct H as [H|[<-|[]]]; auto.
Qed.

(** A class is used only if an element of the tree carries it. *)
Lemma collectOwnClasses_used el this x :
  In x (c_usedClasses (collectOwnClasses el this)) ->
  In x (c_usedClasses this) \/ In x (classList el).
Proof.
  unfold collectOwnClasses. destruct (negb _); [|now left].
  assert (H : forall l s,
             incl l (classList el) ->
             (forall y, In y (c_usedClasses s) ->
                        In y (c_usedClasses this) \/ In y (classList el)) ->
             In x (c_usedClasses
                     (fold_left (fun this className =>
                                   addUsedClass className this) l s)) ->
             In x (c_usedClasses this) \/ In x (classList el)).
  { induction l as [|c l IH]; intros s Hl Hs; [apply Hs|].
    cbn [fold_left]. apply IH.
    - intros z Hz. apply Hl. now right.
    - intros y Hy. apply addUsedClass_used in Hy.
      destruct Hy as [->|Hy]; [right; apply Hl; now left|now apply Hs]. }
  apply H; [apply incl_refl|now left].
Qed.

Lemma collectUsedClasses_used el : forall this x,
  In x (c_usedClasses (collectUsedClasses el this)) ->
  In x (c_usedClasses this)
  \/ exists e, In e (allElements el) /\ In x (classList e).
Proof.
  induction el as [t a m o cs IH] using element_induction. intros this x.
  rewrite collectUsedClasses_eq. cbn [childNodes].
  set (el := Element t a m o cs).
  assert (Hloop : forall cs' s,
             Forall (onElement
                       (fun e => forall this x,
                            In x (c_usedClasses (collectUsedClasses e this)) ->
                            In x (c_usedClasses this)
                            \/ exists e', In e' (allElements e)
                                          /\ In x (classList e'))) cs' ->
             (forall e, In (ElementNode e) cs' ->
                        incl (allElements e) (allElements el)) ->
             In x (c_usedClasses (collectFromChildren cs' s)) ->
             In x (c_usedClasses s)
             \/ exists e, In e (allElements el) /\ In x (classList e)).
  { induction cs' as [|c cs' IHcs]; intros s Hall Hincl; [now left|].
    inversion Hall as [|? ? Hc Hall']. subst.
    assert (Hincl' : forall e, In (ElementNode e) cs' ->
                               incl (allElements e) (allElements el))
      by (intros e He; apply Hincl; now right).
    destruct c as [e| |]; cbn [collectFromChildren];
      try (now apply IHcs).
    destruct (entersChild e); [|now apply IHcs].
    intros Hx. apply IHcs in Hx; auto.
    destruct Hx as [Hx|Hx]; [|now right].
    apply Hc in Hx. destruct Hx as [Hx|[e' [He' Hx]]]; [now left|].
    right. exists e'. split; auto. apply (Hincl e); auto. now left. }
  intros Hx. apply Hloop in Hx; auto.
  - destruct Hx as [Hx|Hx]; [|now right].
    apply collectOwnClasses_used in Hx. destruct Hx as [Hx|Hx]; [now left|].
    right. exists el. split; auto. apply allElements_self.
  - intros e He. now apply allElements_child.
Qed.

Lemma processParsedStyle_used acc rule :
  c_usedClasses (fst (processParsedStyle acc rule)) = c_usedClasses (fst acc).
Proof.
  destruct acc as [this unused], rule as [selector styleLess].
  unfold processParsedStyle.
  destruct (isSimpleClass selector); [destruct (setHas _ _)|]; reflexivity.
Qed.

Lemma processParsedStyles_used l : forall acc,
  c_usedClasses (fst (fold_left processParsedStyle l acc))
  = c_usedClasses (fst acc).
Proof.
  induction l as [|r l IH]; intros acc; auto. cbn [fold_left].
  now rewrite IH, processParsedStyle_used.
Qed.

(** Every style is named after a used class or by a generated name. *)
Lemma processParsedStyles_names parsedStyles l : forall acc,
  incl l parsedStyles ->
  (forall s, In s (c_styles (fst acc)) ->
             styleNameFrom (c_usedClasses (fst acc)) parsedStyles (s_name s)) ->
  forall s, In s (c_styles (fst (fold_left processParsedStyle l acc))) ->
            styleNameFrom (c_usedClasses (fst acc)) parsedStyles (s_name s).
Proof.
  induction l as [|[selector styleLess] l IH]; intros acc Hl Hacc; auto.
  cbn [fold_left]. rewrite <- (processParsedStyle_used acc (selector, styleLess)).
  apply IH; [intros r Hr; apply Hl; now right|].
  rewrite processParsedStyle_used.
  assert (Hin : In (selector, styleLess) parsedStyles)
    by (apply Hl; now left).
  destruct acc as [this unused]. cbn [fst] in *.
  unfold processParsedStyle.
  destruct (isSimpleClass selector) eqn:Hsimple;
    [destruct (setHas _ _) eqn:Hused|]; cbn [fst]; auto.
  - unfold addStyle. cbn [uuidv4 c_styles]. intros s Hs.
    apply in_app_or in Hs. destruct Hs as [Hs|[<-|[]]]; auto.
    exists selector, styleLess. split; auto.
  - unfold addStyle, addComplexRule. cbn [uuidv4 c_styles]. intros s Hs.
    apply in_app_or in Hs. destruct Hs as [Hs|[<-|[]]]; auto.
    exists selector, styleLess. split; auto.
Qed.

Lemma styled_names doc css s :
  In s (c_styles (styledConverter doc css)) ->
  styleNameFrom
    (c_usedClasses (collectUsedClasses (walkedBody doc) newConverter))
    (effectiveStyles doc css) (s_name s).
Proof.
  unfold styledConverter, materializeStyles, walkedBody.
  apply (processParsedStyles_names
           (effectiveStyles doc css) (effectiveStyles doc css)
           (collectUsedClasses (body (removeStyleElements doc)) newConverter,
            [])).
  - apply incl_refl.
  - cbn [fst].
    destruct (collectUsedClasses_fields (body (removeStyleElements doc))
                                        newConverter) as (_ & H & _).
    rewrite H. intros s' [].
Qed.

(** A simple class selector whose class is not used goes to
    [unusedCssRules]. *)
Lemma processParsedStyles_keep l : forall acc x,
  In x (snd acc) -> In x (snd (fold_left processParsedStyle l acc)).
Proof.
  induction l as [|[selector styleLess] l IH]; intros acc x Hx; auto.
  cbn [fold_left]. apply IH.
  destruct acc as [this unused]. cbn [snd] in *. unfold processParsedStyle.
  destruct (isSimpleClass selector); [destruct (setHas _ _)|]; cbn [snd];
    auto.
  apply in_or_app. now left.
Qed.

Lemma processParsedStyles_unused l : forall acc selector styleLess,
  In (selector, styleLess) l ->
  isSimpleClass selector = true ->
  setHas (c_usedClasses (fst acc)) (substringFrom 1 selector) = false ->
  In (unusedRuleText selector styleLess)
     (snd (fold_left processParsedStyle l acc)).
Proof.
  induction l as [|[sel' sl'] l IH]; intros acc selector styleLess Hin Hs Hu;
    [destruct Hin|].
  cbn [fold_left]. destruct Hin as [Heq|Hin].
  - inversion Heq. subst. apply processParsedStyles_keep.
    destruct acc as [this unused]. cbn [fst snd] in *.
    unfold processParsedStyle. rewrite Hs, Hu. cbn [snd].
    apply in_or_app. right. now left.
  - apply IH; auto. now rewrite processParsedStyle_used.
Qed.

Lemma join_In sep l x :
  In x l -> exists pre post, join sep l = pre ++ x ++ post.
Proof.
  induction l as [|y l IH]; intros Hin; [destruct Hin|].
  destruct Hin as [->|Hin].
  - destruct l as [|z l].
    + exists "", "". cbn. now rewrite append_empty_r.
    + exists "", (sep ++ join sep (z :: l)). reflexivity.
  - destruct (IH Hin) as [pre [post Heq]].
    destruct l as [|z l]; [destruct Hin|].
    exists (y ++ sep ++ pre), post.
    change (join sep (y :: z :: l)) with (y ++ sep ++ join sep (z :: l)).
    now rewrite Heq, !append_assoc.
Qed.

(** ** The embed of the relocated CSS is a node of the output *)

Lemma visited_In id visited :
  existsb (ident_eqb id) visited = true -> In id visited.
Proof.
  intros H. apply existsb_exists in H. destruct H as [y [Hy Heq]].
  apply ident_eqb_eq in Heq. now subst.
Qed.

(** The node of every identifier visited is in [result]. *)
Lemma addNode_visited depth nodeMap : forall id acc,
  (forall k, In k (fst acc) ->
             forall m, JSMap.get ident_eqb nodeMap k = Some m ->
                       In m (snd acc)) ->
  forall k, In k (fst (addNodeAndChildren depth nodeMap id acc)) ->
            forall m, JSMap.get ident_eqb nodeMap k = Some m ->
                      In m (snd (addNodeAndChildren depth nodeMap id acc)).
Proof.
  induction depth as [|depth IH]; intros id [visited result] Hacc; auto.
  cbn [addNodeAndChildren].
  destruct (existsb _ visited); auto.
  destruct (JSMap.get _ nodeMap id) as [node|] eqn:Hget.
  - assert (Hnext : forall k, In k (visited ++ [id]) ->
                      forall m, JSMap.get ident_eqb nodeMap k = Some m ->
                                In m (result ++ [node])).
    { intros k Hk m Hm. apply in_or_app. apply in_app_or in Hk.
      destruct Hk as [Hk|[<-|[]]].
      - left. now apply (Hacc k).
      - right. left. congruence. }
    destruct (n_children node) as [childIds|]; auto.
    generalize dependent (result ++ [node])%list.
    generalize (visited ++ [id])%list.
    induction childIds as [|c cs IHcs]; intros v r Hvr; auto.
    cbn [fold_left].
    specialize (IH c (v, r) Hvr).
    destruct (addNodeAndChildren depth nodeMap c (v, r)) as [v' r'].
    now apply IHcs.
  - cbn [fst snd] in *. intros k Hk m Hm. apply in_app_or in Hk.
    destruct Hk as [Hk|[<-|[]]]; [now apply (Hacc k)|congruence].
Qed.

(** A node the map has under its own identifier is kept. *)
Lemma reorder_keeps this rootId n :
  In n (c_nodes this) ->
  JSMap.get ident_eqb (nodeMapOf (c_nodes this)) (n_id n) = Some n ->
  In n (reorderNodesWithRootFirst this rootId).
Proof.
  intros Hin Hget. unfold reorderNodesWithRootFirst.
  pose proof (addNode_visited (S (List.length (c_nodes this)))
                (nodeMapOf (c_nodes this)) rootId ([], [])) as Hsound.
  destruct (addNodeAndChildren _ _ _ _) as [visited result].
  cbn [fst snd] in Hsound. apply in_or_app.
  destruct (existsb (ident_eqb (n_id n)) visited) eqn:Hv.
  - left. apply (Hsound (fun k H => match H with end) (n_id n)); auto.
    now apply visited_In.
  - right. apply filter_In. split; auto. now rewrite Hv.
Qed.

Lemma walkDocument_relocated doc css :
  relocatedCss doc css <> [] ->
  exists this2,
    let embedNode :=
      fst (createHtmlEmbed (advancedCssContentOf (relocatedCss doc css))
                           false this2) in
    w_embed (walkDocument doc css) = Some embedNode
    /\ w_this (walkDocument doc css)
       = pushNode embedNode (snd (uuidv4 this2))
    /\ w_topLevelChildren (walkDocument doc css)
       = (w_elementIds (walkDocument doc css) ++ [n_id embedNode])%list.
Proof.
  unfold relocatedCss, unusedRules, walkDocument.
  destruct (materializeStyles _ _) as [this1 unusedCssRules]. cbn [snd].
  destruct (processTopLevel _ this1) as [elementIds this2].
  intros Hparts. exists this2.
  destruct (advancedCssPartsOf _ _) as [|part parts]; [contradiction|].
  cbv zeta. cbn [createHtmlEmbed uuidv4 fst snd w_embed w_this
                 w_topLevelChildren w_elementIds].
  repeat split.
Qed.

Lemma relocated_embed_in_output doc css :
  relocatedCss doc css <> [] ->
  exists embedNode,
    w_embed (walkDocument doc css) = Some embedNode
    /\ In embedNode (outputNodes doc css)
    /\ n_type embedNode = Some (TypeName "HtmlEmbed")
    /\ n_v embedNode = Some (advancedCssContentOf (relocatedCss doc css))
    /\ w_topLevelChildren (walkDocument doc css)
       = (w_elementIds (walkDocument doc css) ++ [n_id embedNode])%list.
Proof.
  intros Hparts.
  destruct (walkDocument_relocated doc css Hparts)
    as [this2 (Hembed & Hthis & Htop)].
  cbv zeta in *. eexists. split; [exact Hembed|].
  split; [|split; [reflexivity|split; [reflexivity|exact Htop]]].
  rewrite outputNodes_eq. unfold convertThis. rewrite Hthis, Htop.
  cbn [createHtmlEmbed uuidv4 fst snd n_id].
  set (embedNode := Node (Uuid (c_uuids this2)) _ _ _ _ _ _ _).
  unfold chooseRoot.
  destruct (w_elementIds (walkDocument doc css)) as [|first others];
    cbn [app].
  - cbn [fst snd]. apply reorder_keeps; cbn [pushNode c_nodes].
    + apply in_or_app. right. now left.
    + apply (nodeMapOf_last _ embedNode).
  - destruct (others ++ [Uuid (c_uuids this2)])%list eqn:Hrest;
      [now destruct others|].
    cbn [uuidv4 fst snd]. apply reorder_keeps; cbn [pushNode c_nodes].
    + apply in_or_app. left. apply in_or_app. right. now left.
    + rewrite nodeMapOf_app.
      rewrite (get_set_other ident_eqb ident_eqb_eq).
      * apply (nodeMapOf_last _ embedNode).
      * cbn. intros H. inversion H. lia.
Qed.

Lemma unused_class_not_used doc className :
  (forall el, In el (allElements (walkedBody doc)) ->
              ~ In className (classList el)) ->
  setHas (c_usedClasses (collectUsedClasses (walkedBody doc) newConverter))
         className = false.
Proof.
  intros Hnone.
  destruct (setHas _ className) eqn:E; auto.
  apply setHas_In, collectUsedClasses_used in E.
  destruct E as [[]|[e [He Hc]]]. now apply Hnone in Hc.
Qed.

Lemma In_map_name (l l0 : list WebflowStyle) s :
  map s_name l = map s_name l0 -> In s l ->
  exists s0, In s0 l0 /\ s_name s0 = s_name s.
Proof.
  intros Heq Hin. apply (in_map s_name) in Hin. rewrite Heq in Hin.
  apply in_map_iff in Hin. destruct Hin as [s0 [Hname Hin0]]. eauto.
Qed.

(** A style is made for every rule whose selector is not a simple
    class. *)
Lemma processParsedStyles_grow l : forall acc s,
  In s (c_styles (fst acc)) ->
  exists s', In s' (c_styles (fst (fold_left processParsedStyle l acc)))
             /\ s_name s' = s_name s /\ s_id s' = s_id s.
Proof.
  induction l as [|[selector styleLess] l IH]; intros acc s Hs; eauto.
  cbn [fold_left]. apply IH.
  destruct acc as [this unused]. cbn [fst] in *. unfold processParsedStyle.
  destruct (isSimpleClass selector); [destruct (setHas _ _)|]; cbn [fst];
    auto; unfold addStyle; cbn [uuidv4 c_styles]; apply in_or_app; now left.
Qed.

Lemma processParsedStyles_eager l : forall acc selector styleLess,
  In (selector, styleLess) l ->
  isSimpleClass selector = false ->
  exists s, In s (c_styles (fst (fold_left processParsedStyle l acc)))
            /\ s_name s = generateClassNameFromSelector selector.
Proof.
  induction l as [|[sel' sl'] l IH]; intros acc selector styleLess Hin Hs;
    [destruct Hin|].
  cbn [fold_left]. destruct Hin as [Heq|Hin]; [|now apply (IH _ _ styleLess)].
  inversion Heq. subst.
  destruct (processParsedStyles_grow l
              (processParsedStyle acc (selector, styleLess))
              (newStyle (Uuid (c_uuids (fst acc)))
                        (generateClassNameFromSelector selector) styleLess))
    as [s' [Hs' [Hname _]]].
  - destruct acc as [this unused]. cbn [fst]. unfold processParsedStyle.
    rewrite Hs. cbn [fst]. unfold addStyle, addComplexRule.
    cbn [uuidv4 c_styles c_uuids]. apply in_or_app. right. now left.
  - exists s'. split; auto.
Qed.

(** C7, as the code has it.  Let a simple class selector of the
    normalized stylesheet have a class that no element of the walked
    markup carries.  Then the rule, selector and declaration string, is
    in the text of an [HtmlEmbed] node of the output, after the label
    [/* Unused Classes */], and that node is the last top-level sibling;
    and no style of the output has the name of the class exactly when no
    other selector of the stylesheet, one that is not a simple class, is
    given that class as its generated name. *)
Theorem unused_class_is_relocated
        (doc : document) (css selector styleLess : string) :
  In (selector, styleLess) (effectiveStyles doc css) ->
  isSimpleClass selector = true ->
  (forall el, In el (allElements (walkedBody doc)) ->
              ~ In (substringFrom 1 selector) (classList el)) ->
  ((forall s, In s (outputStyles doc css) ->
              s_name s <> substringFrom 1 selector)
   <-> (forall selector' styleLess',
           In (selector', styleLess') (effectiveStyles doc css) ->
           isSimpleClass selector' = false ->
           generateClassNameFromSelector selector'
           <> substringFrom 1 selector))
  /\ exists embedNode pre mid post,
      In embedNode (outputNodes doc css)
      /\ n_type embedNode = Some (TypeName "HtmlEmbed")
      /\ n_v embedNode
         = Some (pre ++ "/* Unused Classes */" ++ mid
                     ++ unusedRuleText selector styleLess ++ post)
      /\ w_topLevelChildren (walkDocument doc css)
         = (w_elementIds (walkDocument doc css) ++ [n_id embedNode])%list.
Proof.
  intros Hin Hsimple Hnone.
  pose proof (unused_class_not_used doc _ Hnone) as Hunused.
  destruct (convertThis_built doc css) as [(_ & _ & _ & _ & _ & _ & Hn) _].
  split.
  - split.
    + intros Hstyles selector' styleLess' Hin' Hsimple' Hname.
      destruct (processParsedStyles_eager
                  (effectiveStyles doc css)
                  (collectUsedClasses (body (removeStyleElements doc))
                                      newConverter, [])
                  selector' styleLess' Hin' Hsimple') as [s0 [Hs0 Hname0]].
      fold (materializeStyles (removeStyleElements doc)
                              (effectiveStyles doc css)) in Hs0.
      fold (styledConverter doc css) in Hs0.
      apply (in_map s_name) in Hs0. rewrite <- Hn in Hs0.
      apply in_map_iff in Hs0. destruct Hs0 as [s [Hs_name Hs]].
      apply (Hstyles s); [now rewrite outputStyles_eq|congruence].
    + intros Hfree s Hs Hname. rewrite outputStyles_eq in Hs.
      destruct (In_map_name _ _ s Hn Hs) as [s0 [Hs0 Hname0]].
      apply styled_names in Hs0.
      destruct Hs0 as [sel' [sl' [Hin' [(Hs' & Hn' & Hu')|(Hs' & Hn')]]]].
      * rewrite Hname0, Hname in Hu'. congruence.
      * apply (Hfree sel' sl' Hin' Hs'). congruence.
  - assert (Hrule : In (unusedRuleText selector styleLess)
                       (unusedRules doc css)).
    { unfold unusedRules, materializeStyles.
      apply processParsedStyles_unused; auto. }
    destruct (join_In nl _ _ Hrule) as [pre' [post' Hjoin]].
    assert (Hparts : relocatedCss doc css <> []).
    { unfold relocatedCss, advancedCssPartsOf.
      destruct (unusedRules doc css); [destruct Hrule|].
      now destruct (truthy _). }
    destruct (relocated_embed_in_output doc css Hparts)
      as [embedNode (_ & Hout & Htype & Hv & Htop)].
    assert (Hcontent : exists pre mid post,
               advancedCssContentOf (relocatedCss doc css)
               = pre ++ "/* Unused Classes */" ++ mid
                     ++ unusedRuleText selector styleLess ++ post).
    { unfold advancedCssContentOf, relocatedCss, advancedCssPartsOf.
      generalize (extractAdvancedCss
                    (css ++ nl ++
                     join nl (map textContent
                                  (querySelectorAllStyle
                                     (removeStyleElements doc))))).
      intros advancedCss.
      destruct (unusedRules doc css) as [|u us] eqn:Hu; [destruct Hrule|].
      generalize dependent (join nl (u :: us)). intros joined Hjoin.
      subst joined.
      destruct (truthy advancedCss).
      - exists ("<style>" ++ nl ++ advancedCss ++ nl ++ nl), (nl ++ pre'),
               (post' ++ nl ++ "</style>").
        cbn [app join]. now rewrite !append_assoc.
      - exists ("<style>" ++ nl ++ nl), (nl ++ pre'),
               (post' ++ nl ++ "</style>").
        cbn [app join]. now rewrite !append_assoc. }
    destruct Hcontent as [pre [mid [post Hcontent]]].
    exists embedNode, pre, mid, post.
    rewrite <- Hcontent. auto.
Qed.

Lemma unused_class_is_relocated_witness :
  ((forall s, In s (outputStyles emptyMarkup ".foo { color: red; }") ->
              s_name s <> "foo")
   <-> (forall selector' styleLess',
           In (selector', styleLess')
              (effectiveStyles emptyMarkup ".foo { color: red; }") ->
           isSimpleClass selector' = false ->
           generateClassNameFromSelector selector' <> "foo"))
  /\ exists embedNode pre mid post,
      In embedNode (outputNodes emptyMarkup ".foo { color: red; }")
      /\ n_type embedNode = Some (TypeName "HtmlEmbed")
      /\ n_v embedNode
         = Some (pre ++ "/* Unused Classes */" ++ mid
                     ++ unusedRuleText ".foo" "color: red;" ++ post)
      /\ w_topLevelChildren (walkDocument emptyMarkup ".foo { color: red; }")
         = (w_elementIds (walkDocument emptyMarkup ".foo { color: red; }")
            ++ [n_id embedNode])%list.
Proof.
  apply (unused_class_is_relocated emptyMarkup ".foo { color: red; }"
                                   ".foo" "color: red;").
  - vm_compute. left. reflexivity.
  - reflexivity.
  - intros el Hel. vm_compute in Hel. destruct Hel as [<-|[]].
    vm_compute. intros H. exact H.
Defined.

(** C7, as the claim has it, fails: with the stylesheet
    [.scoped-style-a-b { color: red; } .a .b { color: blue; }] and the
    empty markup, the class of the first rule is carried by no element,
    and yet a style of the output has its name, the one generated for the
    second rule. *)
Lemma unused_class_counterexample :
  In (".scoped-style-a-b", "color: red;")
     (effectiveStyles emptyMarkup
        ".scoped-style-a-b { color: red; } .a .b { color: blue; }")
  /\ isSimpleClass ".scoped-style-a-b" = true
  /\ (forall el, In el (allElements (walkedBody emptyMarkup)) ->
                 ~ In "scoped-style-a-b" (classList el))
  /\ ~ (forall s,
           In s (outputStyles emptyMarkup
                   ".scoped-style-a-b { color: red; } .a .b { color: blue; }") ->
           s_name s <> "scoped-style-a-b").
Proof.
  split; [vm_compute; left; reflexivity|].
  split; [reflexivity|].
  split.
  - intros el Hel. vm_compute in Hel. destruct Hel as [<-|[]].
    vm_compute. intros H. exact H.
  - intros H.
    remember (outputStyles emptyMarkup
                ".scoped-style-a-b { color: red; } .a .b { color: blue; }")
      as out eqn:Hout.
    vm_compute in Hout.
    match type of Hout with
    | _ = [?s] => apply (H s); [rewrite Hout; now left|reflexivity]
    end.
Qed.

(* ================================================================== *)
(** * Styles of selectors that are not simple classes *)
(* ================================================================== *)

Lemma set_In {V : Type} (m : list (string * V)) k v x :
  In x (JSMap.set String.eqb m k v) -> x = (k, v) \/ In x m.
Proof.
  induction m as [|[k' v'] m IH]; cbn [JSMap.set].
  - intros [<-|[]]. now left.
  - destruct (String.eqb k' k) eqn:E.
    + apply String.eqb_eq in E. subst.
      intros [<-|H]; [now left|right; now right].
    + intros [<-|H]; [right; now left|].
      destruct (IH H); [now left|right; now right].
Qed.

(** The rules of [complexRules] are the rules of the stylesheet whose
    selector is not a simple class. *)
Lemma processParsedStyles_rules parsedStyles l : forall acc,
  incl l parsedStyles ->
  (forall r, In r (c_complexRules (fst acc)) ->
             In r parsedStyles /\ isSimpleClass (fst r) = false) ->
  forall r, In r (c_complexRules (fst (fold_left processParsedStyle l acc))) ->
            In r parsedStyles /\ isSimpleClass (fst r) = false.
Proof.
  induction l as [|[selector styleLess] l IH]; intros acc Hl Hacc; auto.
  cbn [fold_left]. apply IH; [intros r Hr; apply Hl; now right|].
  assert (Hin : In (selector, styleLess) parsedStyles)
    by (apply Hl; now left).
  destruct acc as [this unused]. cbn [fst] in *.
  unfold processParsedStyle.
  destruct (isSimpleClass selector) eqn:Hsimple;
    [destruct (setHas _ _)|]; cbn [fst]; auto.
  unfold addStyle, addComplexRule. cbn [uuidv4 c_complexRules].
  intros r Hr. apply set_In in Hr. destruct Hr as [->|Hr]; auto.
Qed.

Lemma styled_rules doc css r :
  In r (c_complexRules (styledConverter doc css)) ->
  In r (effectiveStyles doc css) /\ isSimpleClass (fst r) = false.
Proof.
  unfold styledConverter, materializeStyles.
  apply (processParsedStyles_rules (effectiveStyles doc css)).
  - apply incl_refl.
  - cbn [fst].
    destruct (collectUsedClasses_fields (body (removeStyleElements doc))
                                        newConverter) as (_ & _ & _ & H & _).
    rewrite H. intros r' [].
Qed.

(** ** The style identifiers of a node *)

Lemma addGenerated_source tables this el selector styleLess classIds :
  sameTables tables this ->
  In (selector, styleLess) (c_complexRules tables) ->
  matches el selector = Some true ->
  (forall id, In id classIds -> styleSource tables el id) ->
  forall id, In id (addGenerated this selector classIds) ->
             styleSource tables el id.
Proof.
  intros (Hidmap & _ & _ & Hsel & _) Hin Hmatch Hsrc id.
  unfold addGenerated. rewrite Hidmap, Hsel.
  destruct (JSMap.get _ (c_selectorToClassMap tables) selector)
    as [generatedName|] eqn:Hname; auto.
  destruct (truthy generatedName); auto.
  destruct (JSMap.get _ (c_styleIdMap tables) generatedName)
    as [styleId|] eqn:Hid; auto.
  destruct (truthyId styleId && _); auto.
  intros H. apply in_app_or in H. destruct H as [H|[<-|[]]]; auto.
  right. exists selector, styleLess, generatedName. auto.
Qed.

Lemma applyRules_source tables el rules : forall classIds this,
  sameTables tables this ->
  incl rules (c_complexRules tables) ->
  (forall id, In id classIds -> styleSource tables el id) ->
  forall id,
    In id (fst (fold_left (applyComplexRule el) rules (classIds, this))) ->
    styleSource tables el id.
Proof.
  induction rules as [|[selector styleLess] rules IH];
    intros classIds this Ht Hrules Hsrc; auto.
  cbn [fold_left].
  assert (Hhead : In (selector, styleLess) (c_complexRules tables))
    by (apply Hrules; now left).
  assert (Htail : incl rules (c_complexRules tables))
    by (intros r Hr; apply Hrules; now right).
  unfold applyComplexRule at 2.
  destruct (matches el selector) as [[|]|] eqn:Hmatch;
    try (now apply IH).
  destruct classIds as [|target others].
  - apply IH; auto.
    eapply addGenerated_source; eauto.
  - apply IH; auto. now apply sameTables_merge.
Qed.

Lemma resolveClassIds_source tables el this id :
  sameTables tables this ->
  In id (fst (resolveClassIds el this)) -> styleSource tables el id.
Proof.
  intros Ht. unfold resolveClassIds.
  pose proof Ht as (Hidmap & _ & Hrules & _).
  apply applyRules_source; auto.
  - rewrite Hrules. apply incl_refl.
  - intros id' Hid'. left. unfold classStyleIds in Hid'.
    apply in_flat_map in Hid'. destruct Hid' as [className [Hc Hid']].
    exists className. split; auto. rewrite <- Hidmap.
    destruct (JSMap.get _ _ className) as [styleId|]; [|destruct Hid'].
    destruct (truthyId styleId); [|destruct Hid'].
    destruct Hid' as [<-|[]]. reflexivity.
Qed.

Lemma same_id_same_name (l l0 : list WebflowStyle) s s0 :
  map s_id l = map s_id l0 -> map s_name l = map s_name l0 ->
  NoDup (map s_id l0) ->
  In s l -> In s0 l0 -> s_id s0 = s_id s -> s_name s0 = s_name s.
Proof.
  intros Hids Hnames Hnd Hs Hs0 Heq.
  apply In_nth_error in Hs. destruct Hs as [j Hj].
  apply In_nth_error in Hs0. destruct Hs0 as [i Hi].
  assert (Hidj : nth_error (map s_id l0) j = Some (s_id s))
    by (now rewrite <- Hids, nth_error_map, Hj).
  assert (Hnamej : nth_error (map s_name l0) j = Some (s_name s))
    by (now rewrite <- Hnames, nth_error_map, Hj).
  assert (Hidi : nth_error (map s_id l0) i = Some (s_id s0))
    by (now rewrite nth_error_map, Hi).
  assert (Hij : i = j).
  { apply (proj1 (NoDup_nth_error (map s_id l0)) Hnd).
    - apply nth_error_Some. congruence.
    - congruence. }
  subst i. rewrite nth_error_map, Hi in Hnamej. cbn in Hnamej. congruence.
Qed.

Lemma replaceFirst_Bol by_ s : replaceFirst Bol by_ s = by_ ++ s.
Proof.
  unfold replaceFirst, exec. cbn [Nat.ltb Nat.leb substringFrom].
  destruct s; reflexivity.
Qed.

Lemma generated_name_shape selector :
  if test commonTagRegex selector
  then generateClassNameFromSelector selector = "custom-styled-" ++ selector
  else startsWith (generateClassNameFromSelector selector) "scoped-style-"
       = true.
Proof.
  unfold generateClassNameFromSelector.
  destruct (test commonTagRegex selector); [reflexivity|].
  rewrite replaceFirst_Bol. apply startsWith_append.
Qed.

(** C10, as the code has it.  For a selector of the normalized
    stylesheet that is not a simple class, a style with the generated
    name is in the output, whatever the markup: [custom-styled-] and the
    selector when [commonTagRegex] accepts it, a name that starts with
    [scoped-style-] otherwise.  When no element of the walked markup
    carries that name as a class, and no element matches a selector of
    the stylesheet that is given that name, no node of the output refers
    to a style of that name. *)
Theorem generated_style_is_made
        (doc : document) (css selector styleLess : string) :
  In (selector, styleLess) (effectiveStyles doc css) ->
  isSimpleClass selector = false ->
  (exists s, In s (outputStyles doc css)
             /\ s_name s = generateClassNameFromSelector selector)
  /\ (if test commonTagRegex selector
      then generateClassNameFromSelector selector
           = "custom-styled-" ++ selector
      else startsWith (generateClassNameFromSelector selector)
                      "scoped-style-" = true)
  /\ ((forall el, In el (allElements (walkedBody doc)) ->
                  ~ In (generateClassNameFromSelector selector)
                       (classList el)) ->
      (forall selector' styleLess' el,
          In (selector', styleLess') (effectiveStyles doc css) ->
          isSimpleClass selector' = false ->
          generateClassNameFromSelector selector'
          = generateClassNameFromSelector selector ->
          In el (allElements (walkedBody doc)) ->
          matches el selector' <> Some true) ->
      forall s n,
        In s (outputStyles doc css) ->
        s_name s = generateClassNameFromSelector selector ->
        In n (outputNodes doc css) ->
        ~ In (s_id s) (classIdsOf n)).
Proof.
  intros Hin Hsimple.
  destruct (convertThis_built doc css)
    as [(_ & _ & _ & _ & _ & Hids & Hnames) _].
  split; [|split; [apply generated_name_shape|]].
  - destruct (processParsedStyles_eager
                (effectiveStyles doc css)
                (collectUsedClasses (body (removeStyleElements doc))
                                    newConverter, [])
                selector styleLess Hin Hsimple) as [s0 [Hs0 Hname0]].
    fold (materializeStyles (removeStyleElements doc)
                            (effectiveStyles doc css)) in Hs0.
    fold (styledConverter doc css) in Hs0.
    apply (in_map s_name) in Hs0. rewrite <- Hnames in Hs0.
    apply in_map_iff in Hs0. destruct Hs0 as [s [Hname Hs]].
    exists s. rewrite outputStyles_eq. split; auto. congruence.
  - intros Hclass Hmatch s n Hs Hname Hn Href.
    rewrite outputStyles_eq in Hs.
    pose proof (stylesMade_styled doc css)
      as (_ & Hnd & _ & _ & _ & Hidmap & Hselmap).
    assert (Hnamed : forall name,
               JSMap.get String.eqb (c_styleIdMap (styledConverter doc css))
                         name = Some (s_id s) ->
               name = generateClassNameFromSelector selector).
    { intros name Hget.
      destruct (Hidmap name _ Hget) as [s0 [Hs0 [Hid0 Hname0]]].
      rewrite <- Hname0, <- Hname.
      now apply (same_id_same_name _ _ s s0 Hids Hnames Hnd). }
    apply outputNodes_built in Hn.
    destruct Hn as [id v ->|id c sc ->|id cs ->|el this Hel Ht _ Hcl _ _];
      try (now destruct Href).
    unfold classIdsOf in Href. rewrite Hcl in Href.
    apply (resolveClassIds_source (styledConverter doc css)) in Href; auto.
    destruct Href as [[className [Hc Hget]]
                     |[sel' [sl' [g [Hrule [Hm [Hg Hget]]]]]]].
    + apply Hnamed in Hget. subst className. now apply (Hclass el).
    + apply Hnamed in Hget. apply Hselmap in Hg.
      apply styled_rules in Hrule. destruct Hrule as [Hrule Hns].
      apply (Hmatch sel' sl' el); auto. congruence.
Qed.

Lemma generated_style_is_made_witness :
  exists s, In s (outputStyles emptyMarkup "p > a { color: red; }")
            /\ s_name s = generateClassNameFromSelector "p > a".
Proof.
  refine (proj1 (generated_style_is_made emptyMarkup "p > a { color: red; }"
                   "p > a" "color: red;" _ _)).
  - vm_compute. left. reflexivity.
  - reflexivity.
Defined.

(** C10, as the claim has it, fails: in
    [<div class="custom-styled-p"></div>] with the stylesheet
    [p { color: red; }] no element matches [p], and the node of the
    [div] refers to the style made for [p]. *)
Lemma never_matched_counterexample :
  In ("p", "color: red;")
     (effectiveStyles divNamedLikeGenerated "p { color: red; }")
  /\ isSimpleClass "p" = false
  /\ (forall el, In el (allElements (walkedBody divNamedLikeGenerated)) ->
                 matches el "p" <> Some true)
  /\ exists s n,
      In s (outputStyles divNamedLikeGenerated "p { color: red; }")
      /\ s_name s = generateClassNameFromSelector "p"
      /\ In n (outputNodes divNamedLikeGenerated "p { color: red; }")
      /\ In (s_id s) (classIdsOf n).
Proof.
  split; [vm_compute; left; reflexivity|].
  split; [reflexivity|].
  split.
  - intros el Hel. vm_compute in Hel.
    destruct Hel as [<-|[<-|[]]]; discriminate.
  - remember (outputStyles divNamedLikeGenerated "p { color: red; }")
      as sts eqn:Hsts.
    remember (outputNodes divNamedLikeGenerated "p { color: red; }")
      as out eqn:Hout.
    vm_compute in Hsts. vm_compute in Hout.
    match type of Hsts with
    | _ = [?s] =>
        match type of Hout with
        | _ = [?n] => exists s, n
        end
    end.
    subst. split; [now left|]. split; [vm_compute; reflexivity|].
    split; [now left|]. now left.
Qed.

(* ================================================================== *)
(** * The depth of the traversal *)
(* ================================================================== *)

Lemma filter_length_le {A : Type} (p q : A -> bool) l :
  (forall x, p x = true -> q x = true) ->
  List.length (filter p l) <= List.length (filter q l).
Proof.
  intros Hpq. induction l as [|a l IH]; cbn [filter]; auto.
  destruct (p a) eqn:Hp.
  - rewrite (Hpq a Hp). cbn. lia.
  - destruct (q a); cbn; lia.
Qed.

Lemma filter_length_lt {A : Type} (p q : A -> bool) l a :
  (forall x, p x = true -> q x = true) ->
  In a l -> q a = true -> p a = false ->
  List.length (filter p l) < List.length (filter q l).
Proof.
  intros Hpq. induction l as [|b l IH]; intros Hin Hq Hp; [destruct Hin|].
  cbn [filter]. destruct Hin as [->|Hin].
  - rewrite Hq, Hp. cbn.
    pose proof (filter_length_le p q l Hpq). lia.
  - specialize (IH Hin Hq Hp). destruct (p b) eqn:Hpb.
    + rewrite (Hpq b Hpb). cbn. lia.
    + destruct (q b); cbn; lia.
Qed.

Lemma existsb_ident_app k v w :
  existsb (ident_eqb k) v = true -> existsb (ident_eqb k) (v ++ w) = true.
Proof. rewrite existsb_app. intros ->. reflexivity. Qed.

Lemma unvisited_more nodeMap v w :
  unvisited nodeMap (v ++ w) <= unvisited nodeMap v.
Proof.
  unfold unvisited. apply filter_length_le. intros k Hk.
  apply negb_true_iff in Hk. apply negb_true_iff.
  destruct (existsb (ident_eqb k) v) eqn:E; auto.
  apply (existsb_ident_app k v w) in E. congruence.
Qed.

Lemma unvisited_visit nodeMap v id node :
  JSMap.get ident_eqb nodeMap id = Some node ->
  existsb (ident_eqb id) v = false ->
  unvisited nodeMap (v ++ [id]) < unvisited nodeMap v.
Proof.
  intros Hget Hv. unfold unvisited.
  apply filter_length_lt with (a := id).
  - intros k Hk. apply negb_true_iff in Hk. apply negb_true_iff.
    destruct (existsb (ident_eqb k) v) eqn:E; auto.
    apply (existsb_ident_app k v [id]) in E. congruence.
  - apply (get_In ident_eqb ident_eqb_eq) in Hget.
    now apply (in_map fst) in Hget.
  - now rewrite Hv.
  - rewrite existsb_app. cbn. now rewrite ident_eqb_refl, orb_true_r.
Qed.

(** The traversal is the same at every depth above the number of
    identifiers left to visit. *)
Lemma addNode_fuel nodeMap : forall d d' id acc,
  unvisited nodeMap (fst acc) < d ->
  unvisited nodeMap (fst acc) < d' ->
  addNodeAndChildren d nodeMap id acc = addNodeAndChildren d' nodeMap id acc.
Proof.
  induction d as [|d IH]; intros d' id [visited result] Hd Hd'; [lia|].
  destruct d' as [|d']; [lia|].
  cbn [fst] in *. cbn [addNodeAndChildren].
  destruct (existsb _ visited) eqn:Hv; auto.
  destruct (JSMap.get _ nodeMap id) as [node|] eqn:Hget; auto.
  destruct (n_children node) as [childIds|]; auto.
  pose proof (unvisited_visit nodeMap visited id node Hget Hv) as Hlt.
  assert (Hfold : forall cs acc,
             unvisited nodeMap (fst acc) < d ->
             unvisited nodeMap (fst acc) < d' ->
             fold_left (fun acc childId =>
                          addNodeAndChildren d nodeMap childId acc) cs acc
             = fold_left (fun acc childId =>
                            addNodeAndChildren d' nodeMap childId acc)
                         cs acc).
  { induction cs as [|c cs IHcs]; intros acc H1 H2; auto.
    cbn [fold_left]. rewrite <- (IH d' c acc H1 H2).
    destruct (addNode_grows d nodeMap c acc) as [[more Hmore] _].
    apply IHcs; rewrite Hmore;
      pose proof (unvisited_more nodeMap (fst acc) more); lia. }
  apply Hfold; cbn [fst]; lia.
Qed.

Lemma nodeMapOf_length l : List.length (nodeMapOf l) <= List.length l.
Proof.
  assert (Hset : forall (m : list (ident * WebflowNode)) k v,
             List.length (JSMap.set ident_eqb m k v) <= S (List.length m)).
  { induction m as [|[k' v'] m IH]; intros k v; cbn [JSMap.set]; auto.
    destruct (ident_eqb k' k); cbn [List.length]; auto.
    specialize (IH k v). lia. }
  induction l as [|x l IH] using rev_ind; auto.
  rewrite nodeMapOf_app, length_app. cbn [List.length].
  specialize (Hset (nodeMapOf l) (n_id x) x). lia.
Qed.

(** The depth [reorderNodesWithRootFirst] allows is never reached: a
    greater depth gives the same traversal. *)
Lemma reorder_depth_enough this rootId depth :
  List.length (c_nodes this) < depth ->
  addNodeAndChildren depth (nodeMapOf (c_nodes this)) rootId ([], [])
  = addNodeAndChildren (S (List.length (c_nodes this)))
                       (nodeMapOf (c_nodes this)) rootId ([], []).
Proof.
  intros Hdepth.
  assert (Hu : unvisited (nodeMapOf (c_nodes this)) []
               <= List.length (c_nodes this)).
  { unfold unvisited.
    rewrite (filter_length_le _ (fun _ => true)) by auto.
    assert (Hall : forall l : list ident, filter (fun _ => true) l = l).
    { induction l as [|a l IHl]; cbn; congruence. }
    rewrite Hall, length_map. apply nodeMapOf_length. }
  apply addNode_fuel; cbn [fst]; lia.
Qed.

(* ================================================================== *)
(** * The nodes the walk adds, with their identifiers *)
(* ================================================================== *)

Lemma resolvesIn_incl (l l' : list WebflowNode) id :
  incl l l' -> resolvesIn l id -> resolvesIn l' id.
Proof. intros Hl [n [Hn Hid]]. exists n. split; auto. Qed.

Lemma madeNode_weaken lo hi pool lo' hi' pool' n :
  lo' <= lo -> hi <= hi' -> incl pool pool' ->
  madeNode lo hi pool n -> madeNode lo' hi' pool' n.
Proof.
  intros Hlo Hhi Hpool (j & Hid & Hj & Hch & Htext).
  exists j. repeat split; auto; try lia.
  intros c Hc. destruct (Hch c Hc) as [->|(k & Hk & Hlt & Hres)];
    [now left|right].
  exists k. repeat split; auto. eapply resolvesIn_incl; eauto.
Qed.

Lemma madeNode_id lo hi pool n :
  madeNode lo hi pool n -> exists j, n_id n = Uuid j /\ lo <= j < hi.
Proof. intros (j & Hid & Hj & _). eauto. Qed.

Lemma adds_refl a : adds a a [].
Proof.
  unfold adds. rewrite app_nil_r. repeat split; auto. constructor.
Qed.

Lemma adds_same a b :
  c_nodes b = c_nodes a -> c_uuids a <= c_uuids b -> adds a b [].
Proof.
  intros Hn Hu. unfold adds. rewrite app_nil_r.
  repeat split; auto. constructor.
Qed.

Lemma NoDup_app_disjoint {A : Type} (l l' : list A) :
  NoDup l -> NoDup l' -> (forall x, In x l -> ~ In x l') -> NoDup (l ++ l').
Proof.
  induction l as [|a l IH]; intros Hl Hl' Hdisj; auto.
  inversion Hl as [|? ? Ha Hl0]. subst. cbn [app]. constructor.
  - intros Hin. apply in_app_or in Hin. destruct Hin as [Hin|Hin]; auto.
    apply (Hdisj a); auto. now left.
  - apply IH; auto. intros x Hx. apply Hdisj. now right.
Qed.

Lemma adds_trans a b c x y :
  adds a b x -> adds b c y -> adds a c (x ++ y).
Proof.
  intros (Hn1 & Hu1 & Hx & Hd1) (Hn2 & Hu2 & Hy & Hd2).
  unfold adds. split; [now rewrite Hn2, Hn1, app_assoc|].
  split; [lia|]. split.
  - apply Forall_app. split.
    + eapply Forall_impl; [|exact Hx]. intros n.
      apply madeNode_weaken; auto. apply incl_appl, incl_refl.
    + eapply Forall_impl; [|exact Hy]. intros n.
      apply madeNode_weaken; auto. apply incl_appr, incl_refl.
  - rewrite map_app. apply NoDup_app_disjoint; auto.
    intros id Hin1 Hin2.
    apply in_map_iff in Hin1. destruct Hin1 as [n1 [Hid1 Hn1in]].
    apply in_map_iff in Hin2. destruct Hin2 as [n2 [Hid2 Hn2in]].
    rewrite Forall_forall in Hx, Hy.
    destruct (madeNode_id _ _ _ _ (Hx n1 Hn1in)) as (j1 & Hj1 & Hr1).
    destruct (madeNode_id _ _ _ _ (Hy n2 Hn2in)) as (j2 & Hj2 & Hr2).
    assert (Uuid j1 = Uuid j2) by congruence.
    assert (j1 = j2) by congruence. lia.
Qed.

(** A node whose identifier was drawn first and which is pushed after
    the nodes it lists. *)
Lemma adds_wrap t0 t2 inner n :
  adds (snd (uuidv4 t0)) t2 inner ->
  n_id n = Uuid (c_uuids t0) ->
  (forall c, In c (childIdsOf n) -> handedFrom inner c) ->
  (n_text n = Some true ->
   exists v, n_v n = Some v /\ truthy v = true /\ trim v = v) ->
  adds t0 (pushNode n t2) (inner ++ [n]).
Proof.
  intros (Hn & Hu & Hin & Hd) Hid Hch Htext. cbn [uuidv4 snd] in *.
  cbn [c_nodes c_uuids] in Hn, Hu, Hin.
  rewrite Forall_forall in Hin.
  unfold adds. cbn [pushNode c_nodes c_uuids].
  split; [now rewrite Hn, app_assoc|]. split; [lia|]. split.
  - apply Forall_app. split.
    + apply Forall_forall. intros m Hm.
      apply (madeNode_weaken (S (c_uuids t0)) (c_uuids t2) inner);
        [lia|lia|apply incl_appl, incl_refl|exact (Hin m Hm)].
    + constructor; [|constructor].
      exists (c_uuids t0). split; auto. split; [lia|]. split; auto.
      intros c Hc. destruct (Hch c Hc) as [->|Hres]; [now left|right].
      destruct Hres as [m [Hm Hmid]].
      destruct (madeNode_id _ _ _ _ (Hin m Hm)) as (k & Hk & Hr).
      exists k. split; [congruence|]. split; [lia|].
      exists m. split; auto. apply in_or_app. now left.
  - rewrite map_app. cbn [map]. apply NoDup_snoc; auto.
    intros Hx. apply in_map_iff in Hx. destruct Hx as [m [Hmid Hm]].
    destruct (madeNode_id _ _ _ _ (Hin m Hm)) as (k & Hk & Hr).
    assert (Uuid k = Uuid (c_uuids t0)) by congruence.
    assert (k = c_uuids t0) by congruence. lia.
Qed.

Lemma mergeInto_uuids t sel sl this :
  c_uuids (mergeInto t sel sl this) = c_uuids this.
Proof.
  unfold mergeInto.
  destruct (existsb _ _); auto.
  destruct (JSMap.get _ _ _); auto.
Qed.

Lemma resolveClassIds_uuids el this :
  c_uuids (snd (resolveClassIds el this)) = c_uuids this.
Proof.
  apply (resolveClassIds_preserves (fun s => c_uuids s = c_uuids this)); auto.
  intros s t sel sl H _. now rewrite mergeInto_uuids.
Qed.

Lemma adds_resolve el this : adds this (snd (resolveClassIds el this)) [].
Proof.
  apply adds_same; [apply resolveClassIds_nodes|].
  rewrite resolveClassIds_uuids. lia.
Qed.

Lemma adds_uuid this : adds this (snd (uuidv4 this)) [].
Proof. apply adds_same; cbn; auto. Qed.

Lemma adds_dataOf type el this : adds this (snd (dataOf type el this)) [].
Proof.
  unfold dataOf. destruct (isType type "Image"); cbn [snd].
  - apply adds_uuid.
  - apply adds_refl.
Qed.

Lemma handedFrom_incl (l l' : list WebflowNode) id :
  incl l l' -> handedFrom l id -> handedFrom l' id.
Proof.
  intros Hl [->|H]; [now left|right]. eapply resolvesIn_incl; eauto.
Qed.

Lemma resolvesIn_last l n : resolvesIn (l ++ [n]) (n_id n).
Proof. exists n. split; auto. apply in_or_app. right. now left. Qed.

Lemma adds_node this1 this2 inner n :
  adds (snd (uuidv4 this1)) this2 inner ->
  n_id n = Uuid (c_uuids this1) ->
  (forall c, In c (childIdsOf n) -> handedFrom inner c) ->
  n_text n = None ->
  adds this1 (pushNode n this2) (inner ++ [n])
  /\ handedFrom (inner ++ [n]) (n_id n).
Proof.
  intros Hadds Hid Hch Htext. split.
  - apply adds_wrap; auto. rewrite Htext. discriminate.
  - right. apply resolvesIn_last.
Qed.

Lemma walkChildren_adds cs :
  Forall (onElement
            (fun el => forall this,
                 exists added,
                   adds this (snd (processElement el this)) added
                   /\ handedFrom added (fst (processElement el this)))) cs ->
  forall this,
    exists added,
      adds this (snd (walkChildren cs this)) added
      /\ Forall (handedFrom added) (fst (walkChildren cs this)).
Proof.
  induction 1 as [|c cs Hc _ IH]; intros this.
  - exists []. split; [apply adds_refl|constructor].
  - destruct c as [e|text|]; cbn [walkChildren]; auto.
    + destruct (Hc this) as [added1 [H1 Hid]].
      destruct (processElement e this) as [childId this1].
      cbn [fst snd] in *.
      destruct (IH this1) as [added2 [H2 Hids]].
      destruct (walkChildren cs this1) as [childIds this2].
      cbn [fst snd] in *.
      exists (added1 ++ added2)%list. split; [eapply adds_trans; eauto|].
      constructor.
      * eapply handedFrom_incl; [|exact Hid]. apply incl_appl, incl_refl.
      * eapply Forall_impl; [|exact Hids]. intros id.
        apply handedFrom_incl. apply incl_appr, incl_refl.
    + destruct (truthy (trim text)) eqn:Htruthy; auto.
      cbn [uuidv4].
      set (node := textNode (Uuid (c_uuids this)) (trim text)).
      assert (H1 : adds this (pushNode node (snd (uuidv4 this)))
                        ([] ++ [node])).
      { apply adds_wrap; auto.
        - apply adds_refl.
        - intros c [].
        - intros _. exists (trim text). split; [reflexivity|].
          split; [exact Htruthy|apply trim_idem]. }
      cbn [uuidv4 snd app] in H1.
      destruct (IH (pushNode node (snd (uuidv4 this))))
        as [added2 [H2 Hids]].
      cbn [uuidv4 snd] in H2, Hids.
      destruct (walkChildren cs _) as [childIds this2].
      cbn [fst snd] in *.
      exists ([node] ++ added2)%list. split; [eapply adds_trans; eauto|].
      constructor.
      * right. exists node. split; [now left|reflexivity].
      * eapply Forall_impl; [|exact Hids]. intros id.
        apply handedFrom_incl. apply incl_appr, incl_refl.
Qed.

Lemma hoistChildren_adds cs :
  Forall (onElement
            (fun el => forall this,
                 exists added,
                   adds this (snd (processElement el this)) added
                   /\ handedFrom added (fst (processElement el this)))) cs ->
  forall this,
    exists added,
      adds this (snd (hoistChildren cs this)) added
      /\ Forall (handedFrom added) (fst (hoistChildren cs this)).
Proof.
  induction 1 as [|c cs Hc _ IH]; intros this.
  - exists []. split; [apply adds_refl|constructor].
  - destruct c as [e|text|]; cbn [hoistChildren]; auto.
    destruct (Hc this) as [added1 [H1 Hid]].
    destruct (processElement e this) as [childId this1].
    cbn [fst snd] in *.
    destruct (IH this1) as [added2 [H2 Hids]].
    destruct (hoistChildren cs this1) as [childIds this2].
    cbn [fst snd] in *.
    exists (added1 ++ added2)%list. split; [eapply adds_trans; eauto|].
    assert (Htail : Forall (handedFrom (added1 ++ added2)) childIds).
    { eapply Forall_impl; [|exact Hids]. intros id.
      apply handedFrom_incl. apply incl_appr, incl_refl. }
    destruct (truthyId childId); auto.
    constructor; auto.
    eapply handedFrom_incl; [|exact Hid]. apply incl_appl, incl_refl.
Qed.

Lemma adds_push_result this0 this1 this2 before inner n :
  adds this0 this1 [] ->
  adds (snd (uuidv4 this1)) this2 before ->
  before = inner ->
  n_id n = Uuid (c_uuids this1) ->
  (forall c, In c (childIdsOf n) -> handedFrom inner c) ->
  n_text n = None ->
  exists added,
    adds this0 (pushNode n this2) added /\ handedFrom added (n_id n).
Proof.
  intros H0 H1 -> Hid Hch Htext.
  destruct (adds_node this1 this2 inner n H1 Hid Hch Htext) as [H2 Hn].
  exists (inner ++ [n])%list. split; [|exact Hn].
  exact (adds_trans _ _ _ _ _ H0 H2).
Qed.

Lemma processElementWith_adds hoist walk el this :
  (forall this, exists added,
        adds this (snd (hoist this)) added
        /\ Forall (handedFrom added) (fst (hoist this))) ->
  (forall this, exists added,
        adds this (snd (walk this)) added
        /\ Forall (handedFrom added) (fst (walk this))) ->
  exists added,
    adds this (snd (processElementWith hoist walk el this)) added
    /\ handedFrom added (fst (processElementWith hoist walk el this)).
Proof.
  intros Hh Hw. unfold processElementWith.
  destruct (setHas IGNORED_TAGS _).
  { destruct (Hh this) as [added [H1 Hids]].
    destruct (hoist this) as [childIds this1]. cbn [fst snd] in *.
    exists added. split; auto.
    destruct Hids as [|id ids Hid _]; [now left|exact Hid]. }
  assert (Hembed : forall isScript,
             exists added,
               adds this
                    (snd (let '(embedNode, this0) :=
                            createHtmlEmbed (outerHTML el) isScript this in
                          (n_id embedNode, pushNode embedNode this0)))
                    added
               /\ handedFrom added
                    (fst (let '(embedNode, this0) :=
                            createHtmlEmbed (outerHTML el) isScript this in
                          (n_id embedNode, pushNode embedNode this0)))).
  { intros isScript. cbn [createHtmlEmbed uuidv4 fst snd].
    match goal with
    | |- context [pushNode ?n ?s] =>
        apply (adds_push_result this this s [] [] n)
    end; auto; try apply adds_refl. intros c []. }
  destruct (String.eqb _ "script"); [apply Hembed|].
  destruct (String.eqb _ "svg"); [apply Hembed|].
  clear Hembed.
  pose proof (adds_resolve el this) as H1.
  destruct (resolveClassIds el this) as [classIds this1]. cbn [snd] in H1.
  destruct (TAG_MAP _) as [type|].
  - cbn [uuidv4].
    pose proof (adds_dataOf type el (snd (uuidv4 this1))) as H3.
    cbn [uuidv4 snd] in H3.
    destruct (dataOf type el _) as [data this3]. cbn [snd] in H3.
    destruct (isType type "Section");
      [destruct (negb (hasBlockWrapper el) && _)|].
    + cbn [uuidv4].
      destruct (Hw (snd (uuidv4 this3))) as [added [H5 Hids]].
      cbn [uuidv4 snd] in H5, Hids.
      destruct (walk _) as [childIds this5]. cbn [fst snd] in *.
      destruct (adds_node this3 this5 added
                  (blockNode (Uuid (c_uuids this3)) childIds))
        as [H6 Hwrapper]; auto.
      { intros c Hc. rewrite Forall_forall in Hids. now apply Hids. }
      pose proof (adds_trans _ _ _ _ _ H3 H6) as H7.
      cbv zeta.
      match goal with
      | |- context [pushNode ?n ?s] =>
          apply (adds_push_result this this1 s _ _ n H1 H7 eq_refl)
      end; auto.
      intros c [<-|[]]. exact Hwrapper.
    + destruct (Hw this3) as [added [H5 Hids]].
      destruct (walk this3) as [childIds this5]. cbn [fst snd] in *.
      pose proof (adds_trans _ _ _ _ _ H3 H5) as H7.
      cbv zeta.
      match goal with
      | |- context [pushNode ?n ?s] =>
          apply (adds_push_result this this1 s _ _ n H1 H7 eq_refl)
      end; auto.
      intros c Hc. rewrite Forall_forall in Hids. now apply Hids.
    + destruct (Hw this3) as [added [H5 Hids]].
      destruct (walk this3) as [childIds this5]. cbn [fst snd] in *.
      pose proof (adds_trans _ _ _ _ _ H3 H5) as H7.
      cbv zeta.
      match goal with
      | |- context [pushNode ?n ?s] =>
          apply (adds_push_result this this1 s _ _ n H1 H7 eq_refl)
      end; auto.
      intros c Hc. rewrite Forall_forall in Hids. now apply Hids.
  - cbn [uuidv4].
    destruct (Hw (snd (uuidv4 this1))) as [added [H5 Hids]].
    cbn [uuidv4 snd] in H5, Hids.
    destruct (walk _) as [childIds this5]. cbn [fst snd] in *.
    cbv zeta.
    match goal with
    | |- context [pushNode ?n ?s] =>
        apply (adds_push_result this this1 s _ _ n H1 H5 eq_refl)
    end; auto.
    intros c Hc. rewrite Forall_forall in Hids. now apply Hids.
Qed.

Lemma processElement_adds el :
  forall this,
    exists added,
      adds this (snd (processElement el this)) added
      /\ handedFrom added (fst (processElement el this)).
Proof.
  induction el as [t a m o cs IH] using element_induction.
  intros this. rewrite processElement_eq. cbn [childNodes].
  apply processElementWith_adds.
  - now apply hoistChildren_adds.
  - now apply walkChildren_adds.
Qed.

Lemma processTopLevel_adds els : forall this,
  exists added,
    adds this (snd (processTopLevel els this)) added
    /\ Forall (fun id => truthyId id = true /\ resolvesIn added id)
              (fst (processTopLevel els this)).
Proof.
  induction els as [|el els IH]; intros this.
  - exists []. split; [apply adds_refl|constructor].
  - cbn [processTopLevel].
    destruct (processElement_adds el this) as [added1 [H1 Hid]].
    destruct (processElement el this) as [childId this1].
    cbn [fst snd] in *.
    destruct (IH this1) as [added2 [H2 Hids]].
    destruct (processTopLevel els this1) as [childIds this2].
    cbn [fst snd] in *.
    exists (added1 ++ added2)%list. split; [eapply adds_trans; eauto|].
    assert (Htail : Forall (fun id => truthyId id = true
                                      /\ resolvesIn (added1 ++ added2) id)
                           childIds).
    { eapply Forall_impl; [|exact Hids]. intros id [Ht Hr]. split; auto.
      eapply resolvesIn_incl; [|exact Hr]. apply incl_appr, incl_refl. }
    destruct (truthyId childId) eqn:Ht; auto.
    constructor; auto. split; auto.
    destruct Hid as [->|Hr]; [discriminate|].
    eapply resolvesIn_incl; [|exact Hr]. apply incl_appl, incl_refl.
Qed.

(* ================================================================== *)
(** * The reordering keeps the nodes *)
(* ================================================================== *)

Lemma not_visited id visited :
  existsb (ident_eqb id) visited = false -> ~ In id visited.
Proof.
  intros H Hin.
  assert (Ht : existsb (ident_eqb id) visited = true).
  { apply existsb_exists. exists id. split; auto. apply ident_eqb_refl. }
  congruence.
Qed.

Lemma NoDup_ids_inj (l : list WebflowNode) a b :
  NoDup (map n_id l) -> In a l -> In b l -> n_id a = n_id b -> a = b.
Proof.
  induction l as [|x l IH]; intros Hnd Ha Hb Heq; [destruct Ha|].
  cbn [map] in Hnd. inversion Hnd as [|? ? Hx Hl]. subst.
  destruct Ha as [->|Ha], Hb as [->|Hb]; auto.
  - exfalso. apply Hx. rewrite Heq. now apply in_map.
  - exfalso. apply Hx. rewrite <- Heq. now apply in_map.
Qed.

Lemma NoDup_map_filter {A B : Type} (f : A -> B) (p : A -> bool) l :
  NoDup (map f l) -> NoDup (map f (filter p l)).
Proof.
  induction l as [|a l IH]; cbn [map filter]; auto.
  intros Hnd. inversion Hnd as [|? ? Ha Hl]. subst.
  destruct (p a); auto. cbn [map]. constructor; auto.
  intros Hin. apply Ha. apply in_map_iff in Hin.
  destruct Hin as [x [Hx Hin]]. apply filter_In in Hin.
  apply in_map_iff. exists x. tauto.
Qed.

(** The traversal lists a node once: the identifiers of [result] are
    pairwise distinct and all in [visited]. *)
Lemma addNode_distinct depth nodeMap :
  (forall k n, JSMap.get ident_eqb nodeMap k = Some n -> n_id n = k) ->
  forall id acc,
    NoDup (map n_id (snd acc)) /\ incl (map n_id (snd acc)) (fst acc) ->
    NoDup (map n_id (snd (addNodeAndChildren depth nodeMap id acc)))
    /\ incl (map n_id (snd (addNodeAndChildren depth nodeMap id acc)))
            (fst (addNodeAndChildren depth nodeMap id acc)).
Proof.
  intros Hmap. induction depth as [|depth IH];
    intros id [visited result] [Hnd Hincl]; [now split|].
  cbn [addNodeAndChildren].
  destruct (existsb _ visited) eqn:Hv; [now split|].
  apply not_visited in Hv.
  destruct (JSMap.get _ nodeMap id) as [node|] eqn:Hget.
  - assert (Hnext : NoDup (map n_id (result ++ [node]))
                    /\ incl (map n_id (result ++ [node])) (visited ++ [id])).
    { cbn [fst snd] in *. rewrite map_app. cbn [map].
      rewrite (Hmap id node Hget). split.
      - apply NoDup_snoc; auto.
      - apply incl_app; [now apply incl_appl|apply incl_appr, incl_refl]. }
    destruct (n_children node) as [childIds|]; auto.
    generalize dependent (result ++ [node])%list.
    generalize (visited ++ [id])%list.
    induction childIds as [|c cs IHcs]; intros v r Hvr; auto.
    cbn [fold_left].
    specialize (IH c (v, r) Hvr).
    destruct (addNodeAndChildren depth nodeMap c (v, r)) as [v' r'].
    now apply IHcs.
  - cbn [fst snd] in *. split; auto. now apply incl_appl.
Qed.

Lemma reorder_NoDup this rootId :
  NoDup (map n_id (c_nodes this)) ->
  NoDup (map n_id (reorderNodesWithRootFirst this rootId)).
Proof.
  intros Hnd. unfold reorderNodesWithRootFirst.
  pose proof (addNode_distinct (S (List.length (c_nodes this)))
                (nodeMapOf (c_nodes this))
                (fun k n H => proj2 (nodeMapOf_get_In _ k n H))
                rootId ([], [])) as H.
  destruct (addNodeAndChildren _ _ _ _) as [visited result].
  cbn [fst snd] in H. destruct H as [Hres Hincl].
  { split; [constructor|apply incl_refl]. }
  rewrite map_app. apply NoDup_app_disjoint; auto.
  - now apply NoDup_map_filter.
  - intros id Hin1 Hin2. apply Hincl in Hin1.
    apply in_map_iff in Hin2. destruct Hin2 as [n [Hid Hn]].
    apply filter_In in Hn. destruct Hn as [_ Hn].
    apply negb_true_iff, not_visited in Hn. subst. contradiction.
Qed.

Lemma reorder_resolves this rootId id :
  resolvesIn (c_nodes this) id ->
  resolvesIn (reorderNodesWithRootFirst this rootId) id.
Proof.
  intros Hres.
  destruct (nodeMapOf_resolves _ _ Hres) as [n [Hget Hid]].
  exists n. split; auto.
  apply reorder_keeps.
  - now apply nodeMapOf_get_In in Hget.
  - now rewrite Hid.
Qed.

Lemma reorder_permutes_nodes (this : Converter) (rootId : ident) :
  NoDup (map n_id (c_nodes this)) ->
  Permutation (reorderNodesWithRootFirst this rootId) (c_nodes this).
Proof.
  intros Hnd. apply NoDup_Permutation.
  - apply (NoDup_map_inv n_id). now apply reorder_NoDup.
  - now apply (NoDup_map_inv n_id).
  - intros n. split; [apply reorder_incl|].
    intros Hn. apply reorder_keeps; auto.
    assert (Hres : resolvesIn (c_nodes this) (n_id n)) by (now exists n).
    destruct (nodeMapOf_resolves _ _ Hres) as [m [Hget Hid]].
    rewrite Hget. f_equal.
    apply (NoDup_ids_inj (c_nodes this)); auto.
    now apply nodeMapOf_get_In in Hget.
Qed.

(** X1. When the nodes of the converter have pairwise distinct
    identifiers, [reorderNodesWithRootFirst] returns them all, each once,
    in another order, whatever the root identifier is: no node is lost
    and none is repeated; and when the root identifier is that of a
    node, this node comes first. *)
Theorem reorder_is_permutation (this : Converter) (rootId : ident) :
  NoDup (map n_id (c_nodes this)) ->
  Permutation (reorderNodesWithRootFirst this rootId) (c_nodes this)
  /\ forall root,
       In root (c_nodes this) -> n_id root = rootId ->
       hd_error (reorderNodesWithRootFirst this rootId) = Some root.
Proof.
  intros Hnd. split; [now apply reorder_permutes_nodes|].
  intros root Hin Hid. apply reorder_head.
  assert (Hres : resolvesIn (c_nodes this) rootId) by (now exists root).
  destruct (nodeMapOf_resolves _ _ Hres) as [m [Hget Hm]].
  rewrite Hget. f_equal.
  apply (NoDup_ids_inj (c_nodes this)); auto; [|congruence].
  now apply nodeMapOf_get_In in Hget.
Qed.

Lemma reorder_is_permutation_witness :
  Permutation
    (reorderNodesWithRootFirst
       (pushNode (blockNode (Uuid 2) [Uuid 1; Uuid 0])
          (pushNode (textNode (Uuid 1) "b")
             (pushNode (textNode (Uuid 0) "a") newConverter)))
       (Uuid 2))
    [textNode (Uuid 0) "a"; textNode (Uuid 1) "b";
     blockNode (Uuid 2) [Uuid 1; Uuid 0]].
Proof.
  apply (proj1 (reorder_is_permutation
                  (pushNode (blockNode (Uuid 2) [Uuid 1; Uuid 0])
                     (pushNode (textNode (Uuid 1) "b")
                        (pushNode (textNode (Uuid 0) "a") newConverter)))
                  (Uuid 2)
                  ltac:(cbn; repeat constructor; cbn;
                        intuition discriminate))).
Defined.

(* ================================================================== *)
(** * The node graph of the output *)
(* ================================================================== *)

Lemma styled_nodes doc css : c_nodes (styledConverter doc css) = [].
Proof. apply materializeStyles_nodes. Qed.

(** The nodes [convert] has made when it chooses the root. *)
Lemma walkDocument_adds doc css :
  adds (styledConverter doc css) (w_this (walkDocument doc css))
       (c_nodes (w_this (walkDocument doc css)))
  /\ Forall (resolvesIn (c_nodes (w_this (walkDocument doc css))))
            (w_topLevelChildren (walkDocument doc css)).
Proof.
  assert (Hgoal : exists added,
             adds (styledConverter doc css) (w_this (walkDocument doc css))
                  added
             /\ Forall (resolvesIn added)
                       (w_topLevelChildren (walkDocument doc css))).
  { unfold walkDocument, styledConverter.
    destruct (materializeStyles _ _) as [this1 unusedCssRules]. cbn [fst].
    destruct (processTopLevel_adds
                (children (body (removeStyleElements doc))) this1)
      as [added [H1 Hids]].
    destruct (processTopLevel _ this1) as [elementIds this2].
    cbn [fst snd] in *.
    assert (Hids' : Forall (resolvesIn added) elementIds).
    { eapply Forall_impl; [|exact Hids]. now intros id [_ H]. }
    destruct (advancedCssPartsOf _ _) as [|part parts].
    - exists added. cbn [w_this w_topLevelChildren]. now split.
    - cbn [createHtmlEmbed uuidv4 w_this w_topLevelChildren n_id].
      match goal with
      | |- context [pushNode ?n ?s] =>
          destruct (adds_push_result this2 this2 s [] [] n) as [more [H2 Hn]]
      end; auto; try apply adds_refl; [intros c []|].
      exists (added ++ more)%list. split; [eapply adds_trans; eauto|].
      apply Forall_app. split.
      + eapply Forall_impl; [|exact Hids']. intros id.
        apply resolvesIn_incl. apply incl_appl, incl_refl.
      + constructor; [|constructor].
        destruct Hn as [Hn|Hn]; [discriminate|].
        eapply resolvesIn_incl; [|exact Hn]. apply incl_appr, incl_refl. }
  destruct Hgoal as [added [Hadds Hids]].
  assert (Heq : c_nodes (w_this (walkDocument doc css)) = added).
  { destruct Hadds as [Hn _]. now rewrite Hn, styled_nodes. }
  now rewrite Heq.
Qed.

(** The nodes of the converter when [convert] returns: those of the
    walk and, unless one top-level sibling is the root, the root made for
    them. *)
Lemma convertThis_nodes doc css :
  c_nodes (fst (convertThis doc css))
  = c_nodes (w_this (walkDocument doc css))
  \/ exists ids,
      Forall (resolvesIn (c_nodes (w_this (walkDocument doc css)))) ids
      /\ c_nodes (fst (convertThis doc css))
         = (c_nodes (w_this (walkDocument doc css))
            ++ [blockNode (Uuid (c_uuids (w_this (walkDocument doc css))))
                          ids])%list.
Proof.
  destruct (walkDocument_adds doc css) as [_ Hids].
  unfold convertThis, chooseRoot.
  destruct (w_topLevelChildren (walkDocument doc css))
    as [|only [|second rest]]; cbn [uuidv4 fst pushNode c_nodes].
  - right. exists []. split; [constructor|reflexivity].
  - now left.
  - right. eexists. split; [exact Hids|reflexivity].
Qed.

Lemma walked_made doc css n :
  In n (c_nodes (w_this (walkDocument doc css))) ->
  madeNode 0 (c_uuids (w_this (walkDocument doc css)))
           (c_nodes (w_this (walkDocument doc css))) n.
Proof.
  destruct (walkDocument_adds doc css) as [(_ & _ & Hall & _) _].
  rewrite Forall_forall in Hall. intros Hn.
  eapply madeNode_weaken; [| | |exact (Hall n Hn)]; auto; try lia.
  apply incl_refl.
Qed.

Lemma resolved_below doc css id :
  resolvesIn (c_nodes (w_this (walkDocument doc css))) id ->
  exists k, id = Uuid k /\ k < c_uuids (w_this (walkDocument doc css)).
Proof.
  intros [m [Hm Hid]]. apply walked_made in Hm.
  destruct Hm as (k & Hk & Hr & _). exists k. split; [congruence|lia].
Qed.

Lemma convertThis_NoDup doc css :
  NoDup (map n_id (c_nodes (fst (convertThis doc css)))).
Proof.
  destruct (walkDocument_adds doc css) as [(_ & _ & _ & Hnd) _].
  destruct (convertThis_nodes doc css) as [->|[ids [_ ->]]]; auto.
  rewrite map_app. cbn [map blockNode n_id]. apply NoDup_snoc; auto.
  intros Hin. apply in_map_iff in Hin. destruct Hin as [m [Hid Hm]].
  assert (Hres : resolvesIn (c_nodes (w_this (walkDocument doc css)))
                            (Uuid (c_uuids (w_this (walkDocument doc css)))))
    by (now exists m).
  apply resolved_below in Hres. destruct Hres as [k [Hk Hlt]].
  inversion Hk. lia.
Qed.

Lemma convertThis_children doc css n c :
  In n (c_nodes (fst (convertThis doc css))) ->
  In c (childIdsOf n) ->
  handedFrom (c_nodes (fst (convertThis doc css))) c.
Proof.
  intros Hn Hc.
  assert (Hwalked : forall m,
             In m (c_nodes (w_this (walkDocument doc css))) ->
             In c (childIdsOf m) ->
             handedFrom (c_nodes (w_this (walkDocument doc css))) c).
  { intros m Hm Hcm. apply walked_made in Hm.
    destruct Hm as (j & _ & _ & Hch & _).
    destruct (Hch c Hcm) as [->|(k & _ & _ & Hres)]; [now left|now right]. }
  destruct (convertThis_nodes doc css) as [Heq|[ids [Hids Heq]]];
    rewrite Heq in *.
  - now apply (Hwalked n).
  - eapply handedFrom_incl; [apply incl_appl, incl_refl|].
    apply in_app_or in Hn. destruct Hn as [Hn|[<-|[]]].
    + now apply (Hwalked n).
    + right. rewrite Forall_forall in Hids. now apply Hids.
Qed.

Lemma convertThis_ranked doc css :
  ranked (rankUnder (c_uuids (w_this (walkDocument doc css))))
         (c_nodes (fst (convertThis doc css))).
Proof.
  set (top := c_uuids (w_this (walkDocument doc css))).
  assert (Hwalked : forall m,
             In m (c_nodes (w_this (walkDocument doc css))) ->
             n_id m <> EmptyId
             /\ forall c, In c (childIdsOf m) -> c <> EmptyId ->
                          rankUnder top (n_id m) < rankUnder top c).
  { intros m Hm. apply walked_made in Hm. fold top in Hm.
    destruct Hm as (j & Hid & Hj & Hch & _). rewrite Hid.
    split; [discriminate|].
    intros c Hc Hne.
    destruct (Hch c Hc) as [->|(k & -> & Hlt & Hres)]; [contradiction|].
    apply resolved_below in Hres. fold top in Hres.
    destruct Hres as [k' [Hk' Hlt']]. inversion Hk'. subst k'.
    cbn [rankUnder].
    destruct (Nat.eqb_spec j top); [lia|].
    destruct (Nat.eqb_spec k top); lia. }
  intros n Hn.
  destruct (convertThis_nodes doc css) as [Heq|[ids [Hids Heq]]];
    rewrite Heq in Hn.
  - now apply Hwalked.
  - apply in_app_or in Hn. destruct Hn as [Hn|[<-|[]]];
      [now apply Hwalked|].
    fold top. cbn [blockNode n_id childIdsOf n_children].
    split; [discriminate|].
    intros c Hc _. rewrite Forall_forall in Hids.
    apply Hids, resolved_below in Hc. fold top in Hc.
    destruct Hc as [k [-> Hlt]]. cbn [rankUnder].
    rewrite Nat.eqb_refl.
    destruct (Nat.eqb_spec k top); lia.
Qed.

Lemma ranked_descends rank l a b :
  ranked rank l -> descends l a b -> b <> EmptyId -> rank a < rank b.
Proof.
  intros Hr Hd. induction Hd as [n c Hn Hc|a n c Hd IH Hn Hc]; intros Hne.
  - now apply (Hr n Hn).
  - destruct (Hr n Hn) as [Hid Hch].
    specialize (IH Hid). specialize (Hch c Hc Hne). lia.
Qed.

Lemma ranked_incl rank (l l' : list WebflowNode) :
  incl l l' -> ranked rank l' -> ranked rank l.
Proof. intros Hl Hr n Hn. apply Hr. now apply Hl. Qed.

(** X2. The nodes of an output have pairwise distinct identifiers, none
    of them empty, and the output is the nodes the conversion made, in
    another order. *)
Theorem output_node_ids_distinct (doc : document) (css : string) :
  NoDup (map n_id (outputNodes doc css))
  /\ (forall n, In n (outputNodes doc css) -> n_id n <> EmptyId)
  /\ Permutation (outputNodes doc css) (c_nodes (fst (convertThis doc css))).
Proof.
  rewrite outputNodes_eq.
  pose proof (convertThis_NoDup doc css) as Hnd.
  split; [now apply reorder_NoDup|].
  split; [|now apply reorder_permutes_nodes].
  intros n Hn. apply reorder_incl in Hn.
  now apply (convertThis_ranked doc css n Hn).
Qed.

Lemma output_witness_nodes :
  outputNodes tableWithParagraph ""
  = [Node (Uuid 0) (Some (TypeName "DOM")) (Some "div") (Some [])
          (Some [Uuid 1]) (Some (DomData "table" [] [])) None None;
     Node (Uuid 1) (Some (TypeName "Paragraph")) (Some "p") (Some [])
          (Some [Uuid 2]) (Some (ElementData "p" "" [] PlainData))
          None None;
     textNode (Uuid 2) "Text"].
Proof. vm_compute. reflexivity. Qed.

(** X3. In an output, a child reference that is not the empty string is
    the identifier of exactly one node of the output. *)
Theorem child_references_resolve
        (doc : document) (css : string) (n : WebflowNode) (c : ident) :
  In n (outputNodes doc css) ->
  In c (childIdsOf n) ->
  c <> EmptyId ->
  exists m,
    In m (outputNodes doc css) /\ n_id m = c
    /\ forall m', In m' (outputNodes doc css) -> n_id m' = c -> m' = m.
Proof.
  intros Hn Hc Hne.
  assert (Hnd : NoDup (map n_id (outputNodes doc css))).
  { rewrite outputNodes_eq. apply reorder_NoDup, convertThis_NoDup. }
  assert (Hres : resolvesIn (outputNodes doc css) c).
  { rewrite outputNodes_eq in *. apply reorder_resolves.
    apply reorder_incl in Hn.
    destruct (convertThis_children doc css n c Hn Hc); [contradiction|auto]. }
  destruct Hres as [m [Hm Hid]]. exists m. repeat split; auto.
  intros m' Hm' Hid'.
  apply (NoDup_ids_inj (outputNodes doc css)); auto. congruence.
Qed.

Lemma child_references_resolve_witness :
  exists m,
    In m (outputNodes tableWithParagraph "") /\ n_id m = Uuid 1
    /\ forall m', In m' (outputNodes tableWithParagraph "") ->
                  n_id m' = Uuid 1 -> m' = m.
Proof.
  apply (child_references_resolve tableWithParagraph ""
           (Node (Uuid 0) (Some (TypeName "DOM")) (Some "div") (Some [])
                 (Some [Uuid 1]) (Some (DomData "table" [] [])) None None)
           (Uuid 1)).
  - rewrite output_witness_nodes. left. reflexivity.
  - left. reflexivity.
  - discriminate.
Defined.

Lemma descends_from l a b :
  descends l a b -> exists n, In n l /\ a = n_id n.
Proof. induction 1 as [n c Hn _|a n c _ IH _ _]; eauto. Qed.

(** X4. No node of an output is its own child, grandchild, or further
    descendant: the child references of an output have no cycle. *)
Theorem output_is_acyclic (doc : document) (css : string) (id : ident) :
  ~ descends (outputNodes doc css) id id.
Proof.
  intros Hd.
  assert (Hr : ranked (rankUnder (c_uuids (w_this (walkDocument doc css))))
                      (outputNodes doc css)).
  { eapply ranked_incl; [|apply convertThis_ranked].
    rewrite outputNodes_eq. intros n. apply reorder_incl. }
  destruct (descends_from _ _ _ Hd) as [n [Hn ->]].
  pose proof (ranked_descends _ _ _ _ Hr Hd (proj1 (Hr n Hn))). lia.
Qed.

(** X5. A text node of an output holds a text that is not empty and has
    no white space at either end. *)
Theorem text_nodes_are_trimmed
        (doc : document) (css : string) (n : WebflowNode) :
  In n (outputNodes doc css) ->
  n_text n = Some true ->
  exists v, n_v n = Some v /\ truthy v = true /\ trim v = v.
Proof.
  rewrite outputNodes_eq. intros Hn Htext. apply reorder_incl in Hn.
  destruct (convertThis_nodes doc css) as [Heq|[ids [_ Heq]]];
    rewrite Heq in Hn.
  - apply walked_made in Hn. destruct Hn as (j & _ & _ & _ & Hv). auto.
  - apply in_app_or in Hn. destruct Hn as [Hn|[<-|[]]]; [|discriminate].
    apply walked_made in Hn. destruct Hn as (j & _ & _ & _ & Hv). auto.
Qed.

Lemma text_nodes_are_trimmed_witness :
  exists v, n_v (textNode (Uuid 2) "Text") = Some v
            /\ truthy v = true /\ trim v = v.
Proof.
  apply (text_nodes_are_trimmed tableWithParagraph ""
                                (textNode (Uuid 2) "Text")).
  - rewrite output_witness_nodes. right. right. left. reflexivity.
  - reflexivity.
Defined.

(* ================================================================== *)
(** * The styles of the output *)
(* ================================================================== *)

Lemma output_style_ids doc css :
  map s_id (outputStyles doc css)
  = map s_id (c_styles (styledConverter doc css)).
Proof.
  rewrite outputStyles_eq.
  now destruct (convertThis_built doc css)
    as [(_ & _ & _ & _ & _ & Hids & _) _].
Qed.

(** X6. The styles of an output have pairwise distinct identifiers, and
    every style identifier a node of the output lists is the identifier
    of exactly one of them. *)
Theorem style_references_resolve (doc : document) (css : string) :
  NoDup (map s_id (outputStyles doc css))
  /\ forall n id,
       In n (outputNodes doc css) -> In id (classIdsOf n) ->
       exists s,
         In s (outputStyles doc css) /\ s_id s = id
         /\ forall s', In s' (outputStyles doc css) -> s_id s' = id ->
                       s' = s.
Proof.
  pose proof (stylesMade_styled doc css)
    as (_ & Hnd & _ & _ & _ & Hidmap & _).
  assert (Hnd' : NoDup (map s_id (outputStyles doc css)))
    by (now rewrite output_style_ids).
  split; [exact Hnd'|].
  intros n id Hn Hid.
  assert (Hin : In id (map s_id (outputStyles doc css))).
  { rewrite output_style_ids.
    assert (Hget : exists name,
               JSMap.get String.eqb
                         (c_styleIdMap (styledConverter doc css)) name
               = Some id).
    { apply outputNodes_built in Hn.
      destruct Hn as [i v ->|i c sc ->|i cs ->|el this Hel Ht _ Hcl _ _];
        try (now destruct Hid).
      unfold classIdsOf in Hid. rewrite Hcl in Hid.
      apply (resolveClassIds_source (styledConverter doc css)) in Hid; auto.
      destruct Hid as [[className [_ Hget]]|[sel [sl [g [_ [_ [_ Hget]]]]]]];
        eauto. }
    destruct Hget as [name Hget].
    destruct (Hidmap name id Hget) as [s0 [Hs0 [Hid0 _]]].
    apply in_map_iff. eauto. }
  apply in_map_iff in Hin. destruct Hin as [s [Hs Hin]].
  exists s. repeat split; auto.
  intros s' Hs' Hid'.
  clear - Hnd' Hin Hs' Hs Hid'.
  induction (outputStyles doc css) as [|x l IH]; [destruct Hin|].
  cbn [map] in Hnd'. inversion Hnd' as [|? ? Hx Hl]. subst.
  destruct Hin as [->|Hin], Hs' as [->|Hs']; auto.
  - exfalso. apply Hx. rewrite <- Hid'. now apply in_map.
  - exfalso. apply Hx. rewrite Hid'. now apply in_map.
Qed.

Lemma processParsedStyles_list used l : forall acc,
  c_usedClasses (fst acc) = used ->
  map s_name (c_styles (fst (fold_left processParsedStyle l acc)))
  = (map s_name (c_styles (fst acc)) ++ flat_map (styleNameOf used) l)%list
  /\ snd (fold_left processParsedStyle l acc)
     = (snd acc ++ flat_map (unusedLineOf used) l)%list.
Proof.
  induction l as [|[selector styleLess] l IH]; intros acc Hused.
  - cbn. now rewrite !app_nil_r.
  - cbn [fold_left flat_map].
    destruct (IH (processParsedStyle acc (selector, styleLess))) as [H1 H2].
    { now rewrite processParsedStyle_used. }
    rewrite H1, H2. clear H1 H2 IH.
    destruct acc as [this unused]. cbn [fst snd] in *.
    unfold processParsedStyle, styleNameOf, unusedLineOf. cbn [fst snd].
    rewrite Hused.
    destruct (isSimpleClass selector);
      [destruct (setHas used _)|]; cbn [fst snd andb negb];
      unfold addStyle, addComplexRule; cbn [uuidv4 c_styles];
      rewrite ?map_app, <- ?app_assoc; cbn [map app newStyle s_name];
      rewrite ?app_nil_r; auto.
Qed.

Lemma style_or_unused used (l : list (string * string)) :
  List.length (flat_map (styleNameOf used) l)
  + List.length (flat_map (unusedLineOf used) l)
  = List.length l.
Proof.
  induction l as [|r l IH]; auto.
  cbn [flat_map]. rewrite !length_app. cbn [List.length].
  assert (Hone : List.length (styleNameOf used r)
                 + List.length (unusedLineOf used r) = 1).
  { unfold styleNameOf, unusedLineOf.
    destruct (isSimpleClass (fst r)); [destruct (setHas _ _)|];
      reflexivity. }
  lia.
Qed.

(** X7. The styles of an output are, in the order of the normalized
    stylesheet, one style per simple class selector whose class is used
    in the markup, named after the class, and one style per other
    selector, with its generated name; the simple class selectors whose
    class is not used give, in order, the lines of the unused rules; so
    every rule of the stylesheet gives either one style or one unused
    line. *)
Theorem styles_follow_the_stylesheet (doc : document) (css : string) :
  map s_name (outputStyles doc css)
  = flat_map (styleNameOf (usedClassesOf doc)) (effectiveStyles doc css)
  /\ unusedRules doc css
     = flat_map (unusedLineOf (usedClassesOf doc)) (effectiveStyles doc css)
  /\ List.length (outputStyles doc css) + List.length (unusedRules doc css)
     = List.length (effectiveStyles doc css).
Proof.
  assert (Hnames : map s_name (outputStyles doc css)
                   = map s_name (c_styles (styledConverter doc css))).
  { rewrite outputStyles_eq.
    now destruct (convertThis_built doc css)
      as [(_ & _ & _ & _ & _ & _ & H) _]. }
  destruct (processParsedStyles_list (usedClassesOf doc)
              (effectiveStyles doc css)
              (collectUsedClasses (walkedBody doc) newConverter, [])
              eq_refl) as [H1 H2].
  cbn [fst snd app] in H1, H2.
  destruct (collectUsedClasses_fields (walkedBody doc) newConverter)
    as (_ & Hstyles & _).
  rewrite Hstyles in H1. cbn [newConverter c_styles map app] in H1.
  assert (Hn : map s_name (outputStyles doc css)
               = flat_map (styleNameOf (usedClassesOf doc))
                          (effectiveStyles doc css))
    by (rewrite Hnames; exact H1).
  assert (Hu : unusedRules doc css
               = flat_map (unusedLineOf (usedClassesOf doc))
                          (effectiveStyles doc css)) by exact H2.
  split; [exact Hn|]. split; [exact Hu|].
  rewrite <- (length_map s_name), Hn, Hu. apply style_or_unused.
Qed.

(* ================================================================== *)
(** * The styles of an element *)
(* ================================================================== *)

Lemma applyRules_shape el rules : forall classIds this,
  (classIds <> [] ->
   fst (fold_left (applyComplexRule el) rules (classIds, this)) = classIds)
  /\ (classIds = [] ->
      fst (fold_left (applyComplexRule el) rules (classIds, this)) = []
      \/ exists id,
          fst (fold_left (applyComplexRule el) rules (classIds, this))
          = [id]).
Proof.
  induction rules as [|[selector styleLess] rules IH]; intros classIds this.
  - cbn. split; auto.
  - cbn [fold_left]. unfold applyComplexRule at 2 4 6.
    destruct (matches el selector) as [[|]|]; try apply IH.
    destruct classIds as [|target others].
    + split; [congruence|]. intros _.
      destruct (IH (addGenerated this selector []) this) as [Hsome Hnone].
      unfold addGenerated in *.
      destruct (JSMap.get _ (c_selectorToClassMap this) selector)
        as [name|]; [|now apply Hnone].
      destruct (truthy name); [|now apply Hnone].
      destruct (JSMap.get _ (c_styleIdMap this) name) as [styleId|];
        [|now apply Hnone].
      destruct (truthyId styleId && _); [|now apply Hnone].
      right. exists styleId. cbn [app] in *. now apply Hsome.
    + split; [|discriminate]. intros _.
      now apply (IH (target :: others)).
Qed.

Lemma applyRules_single el rules : forall this,
  fst (fold_left (applyComplexRule el) rules ([], this)) = []
  \/ exists id selector styleLess generatedName,
       fst (fold_left (applyComplexRule el) rules ([], this)) = [id]
       /\ In (selector, styleLess) rules
       /\ matches el selector = Some true
       /\ JSMap.get String.eqb (c_selectorToClassMap this) selector
          = Some generatedName
       /\ JSMap.get String.eqb (c_styleIdMap this) generatedName = Some id.
Proof.
  induction rules as [|[selector styleLess] rules IH]; intros this;
    [now left|].
  assert (Hnext :
            fst (fold_left (applyComplexRule el) rules ([], this)) = []
            \/ exists id selector0 styleLess0 generatedName,
                 fst (fold_left (applyComplexRule el) rules ([], this)) = [id]
                 /\ In (selector0, styleLess0)
                       ((selector, styleLess) :: rules)
                 /\ matches el selector0 = Some true
                 /\ JSMap.get String.eqb (c_selectorToClassMap this)
                              selector0 = Some generatedName
                 /\ JSMap.get String.eqb (c_styleIdMap this) generatedName
                    = Some id).
  { destruct (IH this) as [H|(id & sel & sl & name & H & Hin & Hrest)];
      [now left|right].
    exists id, sel, sl, name. split; auto. split; auto. now right. }
  cbn [fold_left]. unfold applyComplexRule at 2 4.
  destruct (matches el selector) as [[|]|] eqn:Hmatch; try exact Hnext.
  unfold addGenerated.
  destruct (JSMap.get _ (c_selectorToClassMap this) selector)
    as [name|] eqn:Hname; [|exact Hnext].
  destruct (truthy name); [|exact Hnext].
  destruct (JSMap.get _ (c_styleIdMap this) name) as [styleId|] eqn:Hid;
    [|exact Hnext].
  destruct (truthyId styleId && _); [|exact Hnext].
  right. exists styleId, selector, styleLess, name. cbn [app].
  split; [|split; [now left|auto]].
  apply (applyRules_shape el rules [styleId] this). discriminate.
Qed.

(** X8. The style identifiers of an element are those its literal
    classes have in [styleIdMap], whatever rules the element matches; or,
    when no literal class has one, none, or the single identifier that
    [styleIdMap] holds under the name generated for a rule the element
    matches.  Resolving them adds no node and no style, and changes no
    identifier or name of a style and no entry of [styleIdMap]. *)
Theorem element_style_identifiers (el : element) (this : Converter) :
  (fst (resolveClassIds el this) = classStyleIds this el
   \/ (classStyleIds this el = []
       /\ exists id selector styleLess generatedName,
            fst (resolveClassIds el this) = [id]
            /\ In (selector, styleLess) (c_complexRules this)
            /\ matches el selector = Some true
            /\ JSMap.get String.eqb (c_selectorToClassMap this) selector
               = Some generatedName
            /\ JSMap.get String.eqb (c_styleIdMap this) generatedName
               = Some id))
  /\ c_nodes (snd (resolveClassIds el this)) = c_nodes this
  /\ map s_id (c_styles (snd (resolveClassIds el this)))
     = map s_id (c_styles this)
  /\ map s_name (c_styles (snd (resolveClassIds el this)))
     = map s_name (c_styles this)
  /\ c_styleIdMap (snd (resolveClassIds el this)) = c_styleIdMap this.
Proof.
  split.
  - unfold resolveClassIds.
    destruct (classStyleIds this el) as [|id ids] eqn:Hids.
    + destruct (applyRules_single el (c_complexRules this) this)
        as [H|H]; [now left|right; now split].
    + left. apply (applyRules_shape el (c_complexRules this)). discriminate.
  - destruct (resolveClassIds_tables this el this (sameTables_refl this))
      as (Hidmap & _ & _ & _ & _ & Hids & Hnames).
    auto using resolveClassIds_nodes.
Qed.

(* ================================================================== *)
(** * The normalized stylesheet is clean *)
(* ================================================================== *)

Lemma truthy_append a b : truthy a = true -> truthy (a ++ b) = true.
Proof. now destruct a. Qed.

Lemma parseRule_clean cleanCss styleMap m :
  NoDup (map fst styleMap) ->
  (forall rule, In rule styleMap -> cleanRule rule /\ trim (snd rule) = snd rule) ->
  NoDup (map fst (parseRule cleanCss styleMap m))
  /\ forall rule, In rule (parseRule cleanCss styleMap m) ->
                  cleanRule rule /\ trim (snd rule) = snd rule.
Proof.
  intros Hnd Hall. unfold parseRule.
  destruct (startsWith (trim (group cleanCss m 1)) "@") eqn:Hat;
    [now split|].
  destruct (truthy (trim (declarations _))) eqn:Ht; [|now split].
  split; [now apply set_keys_NoDup; [apply string_eqb_eq|]|].
  intros rule Hin. apply set_In in Hin. destruct Hin as [->|Hin]; auto.
  unfold cleanRule. cbn [fst snd].
  repeat split; auto using trim_idem.
Qed.

Lemma mergeInlineRule_clean parsedStyles rule :
  NoDup (map fst parsedStyles) ->
  (forall r, In r parsedStyles -> cleanRule r) ->
  cleanRule rule ->
  NoDup (map fst (mergeInlineRule parsedStyles rule))
  /\ forall r, In r (mergeInlineRule parsedStyles rule) -> cleanRule r.
Proof.
  intros Hnd Hall (Hsel & Hat & Hsl). destruct rule as [selector styleLess].
  cbn [fst snd] in *. unfold mergeInlineRule.
  destruct (JSMap.get String.eqb parsedStyles selector) as [external|] eqn:Hg.
  - split; [now apply set_keys_NoDup; [apply string_eqb_eq|]|].
    intros r Hin. apply set_In in Hin. destruct Hin as [->|Hin]; auto.
    apply (get_In String.eqb string_eqb_eq) in Hg.
    destruct (Hall _ Hg) as (_ & _ & Hext). cbn [snd] in Hext.
    unfold cleanRule. cbn [fst snd]. repeat split; auto.
    now apply truthy_append.
  - split; [now apply set_keys_NoDup; [apply string_eqb_eq|]|].
    intros r Hin. apply set_In in Hin. destruct Hin as [->|Hin]; auto.
    unfold cleanRule. cbn [fst snd]. auto.
Qed.

Lemma parseCssToStyleLess_clean css :
  NoDup (map fst (parseCssToStyleLess css))
  /\ forall rule, In rule (parseCssToStyleLess css) ->
                  cleanRule rule /\ trim (snd rule) = snd rule.
Proof.
  unfold parseCssToStyleLess.
  set (cleanCss := replaceAll mediaBlockRegex "" _).
  generalize (execAll ruleRegex cleanCss). intros ms.
  assert (H : forall ms styleMap,
             NoDup (map fst styleMap) ->
             (forall rule, In rule styleMap ->
                           cleanRule rule /\ trim (snd rule) = snd rule) ->
             NoDup (map fst (fold_left (parseRule cleanCss) ms styleMap))
             /\ forall rule,
                 In rule (fold_left (parseRule cleanCss) ms styleMap) ->
                 cleanRule rule /\ trim (snd rule) = snd rule).
  { clear ms. induction ms as [|m ms IH]; intros styleMap Hnd Hall;
      [now split|].
    cbn [fold_left].
    destruct (parseRule_clean cleanCss styleMap m Hnd Hall) as [H1 H2].
    now apply IH. }
  apply H; [constructor|intros rule []].
Qed.

(** X9. The normalized stylesheet, of the external sheet alone and with
    the inline style elements merged in, has each selector once; every
    selector is trimmed and does not start with [@], and every
    declaration string is not empty (a rule without a usable declaration
    is left out); the declaration strings of a single sheet are trimmed
    as well. *)
Theorem normalized_stylesheet_is_clean :
  (forall css,
      NoDup (map fst (parseCssToStyleLess css))
      /\ forall selector styleLess,
          In (selector, styleLess) (parseCssToStyleLess css) ->
          cleanRule (selector, styleLess) /\ trim styleLess = styleLess)
  /\ forall doc css,
      NoDup (map fst (effectiveStyles doc css))
      /\ forall selector styleLess,
          In (selector, styleLess) (effectiveStyles doc css) ->
          cleanRule (selector, styleLess).
Proof.
  split.
  - intros css. destruct (parseCssToStyleLess_clean css) as [H1 H2].
    split; [exact H1|]. intros selector styleLess Hin. exact (H2 _ Hin).
  - intros doc css. unfold effectiveStyles.
    assert (Hinner : forall rules parsedStyles,
               NoDup (map fst parsedStyles) ->
               (forall r, In r parsedStyles -> cleanRule r) ->
               (forall r, In r rules -> cleanRule r) ->
               NoDup (map fst (fold_left mergeInlineRule rules parsedStyles))
               /\ forall r,
                   In r (fold_left mergeInlineRule rules parsedStyles) ->
                   cleanRule r).
    { induction rules as [|rule rules IH]; intros parsedStyles Hnd Hall Hr;
        [now split|].
      cbn [fold_left].
      destruct (mergeInlineRule_clean parsedStyles rule Hnd Hall)
        as [H1 H2]; [apply Hr; now left|].
      apply IH; auto. intros r Hin. apply Hr. now right. }
    assert (Houter : forall tags parsedStyles,
               NoDup (map fst parsedStyles) ->
               (forall r, In r parsedStyles -> cleanRule r) ->
               NoDup (map fst
                        (fold_left
                           (fun parsedStyles styleTag =>
                              fold_left mergeInlineRule
                                (parseCssToStyleLess (textContent styleTag))
                                parsedStyles) tags parsedStyles))
               /\ forall r,
                   In r (fold_left
                           (fun parsedStyles styleTag =>
                              fold_left mergeInlineRule
                                (parseCssToStyleLess (textContent styleTag))
                                parsedStyles) tags parsedStyles) ->
                   cleanRule r).
    { induction tags as [|tag tags IH]; intros parsedStyles Hnd Hall;
        [now split|].
      cbn [fold_left].
      destruct (Hinner (parseCssToStyleLess (textContent tag)) parsedStyles
                       Hnd Hall) as [H1 H2].
      { intros r Hin.
        now apply (proj2 (parseCssToStyleLess_clean (textContent tag))). }
      now apply IH. }
    destruct (parseCssToStyleLess_clean css) as [H1 H2].
    destruct (Houter (querySelectorAllStyle doc) (parseCssToStyleLess css) H1)
      as [H3 H4].
    { intros r Hin. now apply H2. }
    split; auto.
Qed.

(* ================================================================== *)
(** * Splitting a value at white space *)
(* ================================================================== *)

Lemma matchAt_solid q x rest :
  isSpace x = false -> matchAt (plus space) q (String x rest) = None.
Proof.
  intros Hx. unfold matchAt, plus, space. cbn [rmatch Regex.rest].
  now rewrite Hx.
Qed.

Lemma matchAt_one_space q sp x rest :
  isSpace sp = true -> isSpace x = false ->
  matchAt (plus space) q (String sp (String x rest))
  = Some (MatchResult q (S q) []).
Proof.
  intros Hsp Hx. unfold matchAt, plus, space.
  cbn [rmatch Regex.rest Regex.pos Regex.caps String.length].
  now rewrite Hsp, Hx.
Qed.

Lemma splitFrom_solid s p w : forall q tail,
  solidChars w = true ->
  splitFrom (plus space) s p q (w ++ tail)
  = splitFrom (plus space) s p (q + String.length w) tail.
Proof.
  induction w as [|c w IH]; intros q tail Hw.
  - cbn. now rewrite Nat.add_0_r.
  - cbn [solidChars] in Hw. apply andb_true_iff in Hw. destruct Hw as [Hc Hw].
    apply negb_true_iff in Hc.
    change (String c w ++ tail) with (String c (w ++ tail)).
    cbn [splitFrom]. rewrite (matchAt_solid q c _ Hc), IH by exact Hw.
    cbn [String.length]. f_equal. lia.
Qed.

Lemma splitFrom_one_space s p q x rest :
  p <= q -> isSpace x = false ->
  splitFrom (plus space) s p q (String " " (String x rest))
  = slice p q s :: splitFrom (plus space) s (S q) (S q) (String x rest).
Proof.
  intros Hpq Hx. cbn [splitFrom].
  rewrite (matchAt_one_space q " " x rest eq_refl Hx).
  cbn [m_end].
  destruct (Nat.eqb_spec (S q) p) as [Heq|_]; [lia|].
  replace (S q - q - 1) with 0 by lia. reflexivity.
Qed.

Lemma substringFrom_add i j s :
  substringFrom (i + j) s = substringFrom j (substringFrom i s).
Proof.
  revert s. induction i as [|i IH]; intros s; [reflexivity|].
  destruct s as [|c s]; cbn [Nat.add substringFrom].
  - now destruct j.
  - apply IH.
Qed.

Lemma isValue_parts w :
  isValue w = true ->
  solidChars w = true /\ exists c w', w = String c w' /\ isSpace c = false.
Proof.
  unfold isValue. intros H. apply andb_true_iff in H. destruct H as [Ht Hs].
  split; auto. destruct w as [|c w']; [discriminate|].
  exists c, w'. split; auto. cbn [solidChars] in Hs.
  apply andb_true_iff in Hs. now apply negb_true_iff.
Qed.

Lemma join_cons_cons sep a b l :
  join sep (a :: b :: l) = a ++ sep ++ join sep (b :: l).
Proof. reflexivity. Qed.

Lemma join_starts_solid w ws :
  isValue w = true ->
  exists c rest, join " " (w :: ws) = String c rest /\ isSpace c = false.
Proof.
  intros Hw. destruct (isValue_parts w Hw) as [_ (c & w' & -> & Hc)].
  destruct ws as [|w2 ws]; [now exists c, w'|].
  rewrite join_cons_cons. now exists c, (w' ++ " " ++ join " " (w2 :: ws)).
Qed.

Lemma splitFrom_words s ws : forall w p,
  isValue w = true -> Forall (fun v => isValue v = true) ws ->
  substringFrom p s = join " " (w :: ws) ->
  splitFrom (plus space) s p p (join " " (w :: ws)) = w :: ws.
Proof.
  induction ws as [|w2 ws IH]; intros w p Hw Hws Hs.
  - cbn [join] in *. destruct (isValue_parts w Hw) as [Hsolid _].
    rewrite <- (append_empty_r w) at 1.
    rewrite splitFrom_solid by exact Hsolid. cbn [splitFrom]. now rewrite Hs.
  - inversion Hws as [|? ? Hw2 Hws']. subst.
    destruct (isValue_parts w Hw) as [Hsolid _].
    destruct (join_starts_solid w2 ws Hw2) as (c & rest & Hj & Hc).
    rewrite join_cons_cons in *.
    rewrite splitFrom_solid by exact Hsolid.
    change (" " ++ join " " (w2 :: ws))
      with (String " " (join " " (w2 :: ws))) in *.
    rewrite Hj. rewrite splitFrom_one_space by (auto; lia).
    rewrite <- Hj. f_equal.
    + unfold slice. replace (p + String.length w - p)
        with (String.length w) by lia.
      now rewrite Hs, substringTo_append.
    + apply IH; auto.
      replace (S (p + String.length w)) with (p + (String.length w + 1))
        by lia.
      rewrite substringFrom_add, Hs. apply substringFrom_sep.
Qed.

Lemma split_words w ws :
  isValue w = true -> Forall (fun v => isValue v = true) ws ->
  split (plus space) (join " " (w :: ws)) = w :: ws.
Proof.
  intros Hw Hws.
  destruct (join_starts_solid w ws Hw) as (c & rest & Hj & Hc).
  assert (Hsplit : forall j, j = String c rest ->
            split (plus space) j = splitFrom (plus space) j 0 0 j)
    by (now intros j ->).
  rewrite (Hsplit _ Hj). now apply splitFrom_words.
Qed.

Lemma trimEnd_solid_end s : endsSolid s = true -> trimEnd s = s.
Proof.
  induction s as [|c s IH]; [discriminate|].
  cbn [endsSolid trimEnd]. destruct s as [|c' s].
  - intros Hc. cbn [trimEnd]. apply negb_true_iff in Hc. now rewrite Hc.
  - intros Hs. now rewrite (IH Hs).
Qed.

Lemma endsSolid_append a b : b <> "" -> endsSolid (a ++ b) = endsSolid b.
Proof.
  intros Hb. induction a as [|c a IH]; auto.
  cbn [append endsSolid]. rewrite IH.
  destruct (a ++ b) eqn:E; auto.
  destruct a; [contradiction|discriminate].
Qed.

Lemma isValue_endsSolid w : isValue w = true -> endsSolid w = true.
Proof.
  intros H. destruct (isValue_parts w H) as [Hs (c & w' & -> & Hc)].
  clear H Hc. revert c Hs. induction w' as [|c' w' IH]; intros c Hs.
  - cbn in *. now rewrite andb_true_r in Hs.
  - cbn [solidChars] in Hs. apply andb_true_iff in Hs.
    destruct Hs as [_ Hs]. cbn [endsSolid]. now apply IH.
Qed.

Lemma join_endsSolid ws : forall w,
  isValue w = true -> Forall (fun v => isValue v = true) ws ->
  endsSolid (join " " (w :: ws)) = true.
Proof.
  induction ws as [|w2 ws IH]; intros w Hw Hws.
  - now apply isValue_endsSolid.
  - inversion Hws as [|? ? Hw2 Hws']. subst.
    rewrite join_cons_cons, endsSolid_append.
    + rewrite endsSolid_append; [now apply IH|].
      destruct (join_starts_solid w2 ws Hw2) as (c & rest & -> & _).
      discriminate.
    + discriminate.
Qed.

Lemma trim_words w ws :
  isValue w = true -> Forall (fun v => isValue v = true) ws ->
  trim (join " " (w :: ws)) = join " " (w :: ws).
Proof.
  intros Hw Hws. unfold trim.
  destruct (join_starts_solid w ws Hw) as (c & rest & Hj & Hc).
  assert (Hstart : trimStart (join " " (w :: ws)) = join " " (w :: ws)).
  { rewrite Hj. cbn [trimStart]. now rewrite Hc. }
  rewrite Hstart. apply trimEnd_solid_end. now apply join_endsSolid.
Qed.

(** The values [expandShorthand] works with. *)
Lemma shorthand_values w ws :
  isValue w = true -> Forall (fun v => isValue v = true) ws ->
  split (plus space) (trim (join " " (w :: ws))) = w :: ws.
Proof.
  intros Hw Hws. rewrite trim_words by assumption. now apply split_words.
Qed.

(* ================================================================== *)
(** * Shorthands of any values *)
(* ================================================================== *)

(** X10. A [margin] or [padding] of one to four values separated by
    single blanks expands to the four sides in the order of CSS: one
    value for all sides, two for top/bottom and right/left, three for
    top, right/left and bottom, four for top, right, bottom and left.
    With five values or more the expansion is the empty string. *)
Theorem box_model_shorthand (prop : string) (ws : list string) :
  prop = "margin" \/ prop = "padding" ->
  Forall (fun v => isValue v = true) ws -> ws <> [] ->
  expandShorthand prop (join " " ws)
  = match ws with
    | [a] => fourSides prop a a a a
    | [a; b] => fourSides prop a b a b
    | [a; b; c] => fourSides prop a b c b
    | [a; b; c; d] => fourSides prop a b c d
    | _ => ""
    end.
Proof.
  intros Hprop Hws Hne. destruct ws as [|w ws]; [contradiction|].
  inversion Hws as [|? ? Hw Hws']. subst.
  unfold expandShorthand. rewrite shorthand_values by assumption.
  destruct Hprop; subst prop;
    destruct ws as [|b [|c [|d [|e ws]]]]; reflexivity.
Qed.

Lemma box_model_shorthand_witness :
  expandShorthand "margin" (join " " ["0"; "auto"; "1rem"])
  = fourSides "margin" "0" "auto" "1rem" "auto".
Proof.
  apply (box_model_shorthand "margin" ["0"; "auto"; "1rem"]).
  - now left.
  - repeat constructor.
  - discriminate.
Defined.

(** X11. A [border-radius] of one, two or four values separated by
    single blanks expands to the four corners; with three values, or
    with five or more, the expansion is the empty string. *)
Theorem border_radius_shorthand (ws : list string) :
  Forall (fun v => isValue v = true) ws -> ws <> [] ->
  expandShorthand "border-radius" (join " " ws)
  = match ws with
    | [a] =>
        "border-top-left-radius: " ++ a ++
        "; border-top-right-radius: " ++ a ++
        "; border-bottom-left-radius: " ++ a ++
        "; border-bottom-right-radius: " ++ a ++ ";"
    | [a; b] =>
        "border-top-left-radius: " ++ a ++
        "; border-top-right-radius: " ++ b ++
        "; border-bottom-right-radius: " ++ a ++
        "; border-bottom-left-radius: " ++ b ++ ";"
    | [a; b; c; d] =>
        "border-top-left-radius: " ++ a ++
        "; border-top-right-radius: " ++ b ++
        "; border-bottom-right-radius: " ++ c ++
        "; border-bottom-left-radius: " ++ d ++ ";"
    | _ => ""
    end.
Proof.
  intros Hws Hne. destruct ws as [|w ws]; [contradiction|].
  inversion Hws as [|? ? Hw Hws']. subst.
  unfold expandShorthand. rewrite shorthand_values by assumption.
  destruct ws as [|b [|c [|d [|e ws]]]]; reflexivity.
Qed.

Lemma border_radius_shorthand_witness :
  expandShorthand "border-radius" (join " " ["4px"; "8px"; "2px"]) = "".
Proof.
  apply (border_radius_shorthand ["4px"; "8px"; "2px"]).
  - repeat constructor.
  - discriminate.
Defined.

(** X12. A [gap] expands to the column gap, the first value, and the
    row gap, the second value or else the first; further values are
    ignored. *)
Theorem gap_shorthand (a : string) (ws : list string) :
  isValue a = true -> Forall (fun v => isValue v = true) ws ->
  expandShorthand "gap" (join " " (a :: ws))
  = "grid-column-gap: " ++ a ++ "; grid-row-gap: " ++ hd a ws ++ ";".
Proof.
  intros Ha Hws.
  unfold expandShorthand. rewrite shorthand_values by assumption.
  destruct ws as [|b ws]; [reflexivity|].
  inversion Hws as [|? ? Hb _]. subst.
  unfold isValue in Hb. apply andb_true_iff in Hb. destruct Hb as [Hb _].
  cbn [String.eqb Ascii.eqb Bool.eqb orb hd at_]. unfold orElse.
  destruct b; [discriminate|]. reflexivity.
Qed.

Lemma gap_shorthand_witness :
  expandShorthand "gap" (join " " ["1rem"; "2rem"; "3rem"])
  = "grid-column-gap: 1rem; grid-row-gap: 2rem;".
Proof.
  apply (gap_shorthand "1rem" ["2rem"; "3rem"]).
  - reflexivity.
  - repeat constructor.
Defined.

(* ================================================================== *)
(** * Selectors named after a tag *)
(* ================================================================== *)

Lemma rmatch_lit {R : Type} w : forall i s cs (k : cursor -> option R),
  rmatch (lit w) (Cursor i s cs) k
  = match dropPrefix w s with
    | Some s' => k (Cursor (i + String.length w) s' cs)
    | None => None
    end.
Proof.
  induction w as [|a w IH]; intros i s cs k.
  - cbn. now rewrite Nat.add_0_r.
  - destruct w as [|b w].
    + cbn. destruct s as [|x s]; [reflexivity|].
      destruct (Ascii.eqb a x); [|reflexivity].
      now rewrite Nat.add_1_r.
    + change (lit (String a (String b w)))
        with (Seq (char a) (lit (String b w))).
      cbn [rmatch char Regex.rest Regex.pos Regex.caps].
      cbn [dropPrefix]. destruct s as [|x s]; [reflexivity|].
      destruct (Ascii.eqb a x); [|reflexivity].
      rewrite IH.
      now replace (S i + String.length (String b w))
        with (i + String.length (String a (String b w)))
        by (cbn [String.length]; lia).
Qed.

Lemma dropPrefix_whole w : forall s,
  match dropPrefix w s with
  | Some EmptyString => true
  | _ => false
  end = String.eqb s w.
Proof.
  induction w as [|a w IH]; intros s.
  - cbn. now destruct s.
  - destruct s as [|x s]; [reflexivity|]. cbn [dropPrefix String.eqb].
    rewrite (Ascii.eqb_sym x a). destruct (Ascii.eqb a x); auto.
Qed.

Lemma matchesAtStart_lit w s :
  matchesAtStart (wholeOf (lit w)) s = String.eqb s w.
Proof.
  unfold matchesAtStart, matchAt, wholeOf.
  cbn [seqs rmatch Regex.pos Nat.eqb]. rewrite rmatch_lit.
  rewrite <- dropPrefix_whole.
  destruct (dropPrefix w s) as [[|x s']|]; reflexivity.
Qed.

Lemma matchesAtStart_Chr p s :
  matchesAtStart (wholeOf (Chr p)) s
  = match s with
    | String a EmptyString => p a
    | _ => false
    end.
Proof.
  unfold matchesAtStart, matchAt, wholeOf.
  cbn [seqs rmatch Regex.pos Regex.rest Nat.eqb].
  destruct s as [|a [|b s]]; try reflexivity; now destruct (p a).
Qed.

Lemma wholeOf_anchored r : anchored (wholeOf r).
Proof. intros i s. reflexivity. Qed.

Lemma alts_anchored rs : Forall anchored rs -> anchored (alts rs).
Proof.
  induction 1 as [|r rs Hr Hrs IH].
  - intros i s. unfold matchAt. cbn. now destruct s.
  - destruct rs as [|r' rs]; [exact Hr|].
    intros i s. specialize (Hr i s). specialize (IH i s).
    unfold matchAt in *. change (alts (r :: r' :: rs))
      with (Alt r (alts (r' :: rs))).
    cbn [rmatch]. now rewrite Hr.
Qed.

Lemma matchesAtStart_alts rs s :
  matchesAtStart (alts rs) s = existsb (fun r => matchesAtStart r s) rs.
Proof.
  induction rs as [|r rs IH].
  - unfold matchesAtStart, matchAt. cbn. now destruct s.
  - destruct rs as [|r' rs].
    + cbn [alts existsb]. now rewrite orb_false_r.
    + change (alts (r :: r' :: rs)) with (Alt r (alts (r' :: rs))).
      change (existsb (fun r0 => matchesAtStart r0 s) (r :: r' :: rs))
        with (matchesAtStart r s
              || existsb (fun r0 => matchesAtStart r0 s) (r' :: rs)).
      rewrite <- IH. unfold matchesAtStart, matchAt.
      cbn [rmatch].
      now destruct (rmatch r (Cursor 0 s []) _).
Qed.

Lemma search_anchored r : anchored r ->
  forall s i, search r (S i) s = None.
Proof.
  intros Hr. induction s as [|a s IH]; intros i; cbn [search];
    rewrite Hr; auto.
Qed.

Lemma test_anchored r s : anchored r -> test r s = matchesAtStart r s.
Proof.
  intros Hr. unfold test, exec, matchesAtStart.
  cbn [Nat.ltb Nat.leb substringFrom].
  destruct s as [|a s]; cbn [search]; destruct (matchAt r 0 _); auto.
  now rewrite search_anchored.
Qed.

Lemma test_commonTagRegex sel :
  test commonTagRegex sel = isCommonTag sel.
Proof.
  change commonTagRegex
    with (alts (wholeOf (Chr isHeadingChar)
                :: map (fun w => wholeOf (lit w)) commonTags)).
  rewrite test_anchored.
  2:{ apply alts_anchored. constructor; [apply wholeOf_anchored|].
      apply Forall_forall. intros r Hr. apply in_map_iff in Hr.
      destruct Hr as (w & <- & _). apply wholeOf_anchored. }
  rewrite matchesAtStart_alts. unfold isCommonTag, commonTags.
  cbn [existsb map].
  rewrite !matchesAtStart_lit, matchesAtStart_Chr.
  destruct sel as [|a [|b sel]]; reflexivity.
Qed.

(** X13. The name generated for a selector is [custom-styled-] and the
    selector exactly when the selector is one character out of [h] and
    [1] to [6], or one of the tag names [p], [div], [span], [a],
    [button], [input], [section], [header], [footer], [main], [aside],
    [nav]; every other selector, the heading tags [h1] to [h6] among
    them, gets a name that starts with [scoped-style-]. *)
Theorem common_tag_selectors :
  (forall sel,
     generateClassNameFromSelector sel = "custom-styled-" ++ sel
     <-> isCommonTag sel = true)
  /\ (forall sel,
        startsWith (generateClassNameFromSelector sel) "scoped-style-" = true
        <-> isCommonTag sel = false)
  /\ (forall a,
        startsWith
          (generateClassNameFromSelector (String "h" (String a "")))
          "scoped-style-" = true).
Proof.
  assert (Hcases : forall sel,
            (isCommonTag sel = true
             /\ generateClassNameFromSelector sel = "custom-styled-" ++ sel)
            \/ (isCommonTag sel = false
                /\ exists slug, generateClassNameFromSelector sel
                                = "scoped-style-" ++ slug)).
  { intros sel. unfold generateClassNameFromSelector.
    rewrite test_commonTagRegex. destruct (isCommonTag sel).
    - now left.
    - right. split; auto. rewrite replaceFirst_Bol. eauto. }
  assert (Hscoped : forall sel,
            startsWith (generateClassNameFromSelector sel) "scoped-style-"
            = true <-> isCommonTag sel = false).
  { intros sel. destruct (Hcases sel) as [[Hc ->]|[Hc [slug ->]]];
      rewrite Hc; split; auto; discriminate. }
  split; [|split].
  - intros sel. destruct (Hcases sel) as [[Hc ->]|[Hc [slug ->]]];
      rewrite Hc; split; auto; discriminate.
  - exact Hscoped.
  - intros a. apply Hscoped. cbn.
    destruct (Ascii.eqb a "e")%char; reflexivity.
Qed.

(* ================================================================== *)
(** * The used classes *)
(* ================================================================== *)

Lemma addUsedClass_in c this x :
  In x (c_usedClasses (addUsedClass c this))
  <-> In x (c_usedClasses this) \/ x = c.
Proof.
  unfold addUsedClass. cbn [c_usedClasses].
  destruct (setHas _ _) eqn:Hhas.
  - apply setHas_In in Hhas. split; [now left|].
    now intros [H| ->].
  - rewrite in_app_iff. cbn. intuition.
Qed.

Lemma addUsedClass_NoDup c this :
  NoDup (c_usedClasses this) -> NoDup (c_usedClasses (addUsedClass c this)).
Proof.
  intros Hnd. unfold addUsedClass. cbn [c_usedClasses].
  destruct (setHas _ _) eqn:Hhas; [exact Hnd|].
  assert (Hnot : ~ In c (c_usedClasses this)).
  { intros Hin. apply setHas_In in Hin. congruence. }
  clear Hhas. induction (c_usedClasses this) as [|y l IH]; cbn.
  - constructor; [intros []|constructor].
  - inversion Hnd as [|? ? Hy Hl]. subst. constructor.
    + rewrite in_app_iff. cbn. intros [H|[H|[]]]; [auto|].
      apply Hnot. now left.
    + apply IH; auto. intros H. apply Hnot. now right.
Qed.

Lemma addUsedClasses_in l x : forall this,
  In x (c_usedClasses
          (fold_left (fun this className => addUsedClass className this)
                     l this))
  <-> In x (c_usedClasses this) \/ In x l.
Proof.
  induction l as [|c l IH]; intros this; cbn [fold_left].
  - cbn. intuition.
  - rewrite IH, addUsedClass_in. cbn. intuition.
Qed.

Lemma addUsedClasses_NoDup l : forall this,
  NoDup (c_usedClasses this) ->
  NoDup (c_usedClasses
           (fold_left (fun this className => addUsedClass className this)
                      l this)).
Proof.
  induction l as [|c l IH]; intros this Hnd; cbn [fold_left]; auto.
  apply IH. now apply addUsedClass_NoDup.
Qed.

Lemma collectOwnClasses_in el this x :
  In x (c_usedClasses (collectOwnClasses el this))
  <-> In x (c_usedClasses this) \/ countsClassesOf el x.
Proof.
  unfold collectOwnClasses, countsClassesOf.
  destruct (setHas IGNORED_TAGS _); cbn [negb].
  - split; [now left|]. now intros [H|[H _]].
  - rewrite addUsedClasses_in. intuition.
Qed.

Lemma collectOwnClasses_NoDup el this :
  NoDup (c_usedClasses this) ->
  NoDup (c_usedClasses (collectOwnClasses el this)).
Proof.
  unfold collectOwnClasses. destruct (negb _); auto.
  apply addUsedClasses_NoDup.
Qed.

Lemma collectUsedClasses_exact el : forall this,
  (NoDup (c_usedClasses this) ->
   NoDup (c_usedClasses (collectUsedClasses el this)))
  /\ forall x,
       In x (c_usedClasses (collectUsedClasses el this))
       <-> In x (c_usedClasses this)
           \/ exists d, visits el d /\ countsClassesOf d x.
Proof.
  induction el as [t a m o cs IH] using element_induction. intros this.
  rewrite collectUsedClasses_eq. cbn [childNodes].
  set (el := Element t a m o cs).
  assert (Hloop : forall cs' s,
             Forall (onElement
                       (fun e => forall this,
                          (NoDup (c_usedClasses this) ->
                           NoDup (c_usedClasses (collectUsedClasses e this)))
                          /\ forall x,
                               In x (c_usedClasses
                                       (collectUsedClasses e this))
                               <-> In x (c_usedClasses this)
                                   \/ exists d, visits e d
                                                /\ countsClassesOf d x))
                    cs' ->
             (NoDup (c_usedClasses s) ->
              NoDup (c_usedClasses (collectFromChildren cs' s)))
             /\ forall x,
                  In x (c_usedClasses (collectFromChildren cs' s))
                  <-> In x (c_usedClasses s)
                      \/ exists c d, In (ElementNode c) cs'
                                     /\ entersChild c = true
                                     /\ visits c d
                                     /\ countsClassesOf d x).
  { induction cs' as [|c cs' IHcs]; intros s Hall.
    - cbn [collectFromChildren]. split; auto. intros x. split; auto.
      intros [H|(c & d & [] & _)]; auto.
    - inversion Hall as [|? ? Hc Hall']. subst.
      assert (Hskip :
                (NoDup (c_usedClasses s) ->
                 NoDup (c_usedClasses (collectFromChildren cs' s)))
                /\ forall x,
                     In x (c_usedClasses (collectFromChildren cs' s))
                     <-> In x (c_usedClasses s)
                         \/ exists c0 d, In (ElementNode c0) cs'
                                         /\ entersChild c0 = true
                                         /\ visits c0 d
                                         /\ countsClassesOf d x)
        by (now apply IHcs).
      destruct c as [e| |]; cbn [collectFromChildren].
      + cbn [onElement] in Hc. destruct (entersChild e) eqn:Henter.
        * destruct (Hc s) as [Hnd Hin].
          destruct (IHcs (collectUsedClasses e s) Hall') as [Hnd' Hin'].
          split; [auto|]. intros x. rewrite Hin', Hin. split.
          -- intros [[H|(d & Hv & Hd)]|(c & d & Hc' & He & Hv & Hd)].
             ++ now left.
             ++ right. exists e, d. cbn. auto.
             ++ right. exists c, d. cbn. auto.
          -- intros [H|(c & d & [Heq|Hc'] & He & Hv & Hd)].
             ++ now left; left.
             ++ inversion Heq. subst c. left. right. eauto.
             ++ right. exists c, d. auto.
        * destruct Hskip as [Hnd Hin]. split; [auto|]. intros x.
          rewrite Hin. split.
          -- intros [H|(c & d & Hc' & He & Hv & Hd)]; [now left|].
             right. exists c, d. cbn. auto.
          -- intros [H|(c & d & [Heq|Hc'] & He & Hv & Hd)]; [now left| |].
             ++ inversion Heq. subst c. congruence.
             ++ right. exists c, d. auto.
      + destruct Hskip as [Hnd Hin]. split; [auto|]. intros x.
        rewrite Hin. split.
        * intros [H|(c & d & Hc' & He & Hv & Hd)]; [now left|].
          right. exists c, d. cbn. auto.
        * intros [H|(c & d & [Heq|Hc'] & He & Hv & Hd)]; [now left| |].
          -- discriminate.
          -- right. exists c, d. auto.
      + destruct Hskip as [Hnd Hin]. split; [auto|]. intros x.
        rewrite Hin. split.
        * intros [H|(c & d & Hc' & He & Hv & Hd)]; [now left|].
          right. exists c, d. cbn. auto.
        * intros [H|(c & d & [Heq|Hc'] & He & Hv & Hd)]; [now left| |].
          -- discriminate.
          -- right. exists c, d. auto. }
  destruct (Hloop cs (collectOwnClasses el this) IH) as [Hnd Hin].
  split.
  - intros H. apply Hnd. now apply collectOwnClasses_NoDup.
  - intros x. rewrite Hin, collectOwnClasses_in. split.
    + intros [[H|H]|(c & d & Hc & He & Hv & Hd)].
      * now left.
      * right. exists el. split; [constructor|exact H].
      * right. exists d. split; [|exact Hd].
        now apply (visits_child el c d).
    + intros [H|(d & Hv & Hd)]; [now left; left|].
      inversion Hv as [|? c ? Hc He Hv']; subst.
      * left. now right.
      * right. exists c, d. auto.
Qed.

(** X14. The used classes are the classes of the elements below the
    body that [collectUsedClasses] reaches, the [script], [svg] and
    [style] children and what is below them left out, and whose tag is
    not ignored; the classes of an element below an ignored element do
    count.  No class is listed twice. *)
Theorem used_classes_are_those_visited (doc : document) :
  NoDup (usedClassesOf doc)
  /\ forall x,
       In x (usedClassesOf doc)
       <-> exists d, visits (walkedBody doc) d /\ countsClassesOf d x.
Proof.
  unfold usedClassesOf.
  destruct (collectUsedClasses_exact (walkedBody doc) newConverter)
    as [Hnd Hin].
  split.
  - apply Hnd. constructor.
  - intros x. rewrite Hin. cbn [newConverter c_usedClasses In].
    intuition.
Qed.

(* ================================================================== *)
(** * Attributes *)
(* ================================================================== *)

Lemma isCustomAttr_standard name :
  isCustomAttr name = negb (setHas STANDARD_ATTRS (toLowerCase name)).
Proof.
  unfold isCustomAttr. cbv zeta.
  destruct (setHas STANDARD_ATTRS (toLowerCase name)) eqn:Hstd.
  - apply setHas_In in Hstd. cbn [STANDARD_ATTRS In] in Hstd.
    repeat (destruct Hstd as [Hstd|Hstd]; [now rewrite <- Hstd|]).
    contradiction.
  - cbn [negb]. now rewrite !orb_true_r.
Qed.

(** X15. An attribute is listed in [xattr] exactly when its lower-cased
    name is not one of the standard names: the tests for the prefixes
    [data-] and [aria-] add nothing.  The [xattr] of a DOM node is what
    is not standard among its [attributes], and never has [class]. *)
Theorem custom_attributes :
  (forall name,
      isCustomAttr name = negb (setHas STANDARD_ATTRS (toLowerCase name)))
  /\ forall el,
       xattrOf el
       = filter (fun a => negb (setHas STANDARD_ATTRS (toLowerCase (fst a))))
                (domAttributesOf el)
       /\ forall a, In a (xattrOf el) ->
                    In a (domAttributesOf el)
                    /\ toLowerCase (fst a) <> "class".
Proof.
  split; [exact isCustomAttr_standard|].
  assert (Hclass : forall a : attribute,
             isCustomAttr (fst a) = true ->
             String.eqb (toLowerCase (fst a)) "class" = false).
  { intros a. rewrite isCustomAttr_standard.
    destruct (String.eqb_spec (toLowerCase (fst a)) "class") as [->|]; auto. }
  intros el. unfold xattrOf, domAttributesOf. split.
  - rewrite (filter_ext
               (fun a => negb (setHas STANDARD_ATTRS (toLowerCase (fst a))))
               (fun a => isCustomAttr (fst a)))
      by (intros a; now rewrite isCustomAttr_standard).
    induction (attributes el) as [|a l IH]; [reflexivity|].
    cbn [filter].
    destruct (isCustomAttr (fst a)) eqn:Hc.
    + rewrite (Hclass a Hc). cbn [negb filter].
      rewrite Hc. now rewrite IH.
    + destruct (negb _); [|exact IH].
      cbn [filter]. rewrite Hc. exact IH.
  - intros a Ha. apply filter_In in Ha. destruct Ha as [Hin Hc].
    pose proof (Hclass a Hc) as Hne. split.
    + apply filter_In. split; auto. now rewrite Hne.
    + now apply String.eqb_neq.
Qed.

(* ================================================================== *)
(** * Elements that yield no node *)
(* ================================================================== *)

Lemma yieldsNothing_eq el :
  yieldsNothing el
  = setHas IGNORED_TAGS (toLowerCase (tagName el))
    && noneYields (childNodes el).
Proof.
  destruct el as [t a m o cs]. reflexivity.
Qed.

Lemma processElement_kept el this :
  setHas IGNORED_TAGS (toLowerCase (tagName el)) = false ->
  truthyId (fst (processElement el this)) = true.
Proof.
  intros Hign. rewrite processElement_eq. unfold processElementWith.
  cbv zeta. rewrite Hign.
  destruct (String.eqb _ "script"); [reflexivity|].
  destruct (String.eqb _ "svg"); [reflexivity|].
  destruct (resolveClassIds el this) as [classIds this1].
  destruct (TAG_MAP _) as [type|].
  - unfold uuidv4 at 1. destruct (dataOf _ _ _) as [data this2].
    destruct (isType type "Section");
      [destruct (negb _ && negb _)|];
      unfold uuidv4;
      repeat match goal with
             | |- context [walkChildren ?cs ?s] =>
                 destruct (walkChildren cs s)
             end; reflexivity.
  - unfold uuidv4. now destruct (walkChildren _ _).
Qed.

Lemma hoistChildren_truthy cs : forall this,
  Forall (fun id => truthyId id = true) (fst (hoistChildren cs this)).
Proof.
  induction cs as [|c cs IH]; intros this; [constructor|].
  destruct c as [e| |]; cbn [hoistChildren]; try apply IH.
  destruct (processElement e this) as [id this1].
  specialize (IH this1). destruct (hoistChildren cs this1) as [ids this2].
  cbn [fst] in *. destruct (truthyId id) eqn:Hid; auto.
Qed.

Lemma processElement_empty el : forall this,
  fst (processElement el this) = EmptyId <-> yieldsNothing el = true.
Proof.
  induction el as [t a m o cs IH] using element_induction. intros this.
  rewrite yieldsNothing_eq. cbn [tagName childNodes].
  destruct (setHas IGNORED_TAGS (toLowerCase t)) eqn:Hign.
  - rewrite processElement_eq. unfold processElementWith. cbv zeta.
    cbn [tagName childNodes]. rewrite Hign. cbn [andb].
    assert (Hloop : forall cs' s,
               Forall (onElement
                         (fun e => forall this,
                              fst (processElement e this) = EmptyId
                              <-> yieldsNothing e = true)) cs' ->
               fst (hoistChildren cs' s) = [] <-> noneYields cs' = true).
    { induction cs' as [|c cs' IHcs]; intros s Hall; [now split|].
      inversion Hall as [|? ? Hc Hall']. subst.
      destruct c as [e| |]; cbn [hoistChildren noneYields];
        try (now apply IHcs).
      cbn [onElement] in Hc. specialize (Hc s).
      destruct (processElement e s) as [id s1]. cbn [fst] in Hc.
      specialize (IHcs s1 Hall').
      destruct (hoistChildren cs' s1) as [ids s2]. cbn [fst] in *.
      rewrite andb_true_iff, <- Hc, <- IHcs.
      destruct id; cbn [truthyId]; split; try tauto; try discriminate.
      intros [H _]. discriminate. }
    pose proof (hoistChildren_truthy cs this) as Htruthy.
    specialize (Hloop cs this IH).
    destruct (hoistChildren cs this) as [ids this1]. cbn [fst] in *.
    rewrite <- Hloop. destruct ids as [|id ids]; cbn [hd].
    + tauto.
    + inversion Htruthy as [|? ? Hid _]. subst.
      split; [|discriminate]. intros ->. discriminate.
  - pose proof (processElement_kept (Element t a m o cs) this Hign) as Hk.
    cbn [andb]. split; [|discriminate].
    intros Heq. rewrite Heq in Hk. discriminate.
Qed.

(** X16. [processElement] returns the empty string for an element
    exactly when the element yields no node: its tag is ignored and each
    of its element children yields no node in turn, whatever the state of
    the converter.  The identifiers the loop over the child nodes collects
    for a node hold the empty string exactly when one of the element
    children yields no node. *)
Theorem empty_identifier_exactly (this : Converter) :
  (forall el,
      fst (processElement el this) = EmptyId <-> yieldsNothing el = true)
  /\ forall cs,
       In EmptyId (fst (walkChildren cs this))
       <-> exists c, In (ElementNode c) cs /\ yieldsNothing c = true.
Proof.
  split; [intros el; apply processElement_empty|].
  intros cs. revert this. induction cs as [|c cs IH]; intros this.
  - cbn. split; [intros []|intros (c & [] & _)].
  - destruct c as [e|text|]; cbn [walkChildren].
    + pose proof (processElement_empty e this) as He.
      destruct (processElement e this) as [id this1]. cbn [fst] in He.
      specialize (IH this1).
      destruct (walkChildren cs this1) as [ids this2]. cbn [fst] in *.
      cbn [In]. rewrite He, IH. split.
      * intros [H|(c & Hc & Hy)]; [exists e|exists c]; cbn; auto.
      * intros (c & [Heq|Hc] & Hy).
        -- inversion Heq. subst. now left.
        -- right. eauto.
    + destruct (truthy (trim text)).
      * unfold uuidv4. cbn [fst snd].
        match goal with
        | |- context [walkChildren cs ?s] =>
            specialize (IH s); destruct (walkChildren cs s) as [ids this2]
        end.
        cbn [fst] in *. cbn [In]. rewrite IH. split.
        -- intros [H|(c & Hc & Hy)]; [discriminate|].
           exists c. cbn. auto.
        -- intros (c & [Heq|Hc] & Hy); [discriminate|]. right. eauto.
      * rewrite IH. split.
        -- intros (c & Hc & Hy). exists c. cbn. auto.
        -- intros (c & [Heq|Hc] & Hy); [discriminate|]. eauto.
    + rewrite IH. split.
      * intros (c & Hc & Hy). exists c. cbn. auto.
      * intros (c & [Heq|Hc] & Hy); [discriminate|]. eauto.
Qed.

(* ================================================================== *)
(** * Hoisting of the children of an ignored element *)
(* ================================================================== *)

Lemma adds_handed_range a b added id :
  adds a b added -> handedFrom added id ->
  id = EmptyId \/ exists j, id = Uuid j /\ c_uuids a <= j < c_uuids b.
Proof.
  intros (_ & _ & Hmade & _) [->|(n & Hn & <-)]; [now left|right].
  rewrite Forall_forall in Hmade.
  exact (madeNode_id _ _ _ _ (Hmade n Hn)).
Qed.

Lemma elements_add cs :
  Forall (onElement
            (fun el => forall this,
                 exists added,
                   adds this (snd (processElement el this)) added
                   /\ handedFrom added (fst (processElement el this)))) cs.
Proof.
  apply Forall_forall. intros [e| |] _; cbn [onElement]; auto.
  apply processElement_adds.
Qed.

Lemma processElement_range el this :
  c_uuids this <= c_uuids (snd (processElement el this))
  /\ (fst (processElement el this) = EmptyId
      \/ exists j, fst (processElement el this) = Uuid j
                   /\ c_uuids this <= j
                      < c_uuids (snd (processElement el this))).
Proof.
  destruct (processElement_adds el this) as [added [Hadds Hid]].
  split; [apply Hadds|]. eapply adds_handed_range; eauto.
Qed.

Lemma walkChildren_range cs this :
  c_uuids this <= c_uuids (snd (walkChildren cs this))
  /\ forall id, In id (fst (walkChildren cs this)) ->
       id = EmptyId
       \/ exists j, id = Uuid j
                    /\ c_uuids this <= j
                       < c_uuids (snd (walkChildren cs this)).
Proof.
  destruct (walkChildren_adds cs (elements_add cs) this)
    as [added [Hadds Hids]].
  split; [apply Hadds|]. intros id Hid. rewrite Forall_forall in Hids.
  eapply adds_handed_range; eauto.
Qed.

Lemma hoistChildren_range cs this :
  c_uuids this <= c_uuids (snd (hoistChildren cs this))
  /\ forall id, In id (fst (hoistChildren cs this)) ->
       exists j, id = Uuid j
                 /\ c_uuids this <= j
                    < c_uuids (snd (hoistChildren cs this)).
Proof.
  destruct (hoistChildren_adds cs (elements_add cs) this)
    as [added [Hadds Hids]].
  split; [apply Hadds|]. intros id Hid.
  pose proof (hoistChildren_truthy cs this) as Htruthy.
  rewrite Forall_forall in Hids, Htruthy.
  destruct (adds_handed_range _ _ _ id Hadds (Hids id Hid)) as [->|H]; auto.
  specialize (Htruthy EmptyId Hid). discriminate.
Qed.

Lemma hoistChildren_NoDup cs : forall this,
  NoDup (fst (hoistChildren cs this)).
Proof.
  induction cs as [|c cs IH]; intros this; [constructor|].
  destruct c as [e| |]; cbn [hoistChildren]; auto.
  destruct (processElement_range e this) as [_ Hid].
  destruct (processElement e this) as [childId this1]. cbn [fst snd] in Hid.
  specialize (IH this1).
  destruct (hoistChildren_range cs this1) as [_ Hids].
  destruct (hoistChildren cs this1) as [childIds this2]. cbn [fst snd] in *.
  destruct (truthyId childId) eqn:Htruthy; auto.
  constructor; auto. intros Hin.
  destruct Hid as [->|(j & -> & Hj)]; [discriminate|].
  destruct (Hids _ Hin) as (k & Hk & Hrange). inversion Hk. lia.
Qed.

Lemma walkChildren_app a : forall b this,
  walkChildren (a ++ b) this
  = ((fst (walkChildren a this)
      ++ fst (walkChildren b (snd (walkChildren a this))))%list,
     snd (walkChildren b (snd (walkChildren a this)))).
Proof.
  induction a as [|c a IH]; intros b this.
  - cbn [app walkChildren fst snd]. now destruct (walkChildren b this).
  - cbn [app]. destruct c as [e|text|]; cbn [walkChildren]; auto.
    + destruct (processElement e this) as [childId this1]. rewrite IH.
      destruct (walkChildren a this1) as [ids1 this2]. reflexivity.
    + destruct (truthy (trim text)); auto.
      cbn [uuidv4]. rewrite IH.
      now destruct (walkChildren a _) as [ids1 this2].
Qed.

Lemma keptChildIds_hoist el this :
  hoistChildren (childNodes el) this
  = (keptChildIds el this, snd (visitElements (children el) this)).
Proof. apply hoistChildren_visit. Qed.

Lemma keptChildIds_resolve el this id :
  In id (keptChildIds el this) ->
  resolvesIn (c_nodes (snd (visitElements (children el) this))) id.
Proof.
  intros Hin.
  assert (Hall : Forall (onElement
                           (fun el => forall this,
                                truthyId (fst (processElement el this)) = true ->
                                resolvesIn
                                  (c_nodes (snd (processElement el this)))
                                  (fst (processElement el this))))
                        (childNodes el)).
  { apply Forall_forall. intros [e| |] _; cbn [onElement]; auto.
    apply processElement_resolves. }
  pose proof (hoistChildren_resolves (childNodes el) Hall this) as H.
  rewrite keptChildIds_hoist in H. cbn [fst snd] in H.
  rewrite Forall_forall in H. now apply H.
Qed.

(** C3, as the code has it.  An ignored element makes no node, and no
    node of an output carries an ignored tag.  Its element children are
    all visited, in document order; when one of them at least is kept,
    the element hands the identifier of the first kept child to its
    parent, the kept children have pairwise distinct identifiers and each
    of them is a node of the node list.  In the child list of the parent
    that one identifier stands in the place of the element, and the
    identifier of no other kept child is in the list.  For
    [<table><tr><td><p>Text</p></td></tr></table>] the paragraph is a
    child of the root, the node of the [table], and is reached from
    it. *)
Theorem hoisting_of_ignored_elements :
  (forall el this id rest,
      setHas IGNORED_TAGS (toLowerCase (tagName el)) = true ->
      keptChildIds el this = id :: rest ->
      processElement el this
      = (id, snd (visitElements (children el) this))
      /\ NoDup (id :: rest)
      /\ forall id', In id' (id :: rest) ->
                     resolvesIn (c_nodes (snd (processElement el this))) id')
  /\ (forall before el after this id rest,
         setHas IGNORED_TAGS (toLowerCase (tagName el)) = true ->
         keptChildIds el (snd (walkChildren before this)) = id :: rest ->
         fst (walkChildren (before ++ ElementNode el :: after) this)
         = (fst (walkChildren before this)
            ++ id
            :: fst (walkChildren after
                      (snd (visitElements
                              (children el)
                              (snd (walkChildren before this))))))%list
         /\ forall id', In id' rest ->
              ~ In id'
                   (fst (walkChildren (before ++ ElementNode el :: after)
                                      this)))
  /\ (forall doc css n,
         In n (outputNodes doc css) ->
         (forall tag, originalTag n = Some tag ->
                      setHas IGNORED_TAGS tag = false)
         /\ (forall tag, n_tag n = Some tag ->
                         setHas IGNORED_TAGS tag = false))
  /\ exists root p,
      outputRoot tableWithParagraph "" = Some root
      /\ originalTag root = Some "table"
      /\ In p (outputNodes tableWithParagraph "")
      /\ n_tag p = Some "p"
      /\ childIdsOf root = [n_id p]
      /\ reachable (outputNodes tableWithParagraph "") (n_id root) (n_id p).
Proof.
  assert (Hfirst : forall el this id rest,
             setHas IGNORED_TAGS (toLowerCase (tagName el)) = true ->
             keptChildIds el this = id :: rest ->
             processElement el this
             = (id, snd (visitElements (children el) this))).
  { intros el this id rest Hig Hkept.
    rewrite (ignored_element_result el this Hig).
    fold (keptChildIds el this). now rewrite Hkept. }
  assert (Hdistinct : forall el this, NoDup (keptChildIds el this)).
  { intros el this. pose proof (hoistChildren_NoDup (childNodes el) this) as H.
    now rewrite keptChildIds_hoist in H. }
  split; [|split; [|split; [exact output_tags|]]].
  - intros el this id rest Hig Hkept.
    split; [now apply (Hfirst el this id rest)|].
    split; [rewrite <- Hkept; apply Hdistinct|].
    intros id' Hin. rewrite (Hfirst el this id rest Hig Hkept). cbn [snd].
    apply keptChildIds_resolve. now rewrite Hkept.
  - intros before el after this id rest Hig Hkept.
    set (this1 := snd (walkChildren before this)) in *.
    set (this2 := snd (visitElements (children el) this1)).
    assert (Hlist : fst (walkChildren (before ++ ElementNode el :: after)
                                      this)
                    = (fst (walkChildren before this)
                       ++ id :: fst (walkChildren after this2))%list).
    { rewrite walkChildren_app. fold this1. cbn [fst walkChildren].
      rewrite (Hfirst el this1 id rest Hig Hkept). fold this2.
      now destruct (walkChildren after this2). }
    split; [exact Hlist|].
    intros id' Hin Hlisted. rewrite Hlist in Hlisted.
    destruct (hoistChildren_range (childNodes el) this1) as [_ Hrange].
    rewrite keptChildIds_hoist in Hrange. cbn [fst snd] in Hrange.
    fold this2 in Hrange. rewrite Hkept in Hrange.
    destruct (Hrange id' (or_intror Hin)) as (j & -> & Hj).
    apply in_app_or in Hlisted. destruct Hlisted as [Hb|[Heq|Ha]].
    + destruct (walkChildren_range before this) as [_ Hbefore].
      fold this1 in Hbefore.
      destruct (Hbefore _ Hb) as [H|(k & Hk & Hrk)]; [discriminate|].
      inversion Hk. lia.
    + pose proof (Hdistinct el this1) as Hnd. rewrite Hkept in Hnd.
      inversion Hnd as [|? ? Hnot _]. subst. now apply Hnot.
    + destruct (walkChildren_range after this2) as [_ Hafter].
      destruct (Hafter _ Ha) as [H|(k & Hk & Hrk)]; [discriminate|].
      inversion Hk. lia.
  - unfold outputRoot.
    remember (outputNodes tableWithParagraph "") as out eqn:Hout.
    vm_compute in Hout.
    match type of Hout with
    | _ = [?r; ?p; ?t] => exists r, p
    end.
    subst out.
    split; [reflexivity|].
    split; [reflexivity|].
    split; [right; left; reflexivity|].
    split; [reflexivity|].
    split; [reflexivity|].
    eapply reach_child.
    + apply reach_here.
    + left. reflexivity.
    + reflexivity.
    + left. reflexivity.
Qed.

Lemma hoisting_of_ignored_elements_witness :
  processElement
    (Element "TD" [] (fun _ => Some false) ""
             [plain "P" [] [TextNode "A"]; plain "P" [] [TextNode "B"]])
    newConverter
  = (Uuid 0,
     snd (visitElements
            (children
               (Element "TD" [] (fun _ => Some false) ""
                        [plain "P" [] [TextNode "A"];
                         plain "P" [] [TextNode "B"]]))
            newConverter))
  /\ NoDup [Uuid 0; Uuid 2]
  /\ forall id',
       In id' [Uuid 0; Uuid 2] ->
       resolvesIn
         (c_nodes
            (snd (processElement
                    (Element "TD" [] (fun _ => Some false) ""
                             [plain "P" [] [TextNode "A"];
                              plain "P" [] [TextNode "B"]])
                    newConverter)))
         id'.
Proof.
  exact (proj1 hoisting_of_ignored_elements
               (Element "TD" [] (fun _ => Some false) ""
                        [plain "P" [] [TextNode "A"];
                         plain "P" [] [TextNode "B"]])
               newConverter (Uuid 0) [Uuid 2] eq_refl eq_refl).
Defined.

(** C3, as the claim has it, fails: in
    [<table><tr><td><p>A</p><p>B</p></td></tr></table>] the ignored cell
    has two kept children, both are nodes of the output, and the second
    is a child of no node. *)
Lemma hoisting_counterexample :
  exists parent p1 p2,
    In parent (outputNodes cellWithTwoParagraphs "")
    /\ In p1 (outputNodes cellWithTwoParagraphs "")
    /\ In p2 (outputNodes cellWithTwoParagraphs "")
    /\ originalTag parent = Some "table"
    /\ n_tag p1 = Some "p" /\ n_tag p2 = Some "p"
    /\ n_id p1 <> n_id p2
    /\ childIdsOf parent = [n_id p1]
    /\ forall n, In n (outputNodes cellWithTwoParagraphs "") ->
                 ~ In (n_id p2) (childIdsOf n).
Proof.
  remember (outputNodes cellWithTwoParagraphs "") as out eqn:Hout.
  vm_compute in Hout.
  match type of Hout with
  | _ = [?a; ?b; ?c; ?d; ?e] => exists a, b, e
  end.
  subst out.
  split; [now left|].
  split; [right; now left|].
  split; [do 4 right; now left|].
  split; [reflexivity|]. split; [reflexivity|]. split; [reflexivity|].
  split; [discriminate|]. split; [reflexivity|].
  intros n Hn.
  repeat (destruct Hn as [<-|Hn];
          [cbn; intros H; repeat (destruct H as [H|H]; try discriminate);
           exact H|]).
  destruct Hn.
Qed.
